(** * Resilient room session of p2p-im: fallback connector and health watcher

    A shallow embedding of the connection manager (the module that exports
    [joinRoomWithFallback]): the ordered strategy registry, the bounded
    relay-socket probe [waitForRelayOpen], the [connect] scan, the
    close/error watcher [handleDisconnect] and the facade returned to the
    caller.  Promises and DOM events are modelled by an explicit event loop:
    every [await] of the source is a program point at which a call is
    suspended, and the environment decides what settles next. *)

From Stdlib Require Import ZArith Lia.
From stdpp Require Import base functions list strings gmap.

#[local] Set Warnings "-clear-no-such-hyp".

(** ** Relay sockets *)

(** [WebSocket.readyState]: 0, 1, 2, 3. *)
Inductive ReadyState := CONNECTING | OPEN | CLOSING | CLOSED.

#[global] Instance ReadyState_eq_dec : EqDecision ReadyState.
Proof. solve_decision. Defined.

(** A socket is an object identity; its mutable [readyState] lives in a
    store, its listeners in the closures that registered them. *)
Definition Sock := nat.

(** [Record<string, WebSocket>], entries in [Object.values] order. *)
Definition SocketMap := list (string * Sock).

Definition Object_values (m : SocketMap) : list Sock := m.*2.

Definition Store := Sock → ReadyState.

(** [list.some((ws) => ws.readyState === WebSocket.OPEN)] *)
Definition some_open (rs : Store) (list : list Sock) : bool :=
  existsb (λ ws, bool_decide (rs ws = OPEN)) list.

(** ** waitForRelayOpen (lines 25-61)

    The closure state of the promise executor: [resolved] is the flag of
    line 32 together with the value handed to [resolve] and the time of that
    call, [timer] tells whether the [setTimeout] of line 46 is still
    scheduled, [openListeners] is the set of sockets on which [onOpen] is
    registered as a once-only "open" listener. *)
Record Wait := MkWait {
  resolved : option (Z * bool);
  timer : bool;
  openListeners : gset Sock
}.

(** Lines 33-37. *)
Definition cleanup (list : list Sock) (w : Wait) : Wait :=
  MkWait (resolved w) (timer w) (openListeners w ∖ list_to_set list).

(** Lines 38-45, called at time [now]. *)
Definition onOpen (now : Z) (rs : Store) (list : list Sock) (w : Wait) : Wait :=
  match resolved w with
  | None =>
      if some_open rs list
      then cleanup list (MkWait (Some (now, true)) false (openListeners w))
      else w
  | Some _ => w
  end.

(** The delays that [setTimeout] applies as they are given.  For a delay
    outside this range the runtime substitutes one of its own, so that the
    callback of line 46 does not run at time [timeout]: the time that
    [onTimeout] gives to a resolution is the one of the source for delays
    in this range, as the default of 5000 is; the value of the resolution
    does not depend on the delay. *)
Definition delay_honoured (timeout : Z) : Prop := (1 ≤ timeout ≤ 2147483647)%Z.

(** The callback of line 46-52; it runs only if the timer was not cleared,
    and for a delay that is honoured it runs at time [timeout]. *)
Definition onTimeout (timeout : Z) (rs : Store) (list : list Sock) (w : Wait) : Wait :=
  if timer w then
    match resolved w with
    | None =>
        cleanup list (MkWait (Some (timeout, some_open rs list)) false (openListeners w))
    | Some _ => MkWait (resolved w) false (openListeners w)
    end
  else w.

(** The body of the [forEach] of lines 53-59, run at time 0. *)
Definition subscribe (rs : Store) (list : list Sock) (w : Wait) (ws : Sock) : Wait :=
  if bool_decide (rs ws = OPEN) then onOpen 0 rs list w
  else MkWait (resolved w) (timer w) ({[ws]} ∪ openListeners w).

(** The executor of lines 31-60: timer armed, then the [forEach]. *)
Definition executor (rs : Store) (list : list Sock) : Wait :=
  foldl (subscribe rs list) (MkWait None true ∅) list.

(** What the event loop delivers while the promise is pending.  [Opens ws]
    is the socket reaching OPEN the way a WebSocket does: [readyState]
    becomes OPEN and the "open" event is dispatched.  [Becomes ws r] is any
    other change of [readyState] as this closure sees it (no "open" event
    reaches [onOpen]).  [TimerTask] is the callback of line 46. *)
Inductive SocketEvent := Opens (ws : Sock) | Becomes (ws : Sock) (r : ReadyState).

Inductive Task := SocketTask (now : Z) (e : SocketEvent) | TimerTask.

#[global] Instance SocketEvent_eq_dec : EqDecision SocketEvent.
Proof. solve_decision. Defined.

#[global] Instance Task_eq_dec : EqDecision Task.
Proof. solve_decision. Defined.

Definition apply_store (rs : Store) (t : Task) : Store :=
  match t with
  | SocketTask _ (Opens ws) => <[ws := OPEN]> rs
  | SocketTask _ (Becomes ws r) => <[ws := r]> rs
  | TimerTask => rs
  end.

Definition deliver (timeout : Z) (list : list Sock)
    (st : Store * Wait) (t : Task) : Store * Wait :=
  let rs' := apply_store st.1 t in
  let w := st.2 in
  match t with
  | SocketTask now (Opens ws) =>
      if bool_decide (ws ∈ openListeners w)
      then (rs', onOpen now rs' list
                   (MkWait (resolved w) (timer w) (openListeners w ∖ {[ws]})))
      else (rs', w)
  | SocketTask _ (Becomes _ _) => (rs', w)
  | TimerTask => (rs', onTimeout timeout rs' list w)
  end.

(** [sockets ? Object.values(sockets) : []] (lines 29 and 104). *)
Definition socket_list (sockets : option SocketMap) : list Sock :=
  match sockets with Some m => Object_values m | None => [] end.

(** The call is made at time 0 against the store [rs]; [queue] is the
    sequence of tasks the event loop runs afterwards.  The result is the
    time and the value with which the promise resolves, [None] while it is
    still pending at the end of [queue]. *)
Definition waitForRelayOpen (sockets : option SocketMap) (timeout : Z)
    (rs : Store) (queue : list Task) : option (Z * bool) :=
  let list := socket_list sockets in
  if bool_decide (length list = 0) then Some (0%Z, true)
  else resolved (foldl (deliver timeout list) (rs, executor rs list) queue).2.

(** [timeout = 5000] *)
Definition default_timeout : Z := 5000.

(** The timer task sits in the queue where its delay puts it: socket tasks
    before it are stamped no later than [timeout], those after it no
    earlier. *)
Fixpoint timer_in_order (timeout : Z) (fired : bool) (q : list Task) : bool :=
  match q with
  | [] => true
  | SocketTask now _ :: q =>
      (if fired then (timeout <=? now)%Z else (now <=? timeout)%Z)
      && timer_in_order timeout fired q
  | TimerTask :: q => negb fired && timer_in_order timeout true q
  end.

(** A task that cannot resolve a pending wait over [list]: neither the
    timer nor an "open" event on one of its sockets. *)
Definition silent (list : list Sock) (t : Task) : bool :=
  match t with
  | SocketTask _ (Opens ws) => bool_decide (ws ∉ list)
  | SocketTask _ (Becomes _ _) => true
  | TimerTask => false
  end.


(** A task that is no "open" event on a socket of [list]. *)
Definition opens_none (list : list Sock) (t : Task) : bool :=
  match t with
  | SocketTask _ (Opens ws) => bool_decide (ws ∉ list)
  | _ => true
  end.

(** ** Strategies and rooms *)

(** A [Room] handle and a reconnect handler, by object identity.  A
    handler is a callback [(room, strategy) => void] of the owner; whether
    a call of it returns or throws is decided where it is called
    (line 115, see [called]). *)
Definition Room := nat.
Definition Handler := nat.

(** What a call of [mod.getRelaySockets?.()] does: the module has no such
    method, or the method returns a map, or it throws.  The answer is the
    module's own, the same at each of its calls (lines 88, 92 and 133). *)
Inductive Getter := NoGetter | Gives (sockets : SocketMap) | Raises.

(** What [connect] uses of a loaded [StrategyModule]: the outcome of its one
    call of [joinRoom] ([None]: it throws) and its method
    [getRelaySockets]. *)
Record StrategyModule := MkModule {
  joinRoom : option Room;
  relaySockets : Getter
}.

(** [mod.getRelaySockets?.()] throws. *)
Definition raises (md : StrategyModule) : bool :=
  match relaySockets md with Raises => true | _ => false end.

(** The value of [mod.getRelaySockets?.()] when it does not throw: the map,
    or [undefined] when the module has no such method. *)
Definition getRelaySockets (md : StrategyModule) : option SocketMap :=
  match relaySockets md with Gives sockets => Some sockets | _ => None end.

(** The registry [strategies] by its names, in order.  [load] is an effect:
    what its promise settles to is the environment's answer, below. *)
Abbreviation Registry := (list string).

Definition strategies : Registry := ["nostr"; "torrent"; "mqtt"; "ipfs"].

(** The environment of one loop iteration of [connect]: what [strat.load()]
    settles to ([None]: it rejects), the store when [waitForRelayOpen] is
    called and the tasks the event loop runs while that probe is awaited. *)
Record Attempt := MkAttempt {
  loads : option StrategyModule;
  ready : Store;
  tasks : list Task
}.

(** What a run lets an observer see, in order. *)
Inductive Obs :=
| LoadCalled (i : nat)
| JoinReturned (i : nat) (rm : Room)
| JoinThrew (i : nat)
| LeaveCalled (rm : Room)
| HandlerCalled (fn : Handler) (rm : Room) (strat : string)
| ErrorLogged.

#[global] Instance Obs_eq_dec : EqDecision Obs.
Proof. solve_decision. Defined.

(** The variables [joinRoomWithFallback] closes over (lines 75-78), the set
    of sockets on which [handleDisconnect] is registered as "close" and
    "error" listener (always added and removed as a pair, lines 106-107 and
    134-135), and the observations so far. *)
Record Session := MkSession {
  active : bool;
  reconnectHandlers : list Handler;
  currentRoom : option Room;
  currentModule : option StrategyModule;
  watched : gset Sock;
  trace : list Obs
}.

Definition log (o : Obs) (σ : Session) : Session :=
  MkSession (active σ) (reconnectHandlers σ) (currentRoom σ) (currentModule σ)
            (watched σ) (trace σ ++ [o]).

(** Lines 90-91. *)
Definition adopt (rm : Room) (md : StrategyModule) (σ : Session) : Session :=
  MkSession (active σ) (reconnectHandlers σ) (Some rm) (Some md)
            (watched σ) (trace σ).

(** Lines 103-109.  [addEventListener] ignores a listener that is already
    registered, hence a set. *)
Definition watchSockets (sockets : option SocketMap) (σ : Session) : Session :=
  MkSession (active σ) (reconnectHandlers σ) (currentRoom σ) (currentModule σ)
            (list_to_set (socket_list sockets) ∪ watched σ) (trace σ).

(** How a call of [connect] settles. *)
Inductive Settled := Resolved (rm : Room) (strat : string) | Rejected (error : string).

Definition all_failed : string := "All connection strategies failed".

(** ** connect (lines 80-101), run to completion

    [rest] is the part of the registry from index [i] on; [env j] is the
    environment of the iteration for index [j].  [None]: the call is still
    suspended at line 88 when the tasks of that iteration are used up.
    Whatever is thrown inside the [try] of lines 85-95 lands in the [catch]
    of line 96 and the loop goes on: a rejected [load], a throw of
    [joinRoom], and a throw of [getRelaySockets] at line 88, which comes
    after the room has been joined and before line 95 can leave it. *)
Fixpoint connect_loop (env : nat → Attempt) (rest : Registry) (i : nat)
    (σ : Session) : Session * option Settled :=
  match rest with
  | [] => (σ, Some (Rejected all_failed))
  | strat :: rest =>
      let σ := log (LoadCalled i) σ in
      match loads (env i) with
      | None => connect_loop env rest (S i) σ
      | Some md =>
          match joinRoom md with
          | None => connect_loop env rest (S i) (log (JoinThrew i) σ)
          | Some rm =>
              let σ := log (JoinReturned i rm) σ in
              if raises md then connect_loop env rest (S i) σ
              else
                match waitForRelayOpen (getRelaySockets md) default_timeout
                        (ready (env i)) (tasks (env i)) with
                | None => (σ, None)
                | Some (_, true) =>
                    (watchSockets (getRelaySockets md) (adopt rm md σ),
                     Some (Resolved rm strat))
                | Some (_, false) =>
                    connect_loop env rest (S i) (log (LeaveCalled rm) σ)
                end
          end
      end
  end.

Definition connect (reg : Registry) (env : nat → Attempt) (startIndex : nat)
    (σ : Session) : Session * option Settled :=
  connect_loop env (drop startIndex reg) startIndex σ.

(** The ways a candidate fails, and the way it succeeds, as the
    environment decides them.  The probe reports only if it is called, that
    is, if [getRelaySockets] has not thrown at line 88. *)
Definition load_rejects (a : Attempt) : Prop := loads a = None.

Definition join_throws (a : Attempt) : Prop :=
  ∃ md, loads a = Some md ∧ joinRoom md = None.

Definition sockets_throw (a : Attempt) : Prop :=
  ∃ md rm, loads a = Some md ∧ joinRoom md = Some rm ∧ raises md = true.

Definition probe_reports (a : Attempt) (rm : Room) (ok : bool) : Prop :=
  ∃ md t, loads a = Some md ∧ joinRoom md = Some rm ∧ raises md = false ∧
    waitForRelayOpen (getRelaySockets md) default_timeout (ready a) (tasks a)
    = Some (t, ok).

Definition fails (a : Attempt) : Prop :=
  load_rejects a ∨ join_throws a ∨ (∃ rm, probe_reports a rm false) ∨ sockets_throw a.

Definition succeeds (a : Attempt) (rm : Room) : Prop := probe_reports a rm true.

(** The indices of the strategies loaded and of those joined, in order. *)
Definition loaded (tr : list Obs) : list nat :=
  omap (λ o, match o with LoadCalled i => Some i | _ => None end) tr.

Definition joined (tr : list Obs) : list nat :=
  omap (λ o, match o with JoinReturned i _ | JoinThrew i => Some i | _ => None end) tr.

(** ** The session as an event-driven machine

    A call of [connect] is suspended at one of its [await]s; [AwaitConnect]
    is the caller suspended at [await connect(...)] with that promise
    already settled. *)
Inductive Point :=
| AwaitLoad (i : nat) (strat : string)
| AwaitProbe (i : nat) (strat : string) (md : StrategyModule) (rm : Room)
| AwaitLeave (i : nat)
| AwaitConnect (r : Settled)
| Finished.

(** Who awaits the call: line 121 or line 114. *)
Inductive Caller := Construction | Reconnection.

#[global] Instance Caller_eq_dec : EqDecision Caller.
Proof. solve_decision. Defined.

(** The object of lines 123-140, as far as it is data. *)
Record FallbackRoom := MkFallbackRoom { room : Room; strategy : string }.

(** How [joinRoomWithFallback] itself settled. *)
Inductive Built := Returned (fr : FallbackRoom) | Threw (error : string).

Record Machine := MkMachine {
  session : Session;
  built : option Built;
  calls : list (Caller * Point)
}.

(** The loop head (line 83) and line 84-86 up to the [await]. *)
Definition iterate (reg : Registry) (i : nat) (σ : Session) : Session * Point :=
  match reg !! i with
  | Some strat => (log (LoadCalled i) σ, AwaitLoad i strat)
  | None => (σ, AwaitConnect (Rejected all_failed))
  end.

(** Line 86 resumes with the settled load; lines 87-88 up to the [await]. *)
Definition resume_load (reg : Registry) (i : nat) (strat : string)
    (res : option StrategyModule) (σ : Session) : Session * Point :=
  match res with
  | None => iterate reg (S i) σ
  | Some md =>
      match joinRoom md with
      | None => iterate reg (S i) (log (JoinThrew i) σ)
      | Some rm =>
          if raises md then iterate reg (S i) (log (JoinReturned i rm) σ)
          else (log (JoinReturned i rm) σ, AwaitProbe i strat md rm)
      end
  end.

(** Line 88 resumes with [ok]; lines 89-95. *)
Definition resume_probe (i : nat) (strat : string) (md : StrategyModule)
    (rm : Room) (ok : bool) (σ : Session) : Session * Point :=
  if ok
  then (watchSockets (getRelaySockets md) (adopt rm md σ),
        AwaitConnect (Resolved rm strat))
  else (log (LeaveCalled rm) σ, AwaitLeave i).

(** A handler is the owner's code: its call returns or throws.  [thrown]
    is the position, in the array the [forEach] of line 115 runs over, of
    the first call that throws ([None]: every call returns).  The [forEach]
    ends with that call, so these are the handlers it calls. *)
Definition called (thrown : option nat) (hs : list Handler) : list Handler :=
  match thrown with
  | Some k => take (S k) hs
  | None => hs
  end.

(** Whether the [forEach] throws: a position past the end of the array is
    no call. *)
Definition throws (thrown : option nat) (hs : list Handler) : bool :=
  match thrown with
  | Some k => bool_decide (k < length hs)
  | None => false
  end.

(** Line 115: [forEach] over the array that [reconnectHandlers] holds at
    that moment; each call of a handler is an observation. *)
Definition dispatch (rm : Room) (strat : string) (thrown : option nat)
    (σ : Session) : Session :=
  foldl (λ σ fn, log (HandlerCalled fn rm strat) σ) σ
        (called thrown (reconnectHandlers σ)).

(** Lines 114-118 after [connect(0)] has settled.  Line 115 is inside the
    [try]: what a handler throws is caught at line 116 and logged like a
    rejection of [connect(0)]. *)
Definition resume_reconnect (thrown : option nat) (r : Settled) (σ : Session)
    : Session :=
  match r with
  | Resolved rm strat =>
      let σ' := dispatch rm strat thrown σ in
      if throws thrown (reconnectHandlers σ) then log ErrorLogged σ' else σ'
  | Rejected _ => log ErrorLogged σ
  end.

(** Lines 121-140 after [connect()] has settled. *)
Definition resume_construction (r : Settled) : Built :=
  match r with
  | Resolved rm strat => Returned (MkFallbackRoom rm strat)
  | Rejected error => Threw error
  end.

(** Lines 111-119 up to the first [await]. *)
Definition handleDisconnect (reg : Registry) (m : Machine) : Machine :=
  if negb (active (session m)) then m
  else
    let '(σ, p) := iterate reg 0 (session m) in
    MkMachine σ (built m) (calls m ++ [(Reconnection, p)]).

(** Lines 126-128. *)
Definition onReconnect (handler : Handler) (σ : Session) : Session :=
  MkSession (active σ) (reconnectHandlers σ ++ [handler]) (currentRoom σ)
            (currentModule σ) (watched σ) (trace σ).

(** Lines 129-139.  A throw of [getRelaySockets] at line 133 leaves the
    method before any listener is removed and before line 138. *)
Definition leave (σ : Session) : Session :=
  let detached :=
    match currentModule σ with
    | Some md =>
        match getRelaySockets md with
        | Some m => watched σ ∖ list_to_set (Object_values m)
        | None => watched σ
        end
    | None => watched σ
    end in
  let σ' := MkSession false [] (currentRoom σ) (currentModule σ) detached (trace σ) in
  match currentModule σ, currentRoom σ with
  | Some md, Some rm => if raises md then σ' else log (LeaveCalled rm) σ'
  | None, Some rm => log (LeaveCalled rm) σ'
  | _, None => σ'
  end.

(** What the event loop or the owner of the facade does next.  When the
    promise of [connect] settles the caller goes on: [ConnectSettles] when
    every handler it calls returns, [HandlerThrows c k] when the call of the
    handler at position [k] throws. *)
Inductive Label :=
| LoadSettles (c : nat) (res : option StrategyModule)
| ProbeSettles (c : nat) (rs : Store) (q : list Task)
| LeaveSettles (c : nat)
| ConnectSettles (c : nat)
| HandlerThrows (c : nat) (k : nat)
| SocketCloses (ws : Sock)
| SocketErrors (ws : Sock)
| CallOnReconnect (handler : Handler)
| CallLeave.

Definition suspend (m : Machine) (c : nat) (who : Caller)
    (sp : Session * Point) : Machine :=
  MkMachine sp.1 (built m) (<[c := (who, sp.2)]> (calls m)).

(** One task of the event loop.  [None]: the label cannot happen in [m]
    (the call is not at that [await], the promise is still pending, or the
    facade has not been returned to anybody). *)
Definition step (reg : Registry) (m : Machine) (l : Label) : option Machine :=
  match l with
  | LoadSettles c res =>
      match calls m !! c with
      | Some (who, AwaitLoad i strat) =>
          Some (suspend m c who (resume_load reg i strat res (session m)))
      | _ => None
      end
  | ProbeSettles c rs q =>
      match calls m !! c with
      | Some (who, AwaitProbe i strat md rm) =>
          match waitForRelayOpen (getRelaySockets md) default_timeout rs q with
          | Some (_, ok) =>
              Some (suspend m c who (resume_probe i strat md rm ok (session m)))
          | None => None
          end
      | _ => None
      end
  | LeaveSettles c =>
      match calls m !! c with
      | Some (who, AwaitLeave i) =>
          Some (suspend m c who (iterate reg (S i) (session m)))
      | _ => None
      end
  | ConnectSettles c =>
      match calls m !! c with
      | Some (Construction, AwaitConnect r) =>
          Some (MkMachine (session m) (Some (resume_construction r))
                          (<[c := (Construction, Finished)]> (calls m)))
      | Some (Reconnection, AwaitConnect r) =>
          Some (MkMachine (resume_reconnect None r (session m)) (built m)
                          (<[c := (Reconnection, Finished)]> (calls m)))
      | _ => None
      end
  | HandlerThrows c k =>
      match calls m !! c with
      | Some (Reconnection, AwaitConnect (Resolved rm strat)) =>
          if bool_decide (k < length (reconnectHandlers (session m)))
          then Some (MkMachine (resume_reconnect (Some k) (Resolved rm strat) (session m))
                               (built m)
                               (<[c := (Reconnection, Finished)]> (calls m)))
          else None
      | _ => None
      end
  | SocketCloses ws | SocketErrors ws =>
      if bool_decide (ws ∈ watched (session m))
      then Some (handleDisconnect reg m)
      else Some m
  | CallOnReconnect handler =>
      match built m with
      | Some (Returned _) =>
          Some (MkMachine (onReconnect handler (session m)) (built m) (calls m))
      | _ => None
      end
  | CallLeave =>
      match built m with
      | Some (Returned _) => Some (MkMachine (leave (session m)) (built m) (calls m))
      | _ => None
      end
  end.

Fixpoint run (reg : Registry) (m : Machine) (ls : list Label) : option Machine :=
  match ls with
  | [] => Some m
  | l :: ls =>
      match step reg m l with
      | Some m' => run reg m' ls
      | None => None
      end
  end.

Definition fresh : Session := MkSession true [] None None ∅ [].

(** Lines 75-121 up to the first [await]. *)
Definition joinRoomWithFallback (reg : Registry) : Machine :=
  let '(σ, p) := iterate reg 0 fresh in
  MkMachine σ None [(Construction, p)].

(** The labels by which call [c], started at index [i], runs through the
    environment [env] with nothing else in between. *)
Fixpoint script (env : nat → Attempt) (c : nat) (rest : Registry) (i : nat) : list Label :=
  match rest with
  | [] => []
  | _ :: rest =>
      LoadSettles c (loads (env i)) ::
      match loads (env i) with
      | None => script env c rest (S i)
      | Some md =>
          match joinRoom md with
          | None => script env c rest (S i)
          | Some _ =>
              if raises md then script env c rest (S i)
              else
                ProbeSettles c (ready (env i)) (tasks (env i)) ::
                match waitForRelayOpen (getRelaySockets md) default_timeout
                        (ready (env i)) (tasks (env i)) with
                | Some (_, false) => LeaveSettles c :: script env c rest (S i)
                | _ => []
                end
          end
      end
  end.

(** Reconnection scans under way: calls awaited by [handleDisconnect] whose
    [connect(0)] has not settled yet. *)
Definition scanning (cp : Caller * Point) : bool :=
  match cp with
  | (Reconnection, (AwaitLoad _ _ | AwaitProbe _ _ _ _ | AwaitLeave _)) => true
  | _ => false
  end.

Definition scans_in_flight (m : Machine) : nat :=
  length (filter (λ cp, scanning cp = true) (calls m)).

(** The handlers registered through [onReconnect] and not discarded by
    [leave] since, in registration order. *)
Definition register (hs : list Handler) (l : Label) : list Handler :=
  match l with
  | CallOnReconnect h => hs ++ [h]
  | CallLeave => []
  | _ => hs
  end.

Definition registered (ls : list Label) : list Handler := foldl register [] ls.

(** The sockets of the strategy that is current. *)
Definition current_sockets (σ : Session) : gset Sock :=
  list_to_set (socket_list (currentModule σ ≫= getRelaySockets)).

(** [leave()] has been called. *)
Definition has_left (ls : list Label) : bool :=
  existsb (λ l, match l with CallLeave => true | _ => false end) ls.

(** * Invariants *)

(** The timer is cleared only by a resolution. *)
Definition armed (w : Wait) : Prop := resolved w = None → timer w = true.

(** A run only appends to the trace. *)
Definition logs (tr : list Obs) (σ : Session) : Session :=
  MkSession (active σ) (reconnectHandlers σ) (currentRoom σ) (currentModule σ)
            (watched σ) (trace σ ++ tr).

(** What one iteration of the loop lets observe. *)
Definition iteration_trace (i : nat) (a : Attempt) : list Obs :=
  LoadCalled i ::
  match loads a with
  | None => []
  | Some md =>
      match joinRoom md with
      | None => [JoinThrew i]
      | Some rm =>
          JoinReturned i rm ::
          if raises md then []
          else
            match waitForRelayOpen (getRelaySockets md) default_timeout
                    (ready a) (tasks a) with
            | Some (_, false) => [LeaveCalled rm]
            | _ => []
            end
      end
  end.

(** The flags [active] and [reconnectHandlers] are written by [leave] and
    [onReconnect] only. *)
Definition same_flags (σ σ' : Session) : Prop :=
  active σ' = active σ ∧ reconnectHandlers σ' = reconnectHandlers σ.

(** Only the first call is the construction's, and it has finished once
    the facade exists. *)
Definition well_formed (m : Machine) : Prop :=
  (∀ c p, calls m !! c = Some (Construction, p) → c = 0) ∧
  (is_Some (built m) → ∀ p, calls m !! 0 = Some (Construction, p) → p = Finished).

(** Room [rm] was returned by [joinRoom] of a module loaded for the
    strategy called [strat]. *)
Definition joined_by (reg : Registry) (tr : list Obs) (rm : Room) (strat : string)
    : Prop :=
  ∃ i, reg !! i = Some strat ∧ JoinReturned i rm ∈ tr.

(** What a suspended call holds: the name is the one of its index, the
    module under probe has returned from [getRelaySockets] at line 88 and
    its room comes from its [joinRoom], and a call resolves with a room
    joined through the strategy it names. *)
Definition point_ok (reg : Registry) (tr : list Obs) (p : Point) : Prop :=
  match p with
  | AwaitLoad i strat => reg !! i = Some strat
  | AwaitProbe i strat md rm =>
      raises md = false ∧ joinRoom md = Some rm ∧ reg !! i = Some strat ∧
      JoinReturned i rm ∈ tr
  | AwaitConnect (Resolved rm strat) => joined_by reg tr rm strat
  | _ => True
  end.

(** Where the rooms and modules of a state come from: the current module
    has returned from [getRelaySockets] at line 88, every call is as
    [point_ok] says, and the facade holds a room joined through the
    strategy it names. *)
Definition sound (reg : Registry) (m : Machine) : Prop :=
  (∀ md, currentModule (session m) = Some md → raises md = false) ∧
  (∀ c who p, calls m !! c = Some (who, p) → point_ok reg (trace (session m)) p) ∧
  (∀ fr, built m = Some (Returned fr) →
     joined_by reg (trace (session m)) (room fr) (strategy fr)).

(** No call is suspended anywhere. *)
Definition idle (m : Machine) : Prop :=
  ∀ c who p, calls m !! c = Some (who, p) → p = Finished.

Definition calls_no_handler (tr : list Obs) : Prop :=
  ∀ fn rm strat, HandlerCalled fn rm strat ∉ tr.

(** * Scenarios *)

(** One relay socket, CONNECTING at the call. *)
Definition one_relay : SocketMap := [("wss://relay", 1)].

Definition connecting : Store := λ _, CONNECTING.

(** The registry of the source, with a first strategy that fails to load, a
    second that joins but whose only socket never opens, and a third whose
    socket is OPEN at the probe. *)
Definition scenario (i : nat) : Attempt :=
  match i with
  | 0 => MkAttempt None connecting []
  | 1 => MkAttempt (Some (MkModule (Some 11) (Gives [("wss://b", 1)])))
                   connecting [TimerTask]
  | _ => MkAttempt (Some (MkModule (Some 12) (Gives [("wss://c", 2)])))
                   (<[2 := OPEN]> connecting) []
  end.

(** No candidate of [hopeless] can be used: two fail to load, one throws
    in [joinRoom], one never opens its socket. *)
Definition hopeless (i : nat) : Attempt :=
  match i with
  | 1 => MkAttempt (Some (MkModule None NoGetter)) connecting []
  | 2 => MkAttempt (Some (MkModule (Some 21) (Gives [("wss://m", 3)])))
                   connecting [SocketTask 4000 (Becomes 3 CLOSED); TimerTask]
  | _ => MkAttempt None connecting []
  end.

(** A session over two strategies: "nostr" is healthy at construction;
    later its relay closes, a new room joined through it never sees the
    relay open again, and "torrent" takes over. *)
Definition two : Registry := ["nostr"; "torrent"].

Definition nostr_module : StrategyModule :=
  MkModule (Some 1) (Gives [("wss://nostr", 10)]).

Definition torrent_module : StrategyModule :=
  MkModule (Some 2) (Gives [("wss://tracker", 20)]).

(** "nostr" loaded again while its relay is down: a new room, the old
    socket. *)
Definition nostr_down : StrategyModule :=
  MkModule (Some 3) (Gives [("wss://nostr", 10)]).

(** "nostr" loaded again with its relay back: a new room on a new socket. *)
Definition nostr_again : StrategyModule :=
  MkModule (Some 4) (Gives [("wss://nostr", 11)]).

Definition boot : list Label :=
  [LoadSettles 0 (Some nostr_module);
   ProbeSettles 0 (<[10 := OPEN]> connecting) [];
   ConnectSettles 0].

Definition swap : list Label :=
  [SocketCloses 10;
   LoadSettles 1 (Some nostr_down);
   ProbeSettles 1 (<[10 := CLOSED]> connecting) [TimerTask];
   LeaveSettles 1;
   LoadSettles 1 (Some torrent_module);
   ProbeSettles 1 (<[20 := OPEN]> connecting) []].

(** The swap completes; then the tracker closes and "nostr" loads again. *)
Definition again : list Label :=
  [ConnectSettles 1; SocketCloses 20; LoadSettles 2 (Some nostr_again)].

(** The relay closes and a reconnection starts; the owner calls [leave()]
    and then [onReconnect(9)]; the reconnection goes on and succeeds. *)
Definition late : list Label :=
  [SocketCloses 10;
   CallLeave;
   CallOnReconnect 9;
   LoadSettles 1 (Some nostr_again);
   ProbeSettles 1 (<[11 := OPEN]> connecting) [];
   ConnectSettles 1].

(** The machine after [ls], from the call of [joinRoomWithFallback]. *)
Definition after (reg : Registry) (ls : list Label) : Machine :=
  default (joinRoomWithFallback reg) (run reg (joinRoomWithFallback reg) ls).

(** * Further vocabulary *)

(** The closure of a call of [waitForRelayOpen] over [list] after the tasks
    of [queue]. *)
Definition closure_after (timeout : Z) (socks : list Sock) (rs : Store)
    (queue : list Task) : Wait :=
  (foldl (deliver timeout socks) (rs, executor rs socks) queue).2.

(** The rooms [joinRoom] returned and those [leave] was called on, in
    order. *)
Definition rooms_joined (tr : list Obs) : list Room :=
  omap (λ o, match o with JoinReturned _ rm => Some rm | _ => None end) tr.

Definition rooms_left (tr : list Obs) : list Room :=
  omap (λ o, match o with LeaveCalled rm => Some rm | _ => None end) tr.

(** Whether line 88 gets as far as the probe at index [i]: the module
    loaded there does not throw in [getRelaySockets]. *)
Definition probed (env : nat → Attempt) (i : nat) : bool :=
  match loads (env i) with
  | Some md => negb (raises md)
  | None => true
  end.

(** The rooms joined at the indices that satisfy [keep], in order. *)
Definition rooms_joined_at (keep : nat → bool) (tr : list Obs) : list Room :=
  omap (λ o, match o with
             | JoinReturned i rm => if keep i then Some rm else None
             | _ => None
             end) tr.

(** A room and a module are current once a call has resolved or the facade
    has been returned. *)
Definition adopted (m : Machine) : Prop :=
  is_Some (currentRoom (session m)) ∧ is_Some (currentModule (session m)).

Definition nothing_resolved (m : Machine) : Prop :=
  (∀ fr, built m ≠ Some (Returned fr)) ∧
  ∀ c who rm strat, calls m !! c ≠ Some (who, AwaitConnect (Resolved rm strat)).

(** * The callers

    [useTrysteroRoom] (lines 143-175 of the connection manager) and the
    effect of [App] (lines 13-43 of App.tsx) each own one facade.  What
    they do to the outside is logged: calls of [setRoom], of [makeAction]
    on a room, of [onReconnect] and [leave] on the facade, and of
    [console.error]. *)
Inductive EffectObs :=
| SetRoom (rm : Room)
| Bound (rm : Room)
| Registered
| Left
| Failed.

#[global] Instance EffectObs_eq_dec : EqDecision EffectObs.
Proof. solve_decision. Defined.

(** The variables of the effect: [manager] ([None]: not assigned),
    [cancelled], whether the asynchronous part is still suspended at the
    promise of [joinRoomWithFallback], and the log.  [App] has no variable
    [cancelled]; there the field only records that React has run the
    cleanup, which it does once. *)
Record Effect := MkEffect {
  machine : Machine;
  cancelled : bool;
  manager : option FallbackRoom;
  suspended : bool;
  effectLog : list EffectObs
}.

(** The event loop runs a task of the session, or resumes the effect after
    [joinRoomWithFallback] has settled, or React runs the cleanup. *)
Inductive EffectLabel := Loop (l : Label) | Settle | Cleanup.

(** The tasks of the event loop, as opposed to the two methods of the
    facade, which only the owner of the facade calls. *)
Definition env_label (l : Label) : bool :=
  match l with
  | CallOnReconnect _ | CallLeave => false
  | _ => true
  end.

(** The one handler the effect registers. *)
Definition the_handler : Handler := 0.

(** The rooms with which a task of the session calls that handler
    (line 115). *)
Definition handler_calls (m : Machine) (l : Label) : list Room :=
  let to_the_handler (thrown : option nat) (c : nat) :=
    match calls m !! c with
    | Some (Reconnection, AwaitConnect (Resolved rm _)) =>
        omap (λ fn, if decide (fn = the_handler) then Some rm else None)
             (called thrown (reconnectHandlers (session m)))
    | _ => []
    end in
  match l with
  | ConnectSettles c => to_the_handler None c
  | HandlerThrows c k => to_the_handler (Some k) c
  | _ => []
  end.

(** The same read off the trace. *)
Definition handler_rooms (tr : list Obs) : list Room :=
  omap (λ o, match o with
             | HandlerCalled fn rm _ => if decide (fn = the_handler) then Some rm else None
             | _ => None
             end) tr.

(** [manager?.leave()] of the cleanup (lines 167-170; App.tsx lines 40-42). *)
Definition cleanup_effect (reg : Registry) (h : Effect) : option Effect :=
  if cancelled h then None
  else
    match manager h with
    | Some _ =>
        m' ← step reg (machine h) CallLeave;
        Some (MkEffect m' true (manager h) (suspended h) (effectLog h ++ [Left]))
    | None => Some (MkEffect (machine h) true None (suspended h) (effectLog h))
    end.

(** The effect of [useTrysteroRoom], lines 149-172; its handler is
    [(r) => setRoom(r)], which returns. *)
Definition useTrysteroRoom_step (reg : Registry) (h : Effect) (l : EffectLabel)
    : option Effect :=
  match l with
  | Loop (CallOnReconnect _) | Loop CallLeave | Loop (HandlerThrows _ _) => None
  | Loop l =>
      m' ← step reg (machine h) l;
      Some (MkEffect m' (cancelled h) (manager h) (suspended h)
              (effectLog h ++ map SetRoom (handler_calls (machine h) l)))
  | Settle =>
      if suspended h then
        match built (machine h) with
        | Some (Returned fr) =>
            if cancelled h then
              m' ← step reg (machine h) CallLeave;
              Some (MkEffect m' true (Some fr) false (effectLog h ++ [Left]))
            else
              m' ← step reg (machine h) (CallOnReconnect the_handler);
              Some (MkEffect m' false (Some fr) false
                      (effectLog h ++ [SetRoom (room fr); Registered]))
        | Some (Threw _) =>
            Some (MkEffect (machine h) (cancelled h) None false (effectLog h ++ [Failed]))
        | None => None
        end
      else None
  | Cleanup => cleanup_effect reg h
  end.

(** The effect of [App], App.tsx lines 13-43; the callback of [then] runs
    only when the promise is fulfilled, and nothing asks whether the
    cleanup has run; its handler binds the chat action on the new room,
    first of all by [r.makeAction('chat')], and may throw there or later. *)
Definition App_step (reg : Registry) (h : Effect) (l : EffectLabel) : option Effect :=
  match l with
  | Loop (CallOnReconnect _) | Loop CallLeave => None
  | Loop l =>
      m' ← step reg (machine h) l;
      Some (MkEffect m' (cancelled h) (manager h) (suspended h)
              (effectLog h ++ map Bound (handler_calls (machine h) l)))
  | Settle =>
      if suspended h then
        match built (machine h) with
        | Some (Returned fr) =>
            m' ← step reg (machine h) (CallOnReconnect the_handler);
            Some (MkEffect m' (cancelled h) (Some fr) false
                    (effectLog h ++ [SetRoom (room fr); Bound (room fr); Registered]))
        | _ => None
        end
      else None
  | Cleanup => cleanup_effect reg h
  end.

Fixpoint effect_run (stp : Effect → EffectLabel → option Effect) (h : Effect)
    (ls : list EffectLabel) : option Effect :=
  match ls with
  | [] => Some h
  | l :: ls =>
      match stp h l with
      | Some h' => effect_run stp h' ls
      | None => None
      end
  end.

(** The effect starts by calling [joinRoomWithFallback]. *)
Definition mount (reg : Registry) : Effect :=
  MkEffect (joinRoomWithFallback reg) false None true [].

(** The value of the state [room] that [useTrysteroRoom] returns: what
    [setRoom] was last called with, [null] before. *)
Definition set_rooms (log : list EffectObs) : list Room :=
  omap (λ o, match o with SetRoom rm => Some rm | _ => None end) log.


Definition times_left (log : list EffectObs) : nat :=
  length (filter (λ o, o = Left) log).

(** What holds of the effect of [useTrysteroRoom] in every state. *)
Definition hook_inv (h : Effect) : Prop :=
  well_formed (machine h) ∧
  match manager h with
  | None =>
      reconnectHandlers (session (machine h)) = [] ∧
      (if suspended h then effectLog h = []
       else effectLog h = [Failed])
  | Some fr =>
      built (machine h) = Some (Returned fr) ∧ suspended h = false ∧
      if cancelled h
      then reconnectHandlers (session (machine h)) = [] ∧
           (effectLog h = [Left] ∨
            ∃ rooms, effectLog h
                     = SetRoom (room fr) :: Registered :: map SetRoom rooms ++ [Left])
      else reconnectHandlers (session (machine h)) = [the_handler] ∧
           ∃ rooms, effectLog h = SetRoom (room fr) :: Registered :: map SetRoom rooms
  end.

(** The effect after [ls], from its start. *)
Definition effect_after (stp : Effect → EffectLabel → option Effect)
    (reg : Registry) (ls : list EffectLabel) : Effect :=
  default (mount reg) (effect_run stp (mount reg) ls).

(** The construction of the session [boot], step by step. *)
Definition load0 : EffectLabel := Loop (LoadSettles 0 (Some nostr_module)).
Definition probe0 : EffectLabel := Loop (ProbeSettles 0 (<[10 := OPEN]> connecting) []).
Definition built0 : EffectLabel := Loop (ConnectSettles 0).

(** What holds of the effect of [App] when the cleanup has run before the
    callback of [then]. *)
Definition unmounted_early (h : Effect) : Prop :=
  cancelled h = true ∧ (Left ∉ effectLog h) ∧
  active (session (machine h)) = true ∧
  if suspended h
  then manager h = None ∧ reconnectHandlers (session (machine h)) = []
  else is_Some (manager h) ∧ reconnectHandlers (session (machine h)) = [the_handler].

(** "nostr" joins a room and throws in [getRelaySockets]; "torrent" is
    healthy. *)
Definition nostr_broken : StrategyModule := MkModule (Some 5) Raises.

Definition getter_broken (i : nat) : Attempt :=
  match i with
  | 0 => MkAttempt (Some nostr_broken) connecting []
  | _ => MkAttempt (Some torrent_module) (<[20 := OPEN]> connecting) []
  end.

(** The relay of "nostr" is down and the tracker of "torrent" is up. *)
Definition relay_down (i : nat) : Attempt :=
  match i with
  | 0 => MkAttempt (Some nostr_down) (<[10 := CLOSED]> connecting) [TimerTask]
  | _ => MkAttempt (Some torrent_module) (<[20 := OPEN]> connecting) []
  end.

(** An observation that is a call of [leave()] on a room. *)
Definition is_leave (o : Obs) : Prop := ∃ rm, o = LeaveCalled rm.

(** ** Presence (LiveChat, lines 306-315 of its file)

    The updaters that [onPeerJoin] and [onPeerLeave] hand to [setPeers]. *)
Definition peerJoined (peerId : string) (prev : list string) : list string :=
  if bool_decide (peerId ∈ prev) then prev else prev ++ [peerId].

Definition peerLeft (peerId : string) (prev : list string) : list string :=
  filter (λ id, id ≠ peerId) prev.

Inductive PeerEvent := Joins (peerId : string) | Leaves (peerId : string).

Definition presence (prev : list string) (e : PeerEvent) : list string :=
  match e with
  | Joins peerId => peerJoined peerId prev
  | Leaves peerId => peerLeft peerId prev
  end.

(** Whether the last event about [peerId] is a join ([None]: no event). *)
Definition last_seen (peerId : string) (evs : list PeerEvent) : option bool :=
  foldl (λ acc e, match e with
                  | Joins p => if bool_decide (p = peerId) then Some true else acc
                  | Leaves p => if bool_decide (p = peerId) then Some false else acc
                  end) None evs.

(** * Facts about the probe *)

Section WaitFacts.
Context (timeout : Z) (list : list Sock).

Lemma some_open_true rs : some_open rs list = true ↔ ∃ ws, ws ∈ list ∧ rs ws = OPEN.
Proof.
  unfold some_open. rewrite existsb_exists. split.
  - intros (ws & Hin & Hd). exists ws. rewrite list_elem_of_In.
    apply bool_decide_eq_true in Hd. done.
  - intros (ws & Hin & Hd). exists ws. rewrite <- list_elem_of_In.
    split; [done|]. by apply bool_decide_eq_true.
Qed.

Lemma some_open_false rs : some_open rs list = false ↔ ∀ ws, ws ∈ list → rs ws ≠ OPEN.
Proof.
  rewrite <- not_true_iff_false, some_open_true. naive_solver.
Qed.

(** Nothing is OPEN at the call: every socket gets the listener. *)
Lemma subscribe_all rs l acc :
  (∀ ws, ws ∈ l → rs ws ≠ OPEN) →
  foldl (subscribe rs list) (MkWait None true acc) l
  = MkWait None true (list_to_set l ∪ acc).
Proof.
  revert acc. induction l as [|ws l IH]; intros acc Hno; simpl.
  - f_equal. set_solver.
  - unfold subscribe at 2. rewrite bool_decide_eq_false_2 by (apply Hno; set_solver).
    simpl. rewrite IH by (intros; apply Hno; set_solver). f_equal. set_solver.
Qed.

Lemma executor_pending rs :
  some_open rs list = false →
  executor rs list = MkWait None true (list_to_set list).
Proof.
  intros Hno. unfold executor. rewrite subscribe_all.
  - f_equal. set_solver.
  - by apply some_open_false.
Qed.

(** Once [resolve] has run, nothing overwrites its value. *)
Lemma onOpen_sticky now rs w v : resolved w = Some v → resolved (onOpen now rs list w) = Some v.
Proof. intros H. unfold onOpen. by rewrite H. Qed.

Lemma deliver_sticky st t v :
  resolved st.2 = Some v → resolved (deliver timeout list st t).2 = Some v.
Proof.
  destruct st as [rs w]. simpl. intros H. destruct t as [now [ws|ws r]|]; simpl.
  - case_bool_decide; simpl; [|done]. unfold onOpen. simpl. by rewrite H.
  - done.
  - unfold onTimeout. destruct (timer w); [|done]. by rewrite H.
Qed.

Lemma run_sticky q st v :
  resolved st.2 = Some v → resolved (foldl (deliver timeout list) st q).2 = Some v.
Proof.
  revert st. induction q as [|t q IH]; intros st H; simpl; [done|].
  apply IH. by apply deliver_sticky.
Qed.

Lemma subscribe_sticky rs l w v :
  resolved w = Some v → resolved (foldl (subscribe rs list) w l) = Some v.
Proof.
  revert w. induction l as [|ws l IH]; intros w H; simpl; [done|].
  apply IH. unfold subscribe. case_bool_decide; simpl; [|done].
  by apply onOpen_sticky.
Qed.

(** The store evolves independently of the closure. *)
Lemma run_store q st :
  (foldl (deliver timeout list) st q).1 = foldl apply_store st.1 q.
Proof.
  revert st. induction q as [|t q IH]; intros st; simpl; [done|].
  rewrite IH. f_equal. destruct st as [rs w].
  destruct t as [now [ws|ws r]|]; simpl; [case_bool_decide|..]; done.
Qed.

(** Silent tasks leave a pending wait pending, with all its listeners. *)
Lemma run_silent pre rs :
  Forall (λ t, silent list t = true) pre →
  foldl (deliver timeout list) (rs, MkWait None true (list_to_set list)) pre
  = (foldl apply_store rs pre, MkWait None true (list_to_set list)).
Proof.
  revert rs. induction pre as [|t pre IH]; intros rs Hq; simpl; [done|].
  inversion Hq as [|?? Ht Hpre]; subst.
  destruct t as [now [ws|ws r]|]; simpl in *; try discriminate.
  - apply bool_decide_eq_true in Ht.
    rewrite bool_decide_eq_false_2 by set_solver. by apply IH.
  - by apply IH.
Qed.
End WaitFacts.

Lemma timer_fired_later timeout pre now e post :
  timer_in_order timeout true (pre ++ SocketTask now e :: post) = true →
  (timeout ≤ now)%Z.
Proof.
  induction pre as [|t pre IH]; simpl.
  - intros H. apply andb_true_iff in H as [H _]. lia.
  - destruct t; simpl; [|done].
    intros H. apply andb_true_iff in H as [_ H]. by apply IH.
Qed.

Lemma timer_not_before timeout pre now e post :
  timer_in_order timeout false (pre ++ SocketTask now e :: post) = true →
  (now < timeout)%Z →
  TimerTask ∉ pre.
Proof.
  induction pre as [|t pre IH]; simpl; intros H Hlt.
  - set_solver.
  - destruct t as [now' e'|]; simpl in H.
    + apply andb_true_iff in H as [_ H]. specialize (IH H Hlt).
      set_solver.
    + apply timer_fired_later in H. lia.
Qed.

Lemma silent_split list pre :
  Forall (λ t, opens_none list t = true) pre →
  TimerTask ∉ pre →
  Forall (λ t, silent list t = true) pre.
Proof.
  intros Hno Ht. apply Forall_forall. intros t Hin.
  rewrite Forall_forall in Hno. specialize (Hno t Hin).
  destruct t as [now [ws|ws r]|]; simpl in *; try done.
Qed.

(** Over a non-empty list the promise is the executor's. *)
Lemma wait_unfold m timeout rs queue :
  Object_values m ≠ [] →
  waitForRelayOpen (Some m) timeout rs queue
  = resolved (foldl (deliver timeout (Object_values m))
                    (rs, executor rs (Object_values m)) queue).2.
Proof.
  intros Hne. unfold waitForRelayOpen, socket_list.
  rewrite bool_decide_eq_false_2; [done|].
  destruct (Object_values m); [done|]. simpl. lia.
Qed.

Lemma wait_already_open m timeout rs queue :
  some_open rs (Object_values m) = true →
  waitForRelayOpen (Some m) timeout rs queue = Some (0%Z, true).
Proof.
  intros Hopen.
  assert (Hne : Object_values m ≠ []) by (intros E; rewrite E in Hopen; done).
  rewrite wait_unfold by done. apply run_sticky. simpl.
  unfold executor.
  assert (Hgen : ∀ l w, resolved w = None ∨ resolved w = Some (0%Z, true) →
            (∃ ws, ws ∈ l ∧ rs ws = OPEN) →
            resolved (foldl (subscribe rs (Object_values m)) w l) = Some (0%Z, true)).
  { induction l as [|ws l IH]; intros w Hw (ws' & Hin & Hws').
    - set_solver.
    - simpl. destruct (decide (rs ws = OPEN)) as [Hd|Hd].
      + apply subscribe_sticky. unfold subscribe.
        rewrite bool_decide_eq_true_2 by done. unfold onOpen.
        destruct Hw as [Hw|Hw]; rewrite Hw; [|done]. by rewrite Hopen.
      + apply IH.
        * unfold subscribe. rewrite bool_decide_eq_false_2 by done. done.
        * exists ws'. split; [|done]. set_solver. }
  apply Hgen; [by left|]. by apply some_open_true.
Qed.

Lemma wait_first_open m timeout rs pre now ws post :
  ws ∈ Object_values m →
  some_open rs (Object_values m) = false →
  Forall (λ t, silent (Object_values m) t = true) pre →
  waitForRelayOpen (Some m) timeout rs (pre ++ SocketTask now (Opens ws) :: post)
  = Some (now, true).
Proof.
  intros Hin Hno Hpre.
  assert (Hne : Object_values m ≠ []) by (intros E; rewrite E in Hin; set_solver).
  rewrite wait_unfold by done. rewrite executor_pending by done.
  rewrite foldl_app, (run_silent _ _ _ _ Hpre). simpl.
  apply run_sticky. simpl.
  rewrite bool_decide_eq_true_2 by set_solver. simpl.
  unfold onOpen. simpl.
  replace (some_open _ _) with true; [done|].
  symmetry. apply some_open_true. exists ws. split; [done|].
  apply fn_lookup_insert.
Qed.

Lemma wait_timeout m timeout rs pre post :
  Object_values m ≠ [] →
  some_open rs (Object_values m) = false →
  Forall (λ t, silent (Object_values m) t = true) pre →
  waitForRelayOpen (Some m) timeout rs (pre ++ TimerTask :: post)
  = Some (timeout, some_open (foldl apply_store rs pre) (Object_values m)).
Proof.
  intros Hne Hno Hpre.
  rewrite wait_unfold by done. rewrite executor_pending by done.
  rewrite foldl_app, (run_silent _ _ _ _ Hpre). simpl.
  apply run_sticky. done.
Qed.

Lemma onOpen_armed now rs list w : armed w → armed (onOpen now rs list w).
Proof.
  unfold armed, onOpen. intros Hw.
  destruct (resolved w) eqn:Er; [congruence|].
  destruct (some_open rs list); simpl; [done|]. intros _. by apply Hw.
Qed.

Lemma executor_armed rs list : armed (executor rs list).
Proof.
  unfold executor.
  assert (Hgen : ∀ l w, armed w → armed (foldl (subscribe rs list) w l)).
  { induction l as [|ws l IH]; intros w Hw; simpl; [done|].
    apply IH. unfold subscribe. case_bool_decide; [by apply onOpen_armed|done]. }
  apply Hgen. done.
Qed.

Lemma deliver_armed timeout list st t :
  armed st.2 → armed (deliver timeout list st t).2.
Proof.
  destruct st as [rs w]. simpl. intros Hw.
  destruct t as [now [ws|ws r]|]; simpl; [| done |].
  - case_bool_decide; simpl; [|done]. by apply onOpen_armed.
  - unfold onTimeout, armed in *. destruct (timer w) eqn:Et; [|by rewrite Et].
    destruct (resolved w) eqn:Er; simpl; [congruence|done].
Qed.

Lemma run_armed timeout list q st :
  armed st.2 → armed (foldl (deliver timeout list) st q).2.
Proof.
  revert st. induction q as [|t q IH]; intros st Hst; simpl; [done|].
  apply IH. by apply deliver_armed.
Qed.

(** Whatever else happens, the timer settles the promise. *)
Lemma wait_settles sockets timeout rs queue :
  TimerTask ∈ queue → is_Some (waitForRelayOpen sockets timeout rs queue).
Proof.
  intros Hin. unfold waitForRelayOpen. case_bool_decide; [by eexists|].
  apply list_elem_of_split in Hin as (pre & post & ->).
  rewrite foldl_app. simpl.
  set (list := socket_list sockets).
  pose proof (run_armed timeout list pre (rs, executor rs list)
                (executor_armed rs list)) as Harmed.
  destruct (foldl _ _ pre) as [rs' w]. simpl in *.
  assert (Hsome : is_Some (resolved (onTimeout timeout rs' list w))).
  { unfold onTimeout, armed in *. destruct (timer w) eqn:Et.
    - destruct (resolved w); simpl; by eexists.
    - destruct (resolved w); [by eexists|]. by specialize (Harmed eq_refl). }
  destruct Hsome as [v Hv]. exists v. by apply run_sticky.
Qed.

Lemma wait_no_sockets sockets timeout rs queue :
  socket_list sockets = [] →
  waitForRelayOpen sockets timeout rs queue = Some (0%Z, true).
Proof. intros E. unfold waitForRelayOpen. by rewrite E. Qed.

(** C3.  [waitForRelayOpen] resolves true at once, whatever the queue, when
    the socket map is absent or empty; over a non-empty map it resolves true
    at once when a socket is OPEN at the call, and otherwise at the time [T]
    of the first "open" event on one of its sockets when [T] is before the
    timeout; when the timer task runs first it resolves, at [timeout], to
    whether some socket reads OPEN in the store of that moment. *)
Theorem waitForRelayOpen_resolution :
  (∀ sockets timeout rs queue,
     socket_list sockets = [] →
     waitForRelayOpen sockets timeout rs queue = Some (0%Z, true)) ∧
  (∀ m timeout rs queue,
     some_open rs (Object_values m) = true →
     waitForRelayOpen (Some m) timeout rs queue = Some (0%Z, true)) ∧
  (∀ m timeout rs pre T ws post,
     ws ∈ Object_values m →
     some_open rs (Object_values m) = false →
     Forall (λ t, opens_none (Object_values m) t = true) pre →
     timer_in_order timeout false (pre ++ SocketTask T (Opens ws) :: post) = true →
     (T < timeout)%Z →
     waitForRelayOpen (Some m) timeout rs (pre ++ SocketTask T (Opens ws) :: post)
     = Some (T, true)) ∧
  (∀ m timeout rs pre post,
     Object_values m ≠ [] →
     some_open rs (Object_values m) = false →
     Forall (λ t, silent (Object_values m) t = true) pre →
     waitForRelayOpen (Some m) timeout rs (pre ++ TimerTask :: post)
     = Some (timeout, some_open (foldl apply_store rs pre) (Object_values m))).
Proof.
  split; [exact wait_no_sockets|].
  split; [exact wait_already_open|].
  split; [|exact wait_timeout].
  intros m timeout rs pre T ws post Hin Hno Hpre Hord Hlt.
  apply wait_first_open; [done..|].
  apply silent_split; [done|]. by eapply timer_not_before.
Qed.

Lemma waitForRelayOpen_resolution_witness :
  waitForRelayOpen None 5000 connecting [TimerTask] = Some (0%Z, true) ∧
  waitForRelayOpen (Some one_relay) 5000 (<[1 := OPEN]> connecting) [] = Some (0%Z, true) ∧
  waitForRelayOpen (Some one_relay) 5000 connecting
    [SocketTask 700 (Becomes 2 CLOSED); SocketTask 1200 (Opens 1); TimerTask]
  = Some (1200%Z, true) ∧
  waitForRelayOpen (Some one_relay) 5000 connecting
    [SocketTask 5000 (Becomes 1 OPEN); TimerTask; SocketTask 5000 (Opens 1)]
  = Some (5000%Z, true) ∧
  waitForRelayOpen (Some one_relay) 5000 connecting
    [SocketTask 100 (Opens 2); TimerTask; SocketTask 5001 (Opens 1)]
  = Some (5000%Z, false).
Proof.
  destruct waitForRelayOpen_resolution as (Hnone & Hopen & Hfirst & Htimer).
  split; [by apply Hnone|].
  split; [by apply Hopen|].
  split.
  { apply (Hfirst one_relay 5000%Z connecting [SocketTask 700 (Becomes 2 CLOSED)]
             1200%Z 1 [TimerTask]).
    - unfold one_relay, Object_values. simpl. set_solver.
    - reflexivity.
    - repeat constructor.
    - reflexivity.
    - lia. }
  split.
  { apply (Htimer one_relay 5000%Z connecting [SocketTask 5000 (Becomes 1 OPEN)]
             [SocketTask 5000 (Opens 1)]).
    - discriminate.
    - reflexivity.
    - repeat constructor. }
  { apply (Htimer one_relay 5000%Z connecting [SocketTask 100 (Opens 2)]
             [SocketTask 5001 (Opens 1)]).
    - discriminate.
    - reflexivity.
    - repeat constructor. }
Defined.

(** * Facts about connect *)

Lemma log_logs o σ : log o σ = logs [o] σ.
Proof. done. Qed.

Lemma logs_logs t1 t2 σ : logs t2 (logs t1 σ) = logs (t1 ++ t2) σ.
Proof. unfold logs. simpl. by rewrite app_assoc. Qed.

Lemma loaded_app t1 t2 : loaded (t1 ++ t2) = loaded t1 ++ loaded t2.
Proof. apply omap_app. Qed.

Lemma joined_app t1 t2 : joined (t1 ++ t2) = joined t1 ++ joined t2.
Proof. apply omap_app. Qed.

Section ConnectFacts.
Context (env : nat → Attempt).

Lemma connect_loop_fails s rest i σ :
  fails (env i) →
  connect_loop env (s :: rest) i σ
  = connect_loop env rest (S i) (logs (iteration_trace i (env i)) σ).
Proof.
  unfold iteration_trace.
  intros [H | [(md & H1 & H2) | [(rm & md & t & H1 & H2 & Hr & H3)
                                 | (md & rm & H1 & H2 & Hr)]]]; simpl.
  - unfold load_rejects in H. by rewrite H.
  - rewrite H1, H2. by rewrite !log_logs, logs_logs.
  - rewrite H1, H2, Hr, H3. by rewrite !log_logs, !logs_logs.
  - rewrite H1, H2, Hr. by rewrite !log_logs, !logs_logs.
Qed.

Lemma iteration_loaded i a : loaded (iteration_trace i a) = [i].
Proof.
  unfold iteration_trace, loaded. simpl.
  destruct (loads a) as [md|]; [|done].
  destruct (joinRoom md) as [rm|]; [|done]. simpl.
  destruct (raises md); [done|].
  by destruct (waitForRelayOpen _ _ _ _) as [[? []]|].
Qed.

Lemma iteration_joined i a : Forall (λ j, j = i) (joined (iteration_trace i a)).
Proof.
  unfold iteration_trace, joined. simpl.
  destruct (loads a) as [md|]; [|done].
  destruct (joinRoom md) as [rm|]; [|by repeat constructor]. simpl.
  destruct (raises md); [by repeat constructor|].
  destruct (waitForRelayOpen _ _ _ _) as [[? []]|]; by repeat constructor.
Qed.

(** Whatever the environment, a scan only adds observations, all of them
    about candidates from its start index on. *)
Lemma connect_loop_extends rest i σ :
  ∃ tr, trace (connect_loop env rest i σ).1 = trace σ ++ tr ∧
        Forall (λ j, i ≤ j) (loaded tr) ∧ Forall (λ j, i ≤ j) (joined tr).
Proof.
  revert i σ. induction rest as [|s rest IH]; intros i σ.
  - exists []. simpl. by rewrite app_nil_r.
  - simpl.
    assert (Hnext : ∀ tr0 σ', trace σ' = trace σ ++ tr0 →
              Forall (λ j, i ≤ j) (loaded tr0) → Forall (λ j, i ≤ j) (joined tr0) →
              ∃ tr, trace (connect_loop env rest (S i) σ').1 = trace σ ++ tr ∧
                    Forall (λ j, i ≤ j) (loaded tr) ∧ Forall (λ j, i ≤ j) (joined tr)).
    { intros tr0 σ' Htr Hl Hj. destruct (IH (S i) σ') as (tr & E & Hl' & Hj').
      exists (tr0 ++ tr). rewrite E, Htr, app_assoc. split; [done|].
      rewrite loaded_app, joined_app, !Forall_app.
      split; (split; [done|]); eapply Forall_impl; eauto; simpl; lia. }
    destruct (loads (env i)) as [md|].
    2:{ apply (Hnext [LoadCalled i]); by repeat constructor. }
    destruct (joinRoom md) as [rm|].
    2:{ apply (Hnext [LoadCalled i; JoinThrew i]); simpl;
        [by rewrite <- app_assoc|by repeat constructor..]. }
    destruct (raises md).
    { apply (Hnext [LoadCalled i; JoinReturned i rm]); simpl;
        [by rewrite <- app_assoc|by repeat constructor..]. }
    destruct (waitForRelayOpen _ _ _ _) as [[t []]|].
    + exists [LoadCalled i; JoinReturned i rm]. simpl.
      rewrite <- app_assoc. by repeat constructor.
    + apply (Hnext [LoadCalled i; JoinReturned i rm; LeaveCalled rm]); simpl;
        [by rewrite <- !app_assoc|by repeat constructor..].
    + exists [LoadCalled i; JoinReturned i rm]. simpl.
      rewrite <- app_assoc. by repeat constructor.
Qed.

(** The loads of a scan are consecutive indices from its start index. *)
Lemma connect_loop_order rest : ∀ i σ,
  ∃ tr n, trace (connect_loop env rest i σ).1 = trace σ ++ tr ∧
          loaded tr = seq i n ∧ n ≤ length rest.
Proof.
  induction rest as [|s rest IH]; intros i σ.
  - exists [], 0. simpl. by rewrite app_nil_r.
  - simpl.
    assert (Hnext : ∀ tr0 σ', trace σ' = trace σ ++ tr0 → loaded tr0 = [i] →
              ∃ tr n, trace (connect_loop env rest (S i) σ').1 = trace σ ++ tr ∧
                      loaded tr = seq i n ∧ n ≤ S (length rest)).
    { intros tr0 σ' Htr Hl. destruct (IH (S i) σ') as (tr & n & E & Hl' & Hn).
      exists (tr0 ++ tr), (S n). rewrite E, Htr, app_assoc. split; [done|].
      rewrite loaded_app, Hl, Hl'. split; [done|lia]. }
    assert (Hstop : ∀ rm, ∃ tr n,
              trace (log (JoinReturned i rm) (log (LoadCalled i) σ)) = trace σ ++ tr ∧
              loaded tr = seq i n ∧ n ≤ S (length rest)).
    { intros rm. exists [LoadCalled i; JoinReturned i rm], 1. simpl.
      rewrite <- app_assoc. split; [done|]. split; [done|lia]. }
    destruct (loads (env i)) as [md|].
    2:{ by apply (Hnext [LoadCalled i]). }
    destruct (joinRoom md) as [rm|].
    2:{ apply (Hnext [LoadCalled i; JoinThrew i]); simpl; [|done].
        by rewrite <- app_assoc. }
    destruct (raises md).
    { apply (Hnext [LoadCalled i; JoinReturned i rm]); simpl; [|done].
      by rewrite <- app_assoc. }
    destruct (waitForRelayOpen _ _ _ _) as [[t []]|].
    + apply Hstop.
    + apply (Hnext [LoadCalled i; JoinReturned i rm; LeaveCalled rm]); simpl; [|done].
      by rewrite <- !app_assoc.
    + apply Hstop.
Qed.

Lemma connect_loop_first_success rest : ∀ i σ n strat rm,
  rest !! n = Some strat →
  (∀ j, j < n → fails (env (i + j))) →
  succeeds (env (i + n)) rm →
  ∃ tr, (connect_loop env rest i σ).2 = Some (Resolved rm strat) ∧
        trace (connect_loop env rest i σ).1 = trace σ ++ tr ∧
        loaded tr = seq i (S n) ∧
        Forall (λ j, i ≤ j ≤ i + n) (joined tr) ∧
        currentRoom (connect_loop env rest i σ).1 = Some rm.
Proof.
  induction rest as [|s rest IH]; intros i σ n strat rm Hn Hfail Hok; [done|].
  destruct n as [|n].
  - simpl in Hn. injection Hn as ->. rewrite Nat.add_0_r in Hok.
    destruct Hok as (md & t & H1 & H2 & Hr & H3). simpl. rewrite H1, H2, Hr, H3. simpl.
    exists [LoadCalled i; JoinReturned i rm].
    split; [done|]. split; [by rewrite <- app_assoc|]. split; [done|].
    split; [|done]. repeat constructor; lia.
  - rewrite connect_loop_fails
      by (specialize (Hfail 0); rewrite Nat.add_0_r in Hfail; apply Hfail; lia).
    destruct (IH (S i) (logs (iteration_trace i (env i)) σ) n strat rm)
      as (tr & Hr & Htr & Hl & Hj & Hc).
    + done.
    + intros j Hj. replace (S i + j) with (i + S j) by lia. apply Hfail. lia.
    + by replace (S i + n) with (i + S n) by lia.
    + exists (iteration_trace i (env i) ++ tr).
      split; [done|]. split; [by rewrite Htr, app_assoc|].
      split; [by rewrite loaded_app, iteration_loaded, Hl|].
      split; [|done].
      rewrite joined_app, Forall_app. split.
      * eapply Forall_impl; [apply iteration_joined|]. simpl. lia.
      * eapply Forall_impl; [apply Hj|]. simpl. lia.
Qed.

Lemma connect_loop_rejected rest : ∀ i σ,
  (∃ e, (connect_loop env rest i σ).2 = Some (Rejected e)) ↔
  (∀ n, n < length rest → fails (env (i + n))).
Proof.
  induction rest as [|s rest IH]; intros i σ.
  - simpl. split; [intros _ n Hn; lia|]. by eexists.
  - split.
    + intros (e & He) n Hn.
      assert (Hall : fails (env i) ∧ ∀ n, n < length rest → fails (env (S i + n))).
      { simpl in He. destruct (loads (env i)) as [md|] eqn:H1.
        2:{ split; [by left|]. apply (IH (S i) (log (LoadCalled i) σ)). eauto. }
        destruct (joinRoom md) as [rm|] eqn:H2.
        2:{ split; [right; left; by exists md|].
            apply (IH (S i) (log (JoinThrew i) (log (LoadCalled i) σ))). eauto. }
        destruct (raises md) eqn:Hr.
        { split; [right; right; right; by exists md, rm|].
          eapply IH. eauto. }
        destruct (waitForRelayOpen _ _ _ _) as [[t []]|] eqn:H3; try done.
        split; [right; right; left; by exists rm, md, t|].
        eapply IH. eauto. }
      destruct Hall as [H0 Hrest]. destruct n as [|n].
      * by rewrite Nat.add_0_r.
      * replace (i + S n) with (S i + n) by lia. apply Hrest. simpl in Hn. lia.
    + intros Hall. rewrite connect_loop_fails
        by (specialize (Hall 0); rewrite Nat.add_0_r in Hall; apply Hall; simpl; lia).
      apply IH. intros n Hn. replace (S i + n) with (i + S n) by lia.
      apply Hall. simpl. lia.
Qed.

Lemma connect_loop_rejection rest : ∀ i σ e,
  (connect_loop env rest i σ).2 = Some (Rejected e) → e = all_failed.
Proof.
  induction rest as [|s rest IH]; intros i σ e; simpl.
  - by intros [= <-].
  - destruct (loads (env i)) as [md|]; [|apply IH].
    destruct (joinRoom md) as [rm|]; [|apply IH].
    destruct (raises md); [apply IH|].
    destruct (waitForRelayOpen _ _ _ _) as [[t []]|]; [done|apply IH|done].
Qed.

Lemma connect_loop_unhealthy rest : ∀ i σ n rm,
  n < length rest →
  (∀ j, j < n → fails (env (i + j))) →
  probe_reports (env (i + n)) rm false →
  ∃ pre post,
    trace (connect_loop env rest i σ).1
    = trace σ ++ pre ++ [JoinReturned (i + n) rm; LeaveCalled rm] ++ post ∧
    Forall (λ j, j ≤ i + n) (loaded pre) ∧ Forall (λ j, j < i + n) (joined pre) ∧
    Forall (λ j, i + n < j) (loaded post) ∧ Forall (λ j, i + n < j) (joined post).
Proof.
  induction rest as [|s rest IH]; intros i σ n rm Hn Hfail Hbad; [simpl in Hn; lia|].
  destruct n as [|n].
  - rewrite Nat.add_0_r in *.
    destruct Hbad as (md & t & H1 & H2 & Hr & H3). simpl. rewrite H1, H2, Hr, H3.
    destruct (connect_loop_extends rest (S i)
      (log (LeaveCalled rm) (log (JoinReturned i rm) (log (LoadCalled i) σ))))
      as (post & E & Hl & Hj).
    exists [LoadCalled i], post. rewrite E. simpl. rewrite <- !app_assoc. simpl.
    split; [done|]. split; [by repeat constructor|]. split; [done|].
    split; (eapply Forall_impl; [eassumption|]); simpl; lia.
  - rewrite connect_loop_fails
      by (specialize (Hfail 0); rewrite Nat.add_0_r in Hfail; apply Hfail; lia).
    destruct (IH (S i) (logs (iteration_trace i (env i)) σ) n rm)
      as (pre & post & Htr & Hl & Hj & Hl' & Hj').
    + simpl in Hn. lia.
    + intros j Hj. replace (S i + j) with (i + S j) by lia. apply Hfail. lia.
    + by replace (S i + n) with (i + S n) by lia.
    + exists (iteration_trace i (env i) ++ pre), post.
      replace (i + S n) with (S i + n) by lia.
      split; [rewrite Htr; simpl; by rewrite <- !app_assoc|].
      rewrite loaded_app, joined_app, !Forall_app, iteration_loaded.
      split; [split; [apply Forall_singleton; lia|done]|].
      split; [|done]. split; [|done].
      eapply Forall_impl; [apply iteration_joined|]. simpl. lia.
Qed.
End ConnectFacts.

(** * Facts about the machine *)

Lemma run_app reg m ls1 ls2 :
  run reg m (ls1 ++ ls2) = run reg m ls1 ≫= λ m', run reg m' ls2.
Proof.
  revert m. induction ls1 as [|l ls1 IH]; intros m; simpl; [done|].
  destruct (step reg m l); [apply IH|done].
Qed.

Lemma iterate_some reg i strat σ :
  reg !! i = Some strat → iterate reg i σ = (log (LoadCalled i) σ, AwaitLoad i strat).
Proof. intros H. unfold iterate. by rewrite H. Qed.

Lemma iterate_none reg i σ :
  reg !! i = None → iterate reg i σ = (σ, AwaitConnect (Rejected all_failed)).
Proof. intros H. unfold iterate. by rewrite H. Qed.

Lemma suspend_suspend m c who who' sp sp' :
  suspend (suspend m c who sp) c who' sp' = suspend m c who' sp'.
Proof. unfold suspend. simpl. by rewrite list_insert_insert_eq. Qed.

Lemma suspend_lookup m c who sp :
  c < length (calls m) → calls (suspend m c who sp) !! c = Some (who, sp.2).
Proof. intros H. unfold suspend. simpl. by apply list_lookup_insert_eq. Qed.

(** A call run by [script] goes through the machine exactly as [connect]
    goes through the loop. *)
Lemma script_runs reg env c who rest : ∀ i m σ0,
  drop i reg = rest →
  session m = (iterate reg i σ0).1 →
  calls m !! c = Some (who, (iterate reg i σ0).2) →
  ∀ σ' r, connect_loop env rest i σ0 = (σ', Some r) →
  run reg m (script env c rest i)
  = Some (suspend m c who (σ', AwaitConnect r)).
Proof.
  induction rest as [|s rest IH]; intros i m σ0 Hdrop Hs Hc σ' r Hrun.
  - assert (reg !! i = None) as Hi.
    { apply lookup_ge_None. apply (f_equal length) in Hdrop.
      rewrite length_drop in Hdrop. simpl in Hdrop. lia. }
    rewrite iterate_none in Hs, Hc by done. simpl in *.
    injection Hrun as <- <-. unfold suspend. simpl.
    rewrite list_insert_id by done. destruct m. simpl in *. by subst.
  - assert (reg !! i = Some s) as Hi.
    { rewrite <- (Nat.add_0_r i), <- lookup_drop, Hdrop. done. }
    assert (drop (S i) reg = rest) as Hdrop'.
    { erewrite drop_S in Hdrop by done. by injection Hdrop. }
    assert (c < length (calls m)) as Hlen by (by eapply lookup_lt_Some).
    rewrite iterate_some with (strat := s) in Hs, Hc by done. simpl in Hs, Hc.
    assert (Hnext : ∀ σ1,
      connect_loop env rest (S i) σ1 = (σ', Some r) →
      run reg (suspend m c who (iterate reg (S i) σ1)) (script env c rest (S i))
      = Some (suspend m c who (σ', AwaitConnect r))).
    { intros σ1 H1.
      rewrite (IH (S i) (suspend m c who (iterate reg (S i) σ1)) σ1 Hdrop'
                 eq_refl (suspend_lookup _ _ _ _ Hlen) σ' r H1).
      by rewrite suspend_suspend. }
    simpl in Hrun |- *. rewrite Hc. unfold resume_load. rewrite Hs.
    destruct (loads (env i)) as [md|]; [|by apply Hnext].
    destruct (joinRoom md) as [rm|]; [|by apply Hnext].
    destruct (raises md); [by apply Hnext|].
    simpl. rewrite list_lookup_insert_eq by done.
    destruct (waitForRelayOpen _ _ _ _) as [[t []]|]; [| |done].
    + injection Hrun as <- <-. unfold resume_probe. by rewrite suspend_suspend.
    + simpl. rewrite list_lookup_insert_eq by (by rewrite length_insert).
      rewrite !suspend_suspend. by apply Hnext.
Qed.

(** ** What no step touches *)

Lemma dispatch_logs rm strat thrown σ :
  dispatch rm strat thrown σ
  = logs (map (λ fn, HandlerCalled fn rm strat) (called thrown (reconnectHandlers σ))) σ.
Proof.
  unfold dispatch.
  assert (Hgen : ∀ hs σ0, foldl (λ σ fn, log (HandlerCalled fn rm strat) σ) σ0 hs
                          = logs (map (λ fn, HandlerCalled fn rm strat) hs) σ0).
  { induction hs as [|h hs IH]; intros σ0; simpl.
    - unfold logs. rewrite app_nil_r. by destruct σ0.
    - by rewrite IH, log_logs, logs_logs. }
  apply Hgen.
Qed.

Lemma iterate_flags reg i σ : same_flags σ (iterate reg i σ).1.
Proof. unfold iterate. by destruct (reg !! i). Qed.

Lemma resume_load_flags reg i strat res σ :
  same_flags σ (resume_load reg i strat res σ).1.
Proof.
  unfold resume_load. destruct res as [md|]; [|apply iterate_flags].
  destruct (joinRoom md) as [rm|].
  - destruct (raises md); [|done].
    destruct (iterate_flags reg (S i) (log (JoinReturned i rm) σ)). done.
  - destruct (iterate_flags reg (S i) (log (JoinThrew i) σ)). done.
Qed.

Lemma resume_probe_flags i strat md rm ok σ :
  same_flags σ (resume_probe i strat md rm ok σ).1.
Proof. by destruct ok. Qed.

Lemma resume_reconnect_flags thrown r σ : same_flags σ (resume_reconnect thrown r σ).
Proof.
  destruct r; [|done]. simpl. rewrite dispatch_logs.
  by destruct (throws thrown (reconnectHandlers σ)).
Qed.

Lemma leave_flags σ : reconnectHandlers (leave σ) = [] ∧ active (leave σ) = false.
Proof.
  unfold leave.
  by destruct (currentModule σ) as [md|], (currentRoom σ); [destruct (raises md)|..].
Qed.

(** [leave()] logs the call of [leave] on the current room, or nothing. *)
Lemma leave_trace σ :
  ∃ tr, trace (leave σ) = trace σ ++ tr ∧
        (tr = [] ∨ ∃ rm, currentRoom σ = Some rm ∧ tr = [LeaveCalled rm]).
Proof.
  unfold leave.
  destruct (currentModule σ) as [md|], (currentRoom σ) as [rm|];
    [destruct (raises md)|..]; simpl;
    first [by exists []; rewrite app_nil_r; split; [|left]
          |exists [LeaveCalled rm]; split; [done|right; by exists rm]].
Qed.

Lemma step_flags reg m l m' :
  step reg m l = Some m' →
  match l with
  | CallOnReconnect h =>
      active (session m') = active (session m) ∧
      reconnectHandlers (session m') = reconnectHandlers (session m) ++ [h]
  | CallLeave =>
      active (session m') = false ∧ reconnectHandlers (session m') = []
  | _ => same_flags (session m) (session m')
  end.
Proof.
  destruct l as [c res|c rs q|c|c|c k|ws|ws|h|]; simpl.
  - destruct (calls m !! c) as [[who []]|]; try done.
    intros [= <-]. apply resume_load_flags.
  - destruct (calls m !! c) as [[who []]|]; try done.
    destruct (waitForRelayOpen _ _ _ _) as [[t ok]|]; [|done].
    intros [= <-]. apply resume_probe_flags.
  - destruct (calls m !! c) as [[who []]|]; try done.
    intros [= <-]. apply iterate_flags.
  - destruct (calls m !! c) as [[[] []]|]; try done; intros [= <-]; simpl.
    + done.
    + apply resume_reconnect_flags.
  - destruct (calls m !! c) as [[[] [| | |[]|]]|]; try done.
    case_bool_decide; [|done]. intros [= <-]. simpl. by rewrite dispatch_logs.
  - case_bool_decide; intros [= <-]; [|done].
    unfold handleDisconnect. destruct (active (session m)); [|done]. simpl.
    pose proof (iterate_flags reg 0 (session m)) as Hf.
    by destruct (iterate reg 0 (session m)).
  - case_bool_decide; intros [= <-]; [|done].
    unfold handleDisconnect. destruct (active (session m)); [|done]. simpl.
    pose proof (iterate_flags reg 0 (session m)) as Hf.
    by destruct (iterate reg 0 (session m)).
  - destruct (built m) as [[]|]; try done. by intros [= <-].
  - destruct (built m) as [[]|]; try done. intros [= <-]. simpl.
    split; apply leave_flags.
Qed.

(** * The scan *)

Example scenario_trace :
  connect strategies scenario 0 fresh
  = (MkSession true [] (Some 12) (Some (MkModule (Some 12) (Gives [("wss://c", 2)])))
       {[2]}
       [LoadCalled 0; LoadCalled 1; JoinReturned 1 11; LeaveCalled 11;
        LoadCalled 2; JoinReturned 2 12],
     Some (Resolved 12 "mqtt")).
Proof. vm_compute. reflexivity. Qed.

Lemma scenario_fails j : j < 2 → fails (scenario j).
Proof.
  intros Hj. destruct j as [|[|j]]; [by left| |lia].
  right; right; left. exists 11. eexists _, 5000%Z. by vm_compute.
Qed.

Lemma scenario_succeeds : succeeds (scenario 2) 12.
Proof. eexists _, 0%Z. by vm_compute. Qed.

(** C1.  [connect(startIndex)] loads the strategies in registry order from
    [startIndex], one after the other and without wrapping: the indices it
    loads are [startIndex, startIndex+1, ...], never beyond the end of the
    registry.  When those before index [k] fail (load rejects, [joinRoom]
    throws, [getRelaySockets] throws or the probe reports unhealthy) and
    strategy [k] succeeds, it
    resolves with the room and the name of strategy [k], having loaded
    exactly the indices [startIndex..k] and joined none outside them. *)
Theorem connect_first_healthy reg env startIndex σ :
  (∃ tr n,
     trace (connect reg env startIndex σ).1 = trace σ ++ tr ∧
     loaded tr = seq startIndex n ∧ n ≤ length reg - startIndex) ∧
  (∀ k strat rm,
     reg !! k = Some strat →
     startIndex ≤ k →
     (∀ j, startIndex ≤ j < k → fails (env j)) →
     succeeds (env k) rm →
     ∃ tr,
       (connect reg env startIndex σ).2 = Some (Resolved rm strat) ∧
       trace (connect reg env startIndex σ).1 = trace σ ++ tr ∧
       loaded tr = seq startIndex (S k - startIndex) ∧
       Forall (λ j, startIndex ≤ j ≤ k) (joined tr) ∧
       currentRoom (connect reg env startIndex σ).1 = Some rm).
Proof.
  unfold connect. split.
  { destruct (connect_loop_order env (drop startIndex reg) startIndex σ)
      as (tr & n & E & Hl & Hn).
    rewrite length_drop in Hn. by exists tr, n. }
  intros k strat rm Hk Hle Hfail Hok.
  destruct (connect_loop_first_success env (drop startIndex reg) startIndex σ
              (k - startIndex) strat rm) as (tr & Hr & Htr & Hl & Hj & Hc).
  - rewrite lookup_drop. by replace (startIndex + (k - startIndex)) with k by lia.
  - intros j Hj. apply Hfail. lia.
  - by replace (startIndex + (k - startIndex)) with k by lia.
  - exists tr. split; [done|]. split; [done|].
    split; [by replace (S k - startIndex) with (S (k - startIndex)) by lia|].
    split; [|done]. eapply Forall_impl; [apply Hj|]. simpl. lia.
Qed.

Lemma connect_first_healthy_witness :
  ∃ tr,
    (connect strategies scenario 0 fresh).2 = Some (Resolved 12 "mqtt") ∧
    trace (connect strategies scenario 0 fresh).1 = trace fresh ++ tr ∧
    loaded tr = seq 0 (3 - 0) ∧
    Forall (λ j, 0 ≤ j ≤ 2) (joined tr) ∧
    currentRoom (connect strategies scenario 0 fresh).1 = Some 12.
Proof.
  apply (proj2 (connect_first_healthy strategies scenario 0 fresh) 2 "mqtt" 12).
  - reflexivity.
  - lia.
  - intros j Hj. apply scenario_fails. lia.
  - exact scenario_succeeds.
Defined.

(** C5.  When candidate [j] is reached, joins room [rm] and is reported
    unhealthy by the probe, [rm.leave()] is called right after the join:
    before it nothing of a later candidate has been loaded or joined, and
    whatever is loaded or joined after it belongs to a later candidate. *)
Theorem connect_leaves_rejected reg env startIndex j rm σ :
  startIndex ≤ j < length reg →
  (∀ i, startIndex ≤ i < j → fails (env i)) →
  probe_reports (env j) rm false →
  ∃ pre post,
    trace (connect reg env startIndex σ).1
    = trace σ ++ pre ++ [JoinReturned j rm; LeaveCalled rm] ++ post ∧
    Forall (λ i, i ≤ j) (loaded pre) ∧ Forall (λ i, i < j) (joined pre) ∧
    Forall (λ i, j < i) (loaded post) ∧ Forall (λ i, j < i) (joined post).
Proof.
  intros Hj Hfail Hbad. unfold connect.
  destruct (connect_loop_unhealthy env (drop startIndex reg) startIndex σ
              (j - startIndex) rm) as (pre & post & H).
  - rewrite length_drop. lia.
  - intros i Hi. apply Hfail. lia.
  - by replace (startIndex + (j - startIndex)) with j by lia.
  - replace (startIndex + (j - startIndex)) with j in H by lia. by exists pre, post.
Qed.

Lemma connect_leaves_rejected_witness :
  ∃ pre post,
    trace (connect strategies scenario 0 fresh).1
    = trace fresh ++ pre ++ [JoinReturned 1 11; LeaveCalled 11] ++ post ∧
    Forall (λ i, i ≤ 1) (loaded pre) ∧ Forall (λ i, i < 1) (joined pre) ∧
    Forall (λ i, 1 < i) (loaded post) ∧ Forall (λ i, 1 < i) (joined post).
Proof.
  apply (connect_leaves_rejected strategies scenario 0 1 11 fresh).
  - simpl. lia.
  - intros i Hi. apply scenario_fails. lia.
  - eexists _, 5000%Z. by vm_compute.
Defined.

Lemma hopeless_fails j : fails (hopeless j).
Proof.
  destruct j as [|[|[|j]]]; [by left| | |by left].
  - right; left. by eexists.
  - right; right; left. exists 21. eexists _, 5000%Z. by vm_compute.
Qed.

(** C2.  [connect(startIndex)] rejects exactly when every strategy from
    [startIndex] to the end of the registry fails, and then with the error
    "All connection strategies failed"; [joinRoomWithFallback] hands a
    rejection of its initial [connect()] on to its caller, so that when
    every strategy fails the construction throws that error. *)
Theorem connect_rejects_iff_exhausted :
  (∀ reg env startIndex σ,
     (∃ e, (connect reg env startIndex σ).2 = Some (Rejected e)) ↔
     (∀ j, startIndex ≤ j < length reg → fails (env j))) ∧
  (∀ reg env startIndex σ e,
     (connect reg env startIndex σ).2 = Some (Rejected e) →
     e = "All connection strategies failed") ∧
  (∀ reg m c e,
     calls m !! c = Some (Construction, AwaitConnect (Rejected e)) →
     ∃ m', step reg m (ConnectSettles c) = Some m' ∧ built m' = Some (Threw e)) ∧
  (∀ reg env,
     (∀ j, j < length reg → fails (env j)) →
     ∃ m, run reg (joinRoomWithFallback reg)
            (script env 0 reg 0 ++ [ConnectSettles 0]) = Some m ∧
          built m = Some (Threw "All connection strategies failed")).
Proof.
  split; [|split; [|split]].
  - intros reg env startIndex σ. unfold connect.
    rewrite connect_loop_rejected, length_drop. split.
    + intros H j Hj. replace j with (startIndex + (j - startIndex)) by lia.
      apply H. lia.
    + intros H n Hn. apply H. lia.
  - intros reg env startIndex σ e. unfold connect. apply connect_loop_rejection.
  - intros reg m c e Hc. simpl. rewrite Hc. by eexists.
  - intros reg env Hall.
    destruct (connect_loop env reg 0 fresh) as [σ' r] eqn:Hrun.
    assert (r = Some (Rejected all_failed)) as ->.
    { destruct (proj2 (connect_loop_rejected env reg 0 fresh)) as [e He].
      - intros n Hn. by apply Hall.
      - rewrite Hrun in He. simpl in He. rewrite He. do 2 f_equal.
        apply (connect_loop_rejection env reg 0 fresh). by rewrite Hrun. }
    rewrite run_app.
    erewrite (script_runs reg env 0 Construction reg 0 (joinRoomWithFallback reg) fresh);
      [|done| | |exact Hrun].
    + simpl. unfold joinRoomWithFallback.
      destruct (iterate reg 0 fresh) as [σ0 p]. simpl. by eexists.
    + unfold joinRoomWithFallback. by destruct (iterate reg 0 fresh).
    + unfold joinRoomWithFallback. by destruct (iterate reg 0 fresh).
Qed.

Lemma connect_rejects_iff_exhausted_witness :
  (connect strategies hopeless 0 fresh).2
  = Some (Rejected "All connection strategies failed") ∧
  (∃ m, run strategies (joinRoomWithFallback strategies)
          (script hopeless 0 strategies 0 ++ [ConnectSettles 0]) = Some m ∧
        built m = Some (Threw "All connection strategies failed")).
Proof.
  destruct connect_rejects_iff_exhausted as (Hiff & Hmsg & _ & Hbuilt).
  split.
  - destruct (proj2 (Hiff strategies hopeless 0 fresh)) as [e He].
    + intros j _. apply hopeless_fails.
    + rewrite He. by rewrite (Hmsg _ _ _ _ _ He).
  - apply Hbuilt. intros j _. apply hopeless_fails.
Defined.

(** * The session *)

Lemma fresh_session reg :
  same_flags fresh (session (joinRoomWithFallback reg)) ∧
  built (joinRoomWithFallback reg) = None.
Proof.
  unfold joinRoomWithFallback. pose proof (iterate_flags reg 0 fresh) as Hf.
  by destruct (iterate reg 0 fresh).
Qed.

Lemma run_registered reg : ∀ ls m m',
  run reg m ls = Some m' →
  reconnectHandlers (session m') = foldl register (reconnectHandlers (session m)) ls.
Proof.
  induction ls as [|l ls IH]; intros m m'; simpl.
  - by intros [= <-].
  - destruct (step reg m l) as [m1|] eqn:E; [|done].
    intros Hrun. rewrite (IH _ _ Hrun). f_equal.
    apply step_flags in E. destruct l; simpl; by destruct E.
Qed.

Lemma run_left reg : ∀ ls m m',
  run reg m ls = Some m' →
  active (session m) = false ∨ has_left ls = true →
  active (session m') = false.
Proof.
  induction ls as [|l ls IH]; intros m m'; simpl.
  - intros [= <-] [H|H]; done.
  - destruct (step reg m l) as [m1|] eqn:E; [|done].
    intros Hrun Hor. apply (IH _ _ Hrun).
    apply step_flags in E.
    destruct l; simpl in *; destruct E as [E1 E2];
      try (by left); (destruct Hor as [H|H]; [left; congruence|by right]).
Qed.

(** How a step changes the calls and the construction's outcome. *)
Lemma step_shape reg m l m' :
  step reg m l = Some m' →
  (built m' = built m ∧
   (calls m' = calls m ∨
    (∃ c who p p', calls m !! c = Some (who, p) ∧ p ≠ Finished ∧
                   calls m' = <[c := (who, p')]> (calls m)) ∨
    (∃ p, calls m' = calls m ++ [(Reconnection, p)]))) ∨
  (∃ c r, calls m !! c = Some (Construction, AwaitConnect r) ∧
          built m' = Some (resume_construction r) ∧
          calls m' = <[c := (Construction, Finished)]> (calls m)).
Proof.
  destruct l as [c res|c rs q|c|c|c k|ws|ws|h|]; simpl.
  - destruct (calls m !! c) as [[who []]|] eqn:Hc; try done.
    intros [= <-]. left. split; [done|]. right; left. by eexists c, who, _, _.
  - destruct (calls m !! c) as [[who []]|] eqn:Hc; try done.
    destruct (waitForRelayOpen _ _ _ _) as [[t ok]|]; [|done].
    intros [= <-]. left. split; [done|]. right; left. by eexists c, who, _, _.
  - destruct (calls m !! c) as [[who []]|] eqn:Hc; try done.
    intros [= <-]. left. split; [done|]. right; left. by eexists c, who, _, _.
  - destruct (calls m !! c) as [[[] []]|] eqn:Hc; try done; intros [= <-].
    + right. by exists c, r.
    + left. split; [done|]. right; left. by eexists c, Reconnection, _, _.
  - destruct (calls m !! c) as [[[] [| | |[]|]]|] eqn:Hc; try done.
    case_bool_decide; [|done]. intros [= <-].
    left. split; [done|]. right; left. by eexists c, Reconnection, _, _.
  - case_bool_decide; intros [= <-]; [|by left; split; [|left]].
    unfold handleDisconnect. destruct (active (session m)); simpl;
      [|by left; split; [|left]].
    destruct (iterate reg 0 (session m)) as [σ p]. left. split; [done|].
    right; right. by exists p.
  - case_bool_decide; intros [= <-]; [|by left; split; [|left]].
    unfold handleDisconnect. destruct (active (session m)); simpl;
      [|by left; split; [|left]].
    destruct (iterate reg 0 (session m)) as [σ p]. left. split; [done|].
    right; right. by exists p.
  - destruct (built m) as [[]|]; try done. intros [= <-].
    left. split; [done|]. by left.
  - destruct (built m) as [[]|]; try done. intros [= <-].
    left. split; [done|]. by left.
Qed.

Lemma well_formed_init reg : well_formed (joinRoomWithFallback reg).
Proof.
  unfold joinRoomWithFallback. destruct (iterate reg 0 fresh) as [σ p].
  split; simpl.
  - intros [|c] q Hc; [done|]. done.
  - by intros [? [=]].
Qed.

Lemma well_formed_step reg m l m' :
  well_formed m → step reg m l = Some m' → well_formed m'.
Proof.
  intros [Hone Hfin] Hstep.
  destruct (step_shape _ _ _ _ Hstep)
    as [[Hb [Hc | [(c & who & p & p' & Hc & Hp & Hc') | (p & Hc)]]]
       | (c & r & Hc & Hb & Hc')].
  - split; rewrite ?Hb, Hc; done.
  - split; rewrite ?Hb, Hc'.
    + intros c' q Hq. apply list_lookup_insert_Some in Hq
        as [(-> & [= -> ->] & _) | (_ & Hq)]; eauto.
    + intros Hsome q Hq. apply list_lookup_insert_Some in Hq
        as [(-> & [= -> ->] & _) | (_ & Hq)]; [|eauto].
      destruct Hp. eauto.
  - split; rewrite ?Hb, Hc.
    + intros c' q Hq. apply lookup_app_Some in Hq as [Hq | [_ Hq]]; [eauto|].
      apply list_lookup_singleton_Some in Hq as [_ [=]].
    + intros Hsome q Hq. apply lookup_app_Some in Hq as [Hq | [_ Hq]]; [eauto|].
      apply list_lookup_singleton_Some in Hq as [_ [=]].
  - assert (c = 0) as -> by eauto.
    split; rewrite ?Hc'.
    + intros c' q Hq. apply list_lookup_insert_Some in Hq
        as [(<- & _) | (_ & Hq)]; eauto.
    + intros _ q Hq. apply list_lookup_insert_Some in Hq
        as [(_ & [= <-] & _) | ([] & _)]; done.
Qed.

Lemma well_formed_run reg : ∀ ls m m',
  well_formed m → run reg m ls = Some m' → well_formed m'.
Proof.
  induction ls as [|l ls IH]; intros m m' Hwf; simpl.
  - by intros [= <-].
  - destruct (step reg m l) as [m1|] eqn:E; [|done].
    apply IH. by eapply well_formed_step.
Qed.

Lemma step_built reg m l m' b :
  well_formed m → built m = Some b → step reg m l = Some m' → built m' = Some b.
Proof.
  intros [Hone Hfin] Hb Hstep.
  destruct (step_shape _ _ _ _ Hstep) as [[Hb' _] | (c & r & Hc & _)].
  - by rewrite Hb'.
  - assert (c = 0) as -> by eauto.
    assert (AwaitConnect r = Finished) by (apply Hfin; [by rewrite Hb|done]).
    done.
Qed.

Lemma run_built reg : ∀ ls m m' b,
  well_formed m → built m = Some b → run reg m ls = Some m' → built m' = Some b.
Proof.
  induction ls as [|l ls IH]; intros m m' b Hwf Hb; simpl.
  - by intros [= <-].
  - destruct (step reg m l) as [m1|] eqn:E; [|done].
    apply IH; [by eapply well_formed_step|by eapply step_built].
Qed.

(** ** Reachable states *)

Lemma disconnect_step reg m ws l :
  l = SocketCloses ws ∨ l = SocketErrors ws →
  step reg m l
  = Some (if bool_decide (ws ∈ watched (session m)) then handleDisconnect reg m else m).
Proof. intros [-> | ->]; simpl; by case_bool_decide. Qed.

(** A reconnection that nothing interleaves with is [connect(0)] run on the
    session as the event finds it: the scan, up to the moment the promise
    of [connect(0)] has settled. *)
Lemma reconnection_scans reg env m ws l σ' r :
  l = SocketCloses ws ∨ l = SocketErrors ws →
  active (session m) = true →
  ws ∈ watched (session m) →
  connect reg env 0 (session m) = (σ', Some r) →
  run reg m (l :: script env (length (calls m)) reg 0)
  = Some (MkMachine σ' (built m) (calls m ++ [(Reconnection, AwaitConnect r)])).
Proof.
  intros Hl Hact Hws Hrun. unfold connect in Hrun. rewrite drop_0 in Hrun.
  cbn [run]. rewrite (disconnect_step reg m ws l Hl).
  rewrite bool_decide_eq_true_2 by done.
  unfold handleDisconnect. rewrite Hact. cbn [negb].
  destruct (iterate reg 0 (session m)) as [σ0 p] eqn:Hit.
  erewrite (script_runs reg env (length (calls m)) Reconnection reg 0 _ (session m));
    [|done| | |exact Hrun].
  - unfold suspend. cbn [calls session built fst snd].
    rewrite insert_app_r_alt by lia. rewrite Nat.sub_diag. done.
  - by rewrite Hit.
  - rewrite Hit. simpl. by rewrite list_lookup_middle.
Qed.

(** The same followed by lines 115-118, when the handlers return. *)
Lemma reconnection_runs_connect reg env m ws σ' r :
  active (session m) = true →
  ws ∈ watched (session m) →
  connect reg env 0 (session m) = (σ', Some r) →
  run reg m (SocketCloses ws :: script env (length (calls m)) reg 0
             ++ [ConnectSettles (length (calls m))])
  = Some (MkMachine (resume_reconnect None r σ') (built m)
                    (calls m ++ [(Reconnection, Finished)])).
Proof.
  intros Hact Hws Hrun.
  rewrite app_comm_cons, run_app.
  rewrite (reconnection_scans reg env m ws _ σ' r) by eauto.
  cbn [mbind option_bind run step calls session built].
  rewrite list_lookup_middle by done.
  rewrite insert_app_r_alt by lia. rewrite Nat.sub_diag. done.
Qed.

(** C4, as stated: whenever the continuation of a reconnection that
    resolved has run, every registered handler has been called once, in
    registration order.  When the call of handler 7 throws, handler 8 is
    not called: line 115 is inside the [try] of lines 113-118. *)
Lemma a_throwing_handler_ends_the_dispatch :
  ¬ (∀ reg ls m c rm strat l m',
       run reg (joinRoomWithFallback reg) ls = Some m →
       calls m !! c = Some (Reconnection, AwaitConnect (Resolved rm strat)) →
       step reg m l = Some m' →
       calls m' !! c = Some (Reconnection, Finished) →
       trace (session m')
       = trace (session m) ++ map (λ fn, HandlerCalled fn rm strat) (registered ls)).
Proof.
  intros H.
  specialize (H two (boot ++ [CallOnReconnect 7; CallOnReconnect 8] ++ swap) _
                1 2 "torrent" (HandlerThrows 1 0) _ eq_refl eq_refl eq_refl eq_refl).
  vm_compute in H. discriminate.
Qed.

(** C4, amended.  In every reachable state: a close or error event on a
    watched socket of an active session starts a call of [connect] at index
    0 (the first strategy of the registry is loaded, whichever was
    current); and when such a call has resolved with a room and a name, the
    continuation of [handleDisconnect] calls the handlers registered so
    far in registration order with that room and name, each once per
    registration when all of them return; when the call of the handler at
    position [k] throws, the handlers up to that one have been called, those
    after it are not, and the error is logged.  Either way the call is then
    over. *)
Theorem reconnection_rescans_and_notifies reg ls m :
  run reg (joinRoomWithFallback reg) ls = Some m →
  (∀ ws l,
     l = SocketCloses ws ∨ l = SocketErrors ws →
     active (session m) = true →
     ws ∈ watched (session m) →
     ∃ m' p,
       step reg m l = Some m' ∧
       calls m' = calls m ++ [(Reconnection, p)] ∧
       (session m', p) = iterate reg 0 (session m) ∧
       (∀ strat, reg !! 0 = Some strat →
          p = AwaitLoad 0 strat ∧
          trace (session m') = trace (session m) ++ [LoadCalled 0])) ∧
  (∀ c rm strat,
     calls m !! c = Some (Reconnection, AwaitConnect (Resolved rm strat)) →
     (∃ m',
        step reg m (ConnectSettles c) = Some m' ∧
        trace (session m')
        = trace (session m) ++ map (λ fn, HandlerCalled fn rm strat) (registered ls) ∧
        calls m' !! c = Some (Reconnection, Finished) ∧
        step reg m' (ConnectSettles c) = None ∧
        ∀ k, step reg m' (HandlerThrows c k) = None) ∧
     (∀ k, k < length (registered ls) →
        ∃ m',
          step reg m (HandlerThrows c k) = Some m' ∧
          trace (session m')
          = trace (session m)
            ++ map (λ fn, HandlerCalled fn rm strat) (take (S k) (registered ls))
            ++ [ErrorLogged] ∧
          calls m' !! c = Some (Reconnection, Finished) ∧
          step reg m' (ConnectSettles c) = None ∧
          ∀ k', step reg m' (HandlerThrows c k') = None) ∧
     (∀ k, length (registered ls) ≤ k → step reg m (HandlerThrows c k) = None)).
Proof.
  intros Hrun.
  assert (Hh : reconnectHandlers (session m) = registered ls).
  { rewrite (run_registered _ _ _ _ Hrun).
    by destruct (fresh_session reg) as [[_ ->] _]. }
  split.
  - intros ws l Hl Hact Hws.
    rewrite (disconnect_step reg m ws l Hl), bool_decide_eq_true_2 by done.
    unfold handleDisconnect. rewrite Hact. simpl.
    destruct (iterate reg 0 (session m)) as [σ p] eqn:Hit.
    exists (MkMachine σ (built m) (calls m ++ [(Reconnection, p)])), p.
    split; [done|]. split; [done|]. split; [done|].
    intros strat H0. rewrite iterate_some with (strat := strat) in Hit by done.
    by injection Hit as <- <-.
  - intros c rm strat Hc.
    assert (c < length (calls m)) by (by eapply lookup_lt_Some).
    split; [|split].
    + simpl. rewrite Hc. eexists. split; [done|]. simpl.
      rewrite list_lookup_insert_eq by done.
      split; [|done]. rewrite dispatch_logs. simpl. by rewrite Hh.
    + intros k Hk. simpl. rewrite Hc.
      rewrite !bool_decide_eq_true_2 by (by rewrite Hh).
      eexists. split; [done|]. simpl.
      rewrite list_lookup_insert_eq by done.
      split; [|done]. rewrite dispatch_logs. simpl.
      by rewrite Hh, <- app_assoc.
    + intros k Hk. simpl. rewrite Hc.
      rewrite bool_decide_eq_false_2; [done|]. rewrite Hh. lia.
Qed.

Lemma reconnection_rescans_and_notifies_witness :
  (∃ m',
     step two (after two (boot ++ [CallOnReconnect 7; CallOnReconnect 8] ++ swap))
          (SocketErrors 20) = Some m' ∧
     calls m'
     = calls (after two (boot ++ [CallOnReconnect 7; CallOnReconnect 8] ++ swap))
       ++ [(Reconnection, AwaitLoad 0 "nostr")] ∧
     trace (session m')
     = trace (session (after two (boot ++ [CallOnReconnect 7; CallOnReconnect 8] ++ swap)))
       ++ [LoadCalled 0]) ∧
  (∃ m',
     step two (after two (boot ++ [CallOnReconnect 7; CallOnReconnect 8] ++ swap))
          (ConnectSettles 1) = Some m' ∧
     trace (session m')
     = trace (session (after two (boot ++ [CallOnReconnect 7; CallOnReconnect 8] ++ swap)))
       ++ [HandlerCalled 7 2 "torrent"; HandlerCalled 8 2 "torrent"] ∧
     calls m' !! 1 = Some (Reconnection, Finished) ∧
     step two m' (ConnectSettles 1) = None) ∧
  (∃ m',
     step two (after two (boot ++ [CallOnReconnect 7; CallOnReconnect 8] ++ swap))
          (HandlerThrows 1 0) = Some m' ∧
     trace (session m')
     = trace (session (after two (boot ++ [CallOnReconnect 7; CallOnReconnect 8] ++ swap)))
       ++ [HandlerCalled 7 2 "torrent"; ErrorLogged] ∧
     calls m' !! 1 = Some (Reconnection, Finished)).
Proof.
  destruct (reconnection_rescans_and_notifies two
              (boot ++ [CallOnReconnect 7; CallOnReconnect 8] ++ swap)
              (after two (boot ++ [CallOnReconnect 7; CallOnReconnect 8] ++ swap)))
    as [Hevent Hsettle].
  { vm_compute. reflexivity. }
  split; [|split].
  - destruct (Hevent 20 (SocketErrors 20)) as (m' & p & Hstep & Hcalls & _ & Hzero).
    + by right.
    + reflexivity.
    + vm_compute. set_solver.
    + destruct (Hzero "nostr" eq_refl) as [-> Htrace]. by exists m'.
  - destruct (Hsettle 1 2 "torrent" eq_refl)
      as [(m' & Hstep & Htrace & Hcall & Hover & _) _].
    by exists m'.
  - destruct (Hsettle 1 2 "torrent" eq_refl) as (_ & Hthrow & _).
    destruct (Hthrow 0) as (m' & Hstep & Htrace & Hcall & _).
    + vm_compute. lia.
    + by exists m'.
Defined.

(** The run of the witness, spelled out: the scan restarts at "nostr", and
    both handlers are called with room 2 of "torrent". *)
Example swap_trace :
  trace (session (after two (boot ++ [CallOnReconnect 7; CallOnReconnect 8] ++ swap
                             ++ [ConnectSettles 1])))
  = [LoadCalled 0; JoinReturned 0 1;
     LoadCalled 0; JoinReturned 0 3; LeaveCalled 3; LoadCalled 1; JoinReturned 1 2;
     HandlerCalled 7 2 "torrent"; HandlerCalled 8 2 "torrent"].
Proof. vm_compute. reflexivity. Qed.

(** C7.  Once [leave()] has been called, [active] is false for good, and a
    close or error event on any socket leaves the machine as it is: no call
    of [connect] is started, nothing is logged, no handler is called. *)
Theorem no_reconnection_after_leave reg ls m :
  run reg (joinRoomWithFallback reg) ls = Some m →
  has_left ls = true →
  active (session m) = false ∧
  ∀ ws, step reg m (SocketCloses ws) = Some m ∧ step reg m (SocketErrors ws) = Some m.
Proof.
  intros Hrun Hleft.
  assert (Hact : active (session m) = false) by (eapply run_left; eauto).
  split; [done|]. intros ws.
  rewrite !(disconnect_step reg m ws) by eauto.
  unfold handleDisconnect. rewrite Hact. simpl. by case_bool_decide.
Qed.

Lemma no_reconnection_after_leave_witness :
  active (session (after two (boot ++ [CallOnReconnect 7; CallLeave; SocketErrors 10]))) = false ∧
  ∀ ws,
    step two (after two (boot ++ [CallOnReconnect 7; CallLeave; SocketErrors 10]))
         (SocketCloses ws)
    = Some (after two (boot ++ [CallOnReconnect 7; CallLeave; SocketErrors 10])) ∧
    step two (after two (boot ++ [CallOnReconnect 7; CallLeave; SocketErrors 10]))
         (SocketErrors ws)
    = Some (after two (boot ++ [CallOnReconnect 7; CallLeave; SocketErrors 10])).
Proof.
  apply (no_reconnection_after_leave two
           (boot ++ [CallOnReconnect 7; CallLeave; SocketErrors 10])).
  - vm_compute. reflexivity.
  - reflexivity.
Defined.

(** ** Overlapping events *)

(** [handleDisconnect] keeps no record of a reconnection under way: an error
    event followed by the close event of the same socket starts two scans. *)
Example two_scans_in_flight :
  calls (after two (boot ++ [SocketErrors 10; SocketCloses 10]))
  = [(Construction, Finished);
     (Reconnection, AwaitLoad 0 "nostr");
     (Reconnection, AwaitLoad 0 "nostr")].
Proof. vm_compute. reflexivity. Qed.

(** C9, as stated: at most one reconnection scan is in flight in any
    reachable state.  The run above refutes it. *)
Lemma reconnections_overlap :
  ¬ (∀ reg ls m,
       run reg (joinRoomWithFallback reg) ls = Some m → scans_in_flight m ≤ 1).
Proof.
  intros H.
  specialize (H two (boot ++ [SocketErrors 10; SocketCloses 10]) _ eq_refl).
  vm_compute in H. lia.
Qed.

Lemma scans_in_flight_app m σ b p :
  scanning (Reconnection, p) = true →
  scans_in_flight (MkMachine σ b (calls m ++ [(Reconnection, p)]))
  = S (scans_in_flight m).
Proof.
  intros Hp. unfold scans_in_flight. simpl.
  rewrite filter_app, length_app. simpl.
  rewrite filter_cons_True by done. simpl. lia.
Qed.

(** C9, amended.  Events are not deduplicated: every close or error event
    on a watched socket of an active session starts a scan of its own at
    index 0, whatever scans are in flight already, so that their number
    grows by one with each event. *)
Theorem every_event_starts_a_scan reg m ws l strat :
  l = SocketCloses ws ∨ l = SocketErrors ws →
  active (session m) = true →
  ws ∈ watched (session m) →
  reg !! 0 = Some strat →
  ∃ m', step reg m l = Some m' ∧
        calls m' = calls m ++ [(Reconnection, AwaitLoad 0 strat)] ∧
        scans_in_flight m' = S (scans_in_flight m).
Proof.
  intros Hl Hact Hws H0.
  rewrite (disconnect_step reg m ws l Hl), bool_decide_eq_true_2 by done.
  unfold handleDisconnect. rewrite Hact. simpl.
  rewrite iterate_some with (strat := strat) by done.
  eexists. split; [done|]. split; [done|]. by apply scans_in_flight_app.
Qed.

Lemma every_event_starts_a_scan_witness :
  ∃ m', step two (after two (boot ++ [SocketErrors 10])) (SocketCloses 10) = Some m' ∧
        calls m' = calls (after two (boot ++ [SocketErrors 10]))
                   ++ [(Reconnection, AwaitLoad 0 "nostr")] ∧
        scans_in_flight m' = S (scans_in_flight (after two (boot ++ [SocketErrors 10]))).
Proof.
  apply (every_event_starts_a_scan two (after two (boot ++ [SocketErrors 10])) 10
           (SocketCloses 10) "nostr").
  - by left.
  - reflexivity.
  - vm_compute. set_solver.
  - reflexivity.
Defined.

(** ** Listeners that outlive their strategy *)

(** C6, evaluated.  After the swap from "nostr" (socket 10) to "torrent"
    (socket 20), [handleDisconnect] is still registered on socket 10, which
    is no socket of the current strategy; [leave()] then removes it from
    socket 20 only, and socket 10 keeps it after teardown. *)
Theorem listeners_outlive_swap :
  is_Some (run two (joinRoomWithFallback two) (boot ++ swap ++ [CallLeave])) ∧
  current_sockets (session (after two (boot ++ swap))) = {[20]} ∧
  watched (session (after two (boot ++ swap))) = {[10; 20]} ∧
  watched (session (after two (boot ++ swap ++ [CallLeave]))) = {[10]}.
Proof. split; [by eexists|]. vm_compute. done. Qed.

(** ** A reconnection that outlives teardown *)

(** C10, evaluated.  Handler 9, registered after [leave()], is called by
    the reconnection that was in flight at [leave()]: [active] is read
    before [await connect(0)] only.  The room of that reconnection is
    current, never left, and its socket is watched. *)
Theorem handler_runs_after_leave :
  is_Some (run two (joinRoomWithFallback two) (boot ++ late)) ∧
  trace (session (after two (boot ++ late)))
  = [LoadCalled 0; JoinReturned 0 1; LoadCalled 0; LeaveCalled 1;
     JoinReturned 0 4; HandlerCalled 9 4 "nostr"] ∧
  active (session (after two (boot ++ late))) = false ∧
  currentRoom (session (after two (boot ++ late))) = Some 4 ∧
  watched (session (after two (boot ++ late))) = {[11]}.
Proof. split; [by eexists|]. vm_compute. done. Qed.

(** Outside that race the teardown is final: when no call is suspended at
    [leave()], none is ever started again and no handler is called. *)
Lemma idle_step reg m l m' :
  active (session m) = false → idle m → step reg m l = Some m' →
  active (session m') = false ∧ idle m' ∧
  ∃ tr, trace (session m') = trace (session m) ++ tr ∧ calls_no_handler tr.
Proof.
  intros Hact Hidle.
  assert (Hno : ∀ c who p, p ≠ Finished → calls m !! c ≠ Some (who, p)).
  { intros c who p Hp Hc. by apply Hp, (Hidle c who). }
  assert (Hsame : active (session m) = false ∧ idle m ∧
            ∃ tr, trace (session m) = trace (session m) ++ tr ∧ calls_no_handler tr).
  { split; [done|]. split; [done|]. exists []. rewrite app_nil_r.
    split; [done|]. intros ???. set_solver. }
  destruct l as [c res|c rs q|c|c|c k|ws|ws|h|]; simpl.
  - destruct (calls m !! c) as [[who []]|] eqn:Hc; try done.
    by destruct (Hno c who (AwaitLoad i strat)).
  - destruct (calls m !! c) as [[who []]|] eqn:Hc; try done.
    by destruct (Hno c who (AwaitProbe i strat md rm)).
  - destruct (calls m !! c) as [[who []]|] eqn:Hc; try done.
    by destruct (Hno c who (AwaitLeave i)).
  - destruct (calls m !! c) as [[[] []]|] eqn:Hc; try done.
    + by destruct (Hno c Construction (AwaitConnect r)).
    + by destruct (Hno c Reconnection (AwaitConnect r)).
  - destruct (calls m !! c) as [[[] [| | |[]|]]|] eqn:Hc; try done.
    by destruct (Hno c Reconnection (AwaitConnect (Resolved rm strat))).
  - unfold handleDisconnect. rewrite Hact. simpl.
    case_bool_decide; by intros [= <-].
  - unfold handleDisconnect. rewrite Hact. simpl.
    case_bool_decide; by intros [= <-].
  - destruct (built m) as [[]|]; try done. by intros [= <-].
  - destruct (built m) as [[]|]; try done. intros [= <-]. simpl.
    split; [apply leave_flags|].
    split; [done|].
    destruct (leave_trace (session m)) as (tr & E & Htr).
    exists tr. split; [exact E|].
    destruct Htr as [-> | (rm & _ & ->)]; intros ???; set_solver.
Qed.

(** The same along a whole run from such a state. *)
Lemma idle_run reg : ∀ ls m m',
  active (session m) = false → idle m → run reg m ls = Some m' →
  ∃ tr, trace (session m') = trace (session m) ++ tr ∧ calls_no_handler tr.
Proof.
  induction ls as [|l ls IH]; intros m m' Hact Hidle; simpl.
  - intros [= <-]. exists []. rewrite app_nil_r. split; [done|].
    intros ???. set_solver.
  - destruct (step reg m l) as [m1|] eqn:E; [|done]. intros Hrun.
    destruct (idle_step _ _ _ _ Hact Hidle E) as (Hact1 & Hidle1 & tr1 & E1 & H1).
    destruct (IH _ _ Hact1 Hidle1 Hrun) as (tr2 & E2 & H2).
    exists (tr1 ++ tr2). rewrite E2, E1, app_assoc. split; [done|].
    intros fn rm strat Hin. apply elem_of_app in Hin as [Hin|Hin].
    + by apply (H1 fn rm strat).
    + by apply (H2 fn rm strat).
Qed.

(** * Further properties of the probe *)

Lemma wait_as_closure sockets timeout rs queue :
  socket_list sockets ≠ [] →
  waitForRelayOpen sockets timeout rs queue
  = resolved (closure_after timeout (socket_list sockets) rs queue).
Proof.
  intros Hne. unfold waitForRelayOpen, closure_after.
  rewrite bool_decide_eq_false_2; [done|].
  destruct (socket_list sockets); [done|]. simpl. lia.
Qed.

Lemma closure_after_app timeout list rs q1 q2 :
  closure_after timeout list rs (q1 ++ q2)
  = (foldl (deliver timeout list)
           (foldl apply_store rs q1, closure_after timeout list rs q1) q2).2.
Proof.
  unfold closure_after. rewrite foldl_app.
  pose proof (run_store timeout list q1 (rs, executor rs list)) as Hs.
  destruct (foldl (deliver timeout list) (rs, executor rs list) q1) as [rs1 w1].
  simpl in Hs. by subst.
Qed.

(** X1.  The value and the time of a resolution are final: whatever the
    event loop runs afterwards (sockets closing, further "open" events, the
    timer), the promise keeps the result it had. *)
Theorem waitForRelayOpen_final sockets timeout rs q1 q2 v :
  waitForRelayOpen sockets timeout rs q1 = Some v →
  waitForRelayOpen sockets timeout rs (q1 ++ q2) = Some v.
Proof.
  unfold waitForRelayOpen. case_bool_decide; [done|].
  intros Hv. rewrite foldl_app. by apply run_sticky.
Qed.

Lemma waitForRelayOpen_final_witness :
  waitForRelayOpen (Some one_relay) 5000 connecting
    ([SocketTask 1200 (Opens 1)]
     ++ [SocketTask 1300 (Becomes 1 CLOSED); TimerTask; SocketTask 6000 (Opens 1)])
  = Some (1200%Z, true).
Proof.
  apply (waitForRelayOpen_final (Some one_relay) 5000%Z connecting
           [SocketTask 1200 (Opens 1)]).
  vm_compute. reflexivity.
Defined.

(** The time of a resolution under a queue in which the timer stands in
    order: never after [timeout], and the timer leaves nothing pending. *)
Lemma bounded_run timeout list : ∀ q fired st,
  (0 ≤ timeout)%Z →
  timer_in_order timeout fired q = true →
  armed st.2 →
  (fired = true → is_Some (resolved st.2)) →
  (∀ t b, resolved st.2 = Some (t, b) → (t ≤ timeout)%Z) →
  let w := (foldl (deliver timeout list) st q).2 in
  (fired = true ∨ TimerTask ∈ q → is_Some (resolved w)) ∧
  (∀ t b, resolved w = Some (t, b) → (t ≤ timeout)%Z).
Proof.
  induction q as [|task q IH]; intros fired st H0 Hord Harmed Hfired Hle; simpl.
  - split; [|done]. intros [Hf|Hin]; [by apply Hfired|]. set_solver.
  - destruct st as [rs w]. simpl in *.
    destruct task as [now e|]; simpl in Hord.
    + apply andb_true_iff in Hord as [Hnow Hord].
      edestruct (IH fired (deliver timeout list (rs, w) (SocketTask now e)))
        as [Hsome Hbound]; [done|exact Hord| | | |].
      * by apply (deliver_armed timeout list (rs, w)).
      * intros Hf. destruct (Hfired Hf) as [v Hv].
        exists v. by apply (deliver_sticky timeout list (rs, w)).
      * intros t b. destruct (resolved w) as [v|] eqn:Hw.
        { rewrite (deliver_sticky timeout list (rs, w) _ v Hw).
          intros [= ->]. by eapply Hle. }
        destruct fired; [by destruct (Hfired eq_refl)|].
        destruct e as [ws|ws r]; simpl; [|by rewrite Hw].
        case_bool_decide; simpl; [|by rewrite Hw].
        unfold onOpen. simpl. rewrite Hw.
        destruct (some_open _ _); simpl; [|done].
        intros [= <- <-]. lia.
      * split; [|exact Hbound]. intros [Hf|Hin]; apply Hsome; [by left|].
        right. set_solver.
    + apply andb_true_iff in Hord as [Hf Hord].
      destruct fired; [done|].
      edestruct (IH true (deliver timeout list (rs, w) TimerTask))
        as [Hsome Hbound]; [done|exact Hord| | | |].
      * by apply (deliver_armed timeout list (rs, w)).
      * intros _. simpl. unfold onTimeout, armed in *.
        destruct (timer w) eqn:Et.
        { destruct (resolved w); simpl; by eexists. }
        destruct (resolved w); [by eexists|]. by specialize (Harmed eq_refl).
      * intros t b. simpl. unfold onTimeout.
        destruct (timer w); [|by apply Hle].
        destruct (resolved w) as [v|] eqn:Hw; simpl.
        { intros [= ->]. by eapply Hle. }
        intros [= <- <-]. lia.
      * split; [|exact Hbound]. intros _. apply Hsome. by left.
Qed.

(** X2.  The probe is bounded: once the timer task has run the promise is
    settled, and it is never settled at a time after [timeout]. *)
Theorem waitForRelayOpen_bounded sockets timeout rs queue :
  (0 ≤ timeout)%Z →
  timer_in_order timeout false queue = true →
  TimerTask ∈ queue →
  ∃ t ok, waitForRelayOpen sockets timeout rs queue = Some (t, ok) ∧ (t ≤ timeout)%Z.
Proof.
  intros H0 Hord Hin. unfold waitForRelayOpen.
  case_bool_decide; [by exists 0%Z, true|].
  destruct (bounded_run timeout (socket_list sockets) queue false
              (rs, executor rs (socket_list sockets))) as [Hsome Hbound];
    [done|done|apply executor_armed|done| |].
  - intros t b. simpl. unfold executor.
    assert (Hgen : ∀ l w, (∀ t b, resolved w = Some (t, b) → (t ≤ timeout)%Z) →
              ∀ t b, resolved (foldl (subscribe rs (socket_list sockets)) w l)
                     = Some (t, b) → (t ≤ timeout)%Z).
    { induction l as [|ws l IH]; intros w Hw; simpl; [done|].
      apply IH. unfold subscribe. case_bool_decide; simpl; [|done].
      unfold onOpen. destruct (resolved w) eqn:Er; [by rewrite Er|].
      destruct (some_open _ _); simpl; [|by rewrite Er].
      intros ?? [= <- <-]. done. }
    apply Hgen. done.
  - destruct (Hsome (or_intror Hin)) as [[t ok] Hv].
    exists t, ok. split; [done|]. by eapply Hbound.
Qed.

Lemma waitForRelayOpen_bounded_witness :
  ∃ t ok,
    waitForRelayOpen (Some one_relay) 5000 connecting
      [SocketTask 4999 (Becomes 1 CLOSING); TimerTask; SocketTask 7000 (Opens 1)]
    = Some (t, ok) ∧ (t ≤ 5000)%Z.
Proof.
  apply (waitForRelayOpen_bounded (Some one_relay) 5000%Z connecting).
  - lia.
  - reflexivity.
  - set_solver.
Defined.

(** Only the timer resolves with false, and then at [timeout]. *)
Lemma false_only_by_timer timeout list : ∀ q st,
  (∀ t, resolved st.2 = Some (t, false) → t = timeout) →
  ∀ t, resolved (foldl (deliver timeout list) st q).2 = Some (t, false) → t = timeout.
Proof.
  induction q as [|task q IH]; intros st Hst; simpl; [done|].
  apply IH. destruct st as [rs w]. simpl in *. intros t.
  destruct (resolved w) as [v|] eqn:Hw.
  { rewrite (deliver_sticky timeout list (rs, w) _ v Hw). intros [= ->]. by apply Hst. }
  destruct task as [now [ws|ws r]|]; simpl.
  - case_bool_decide; simpl; [|by rewrite Hw].
    unfold onOpen. simpl. rewrite Hw.
    destruct (some_open _ _); simpl; done.
  - by rewrite Hw.
  - unfold onTimeout. destruct (timer w); [|by rewrite Hw]. rewrite Hw. simpl.
    by intros [= <- _].
Qed.

Lemma true_without_timer timeout list : ∀ q st,
  TimerTask ∉ q →
  (∀ t b, resolved st.2 = Some (t, b) → b = true) →
  ∀ t b, resolved (foldl (deliver timeout list) st q).2 = Some (t, b) → b = true.
Proof.
  induction q as [|task q IH]; intros st Hno Hst; simpl; [done|].
  apply IH; [set_solver|].
  destruct st as [rs w]. simpl in *. intros t b.
  destruct (resolved w) as [v|] eqn:Hw.
  { rewrite (deliver_sticky timeout list (rs, w) _ v Hw). intros [= ->]. by eapply Hst. }
  destruct task as [now [ws|ws r]|]; simpl.
  - case_bool_decide; simpl; [|by rewrite Hw].
    unfold onOpen. simpl. rewrite Hw.
    destruct (some_open _ _); simpl; [|done]. by intros [= _ <-].
  - by rewrite Hw.
  - set_solver.
Qed.

Lemma executor_true rs list t b :
  resolved (executor rs list) = Some (t, b) → t = 0%Z ∧ b = true.
Proof.
  unfold executor.
  assert (Hgen : ∀ l w, (∀ t b, resolved w = Some (t, b) → t = 0%Z ∧ b = true) →
            ∀ t b, resolved (foldl (subscribe rs list) w l) = Some (t, b) →
                   t = 0%Z ∧ b = true).
  { induction l as [|ws l IH]; intros w Hw; simpl; [done|].
    apply IH. unfold subscribe. case_bool_decide; simpl; [|done].
    unfold onOpen. destruct (resolved w) eqn:Er; [by rewrite Er|].
    destruct (some_open _ _); simpl; [|by rewrite Er].
    by intros ?? [= <- <-]. }
  revert t b. apply Hgen. done.
Qed.

(** X3.  A candidate is never reported unhealthy early: the promise
    resolves with false only through the timer task and only when none of
    the sockets was OPEN at the call; and for a delay that [setTimeout]
    applies as it is given, from 1 ms to 2^31-1 ms, as the default of 5000
    is, it does so at time [timeout]. *)
Theorem waitForRelayOpen_false_only_at_timeout sockets timeout rs queue t :
  waitForRelayOpen sockets timeout rs queue = Some (t, false) →
  TimerTask ∈ queue ∧ some_open rs (socket_list sockets) = false ∧
  (delay_honoured timeout → t = timeout).
Proof.
  unfold waitForRelayOpen. case_bool_decide; [done|]. intros Hres.
  split; [|split].
  - destruct (decide (TimerTask ∈ queue)) as [|Hno]; [done|]. exfalso.
    assert (false = true); [|done].
    eapply (true_without_timer timeout (socket_list sockets) queue
              (rs, executor rs (socket_list sockets)) Hno); [|exact Hres].
    intros t' b E. by apply executor_true in E as [_ ->].
  - destruct (some_open rs (socket_list sockets)) eqn:Hopen; [|done]. exfalso.
    destruct sockets as [m|]; [|done].
    pose proof (wait_already_open m timeout rs queue Hopen) as Hw.
    unfold waitForRelayOpen in Hw. rewrite bool_decide_eq_false_2 in Hw by done.
    simpl in *. congruence.
  - intros _.
    eapply (false_only_by_timer timeout (socket_list sockets) queue
              (rs, executor rs (socket_list sockets))); [|exact Hres].
    simpl. intros t' E. by apply executor_true in E as [_ ?].
Qed.

Lemma waitForRelayOpen_false_only_at_timeout_witness :
  TimerTask ∈ [SocketTask 100 (Opens 2); TimerTask; SocketTask 5001 (Opens 1)] ∧
  some_open connecting (socket_list (Some one_relay)) = false ∧
  (delay_honoured default_timeout → 5000%Z = default_timeout).
Proof.
  apply (waitForRelayOpen_false_only_at_timeout (Some one_relay) default_timeout
           connecting
           [SocketTask 100 (Opens 2); TimerTask; SocketTask 5001 (Opens 1)] 5000%Z).
  vm_compute. reflexivity.
Defined.

(** The default delay is one of those. *)
Example default_timeout_honoured : delay_honoured default_timeout.
Proof. unfold delay_honoured, default_timeout. lia. Qed.

(** The closure's bookkeeping. *)
Lemma onOpen_bookkeeping now rs list w :
  (timer w = true ↔ resolved w = None) →
  (timer (onOpen now rs list w) = true ↔ resolved (onOpen now rs list w) = None).
Proof.
  intros Hw. unfold onOpen. destruct (resolved w) eqn:Er.
  - by rewrite Er.
  - destruct (some_open rs list); simpl; [done|]. by rewrite Er.
Qed.

Lemma closure_invariant timeout list rs : ∀ q,
  let w := closure_after timeout list rs q in
  (timer w = true ↔ resolved w = None).
Proof.
  intros q. unfold closure_after.
  assert (Hinv : ∀ q st, (timer st.2 = true ↔ resolved st.2 = None) →
            let w := (foldl (deliver timeout list) st q).2 in
            timer w = true ↔ resolved w = None).
  { clear q. induction q as [|task q IH]; intros st Hst; simpl; [done|].
    apply IH. destruct st as [rs' w]. simpl in *.
    destruct task as [now [ws|ws r]|]; simpl; [|done|].
    - case_bool_decide; simpl; [|done]. by apply onOpen_bookkeeping.
    - unfold onTimeout. destruct (timer w) eqn:Et; [|by rewrite Et].
      destruct (resolved w) eqn:Er; simpl; naive_solver. }
  apply Hinv. simpl. unfold executor.
  assert (Hgen : ∀ l w, (timer w = true ↔ resolved w = None) →
            let w' := foldl (subscribe rs list) w l in
            timer w' = true ↔ resolved w' = None).
  { induction l as [|ws l IH]; intros w Hw; simpl; [done|].
    apply IH. unfold subscribe. case_bool_decide; simpl; [|done].
    by apply onOpen_bookkeeping. }
  apply Hgen. done.
Qed.

(** X4.  The timeout is scheduled exactly as long as the promise is
    pending: it is armed at the call, cleared by an early success, spent by
    its own callback, and never armed again. *)
Theorem timer_pending_iff_unresolved timeout socks rs queue :
  timer (closure_after timeout socks rs queue) = true
  ↔ resolved (closure_after timeout socks rs queue) = None.
Proof. apply closure_invariant. Qed.

Lemma listeners_invariant timeout list : ∀ q st,
  openListeners st.2 ⊆ list_to_set list →
  (resolved st.2 ≠ None → openListeners st.2 = ∅) →
  let w := (foldl (deliver timeout list) st q).2 in
  openListeners w ⊆ list_to_set list ∧ (resolved w ≠ None → openListeners w = ∅).
Proof.
  induction q as [|task q IH]; intros st Hsub Hres; simpl; [done|].
  destruct st as [rs w]. simpl in *.
  destruct task as [now [ws|ws r]|]; simpl.
  - case_bool_decide as Hin; simpl; [|by apply IH].
    destruct (resolved w) as [v|] eqn:Er.
    { rewrite Hres in Hin by done. set_solver. }
    apply IH; unfold onOpen; simpl;
      (destruct (some_open _ _); simpl; [set_solver|]).
    + set_solver.
    + done.
  - by apply IH.
  - apply IH; unfold onTimeout; (destruct (timer w); [|done]);
      destruct (resolved w) as [v|] eqn:Er; simpl; set_solver.
Qed.

(** X5.  When no socket is OPEN at the call, the closure's "open" listeners
    sit on sockets of the list only, and once the promise has resolved
    (through an "open" event or through the timer) none of them is left on
    any socket. *)
Theorem cleanup_removes_every_listener timeout socks rs queue :
  some_open rs socks = false →
  openListeners (closure_after timeout socks rs queue) ⊆ list_to_set socks ∧
  (resolved (closure_after timeout socks rs queue) ≠ None →
   openListeners (closure_after timeout socks rs queue) = ∅).
Proof.
  intros Hno. unfold closure_after. rewrite executor_pending by done.
  apply listeners_invariant; simpl; [done|]. done.
Qed.

Lemma cleanup_removes_every_listener_witness :
  openListeners (closure_after 5000 [1; 2; 3] connecting
                   [SocketTask 10 (Opens 2); SocketTask 20 (Becomes 2 CLOSED)])
  ⊆ list_to_set [1; 2; 3] ∧
  (resolved (closure_after 5000 [1; 2; 3] connecting
               [SocketTask 10 (Opens 2); SocketTask 20 (Becomes 2 CLOSED)]) ≠ None →
   openListeners (closure_after 5000 [1; 2; 3] connecting
                    [SocketTask 10 (Opens 2); SocketTask 20 (Becomes 2 CLOSED)]) = ∅).
Proof.
  apply (cleanup_removes_every_listener 5000%Z [1; 2; 3] connecting).
  reflexivity.
Defined.

Lemma subscribe_after_resolution rs list v : ∀ l acc,
  foldl (subscribe rs list) (MkWait (Some v) false acc) l
  = MkWait (Some v) false
      (list_to_set (filter (λ ws, rs ws ≠ OPEN) l) ∪ acc).
Proof.
  induction l as [|ws l IH]; intros acc; simpl.
  - f_equal. set_solver.
  - unfold subscribe at 2. case_bool_decide as Hopen; simpl.
    + unfold onOpen. simpl. rewrite IH.
      rewrite filter_cons_False by naive_solver. done.
    + rewrite IH. rewrite filter_cons_True by done. f_equal. set_solver.
Qed.

(** X6.  When a socket of the list is OPEN at the call, the promise
    resolves inside the [forEach] and [cleanup] runs there; the sockets that
    come later in the list and are not OPEN still get [onOpen] as a
    listener, and those listeners are what the call leaves behind. *)
Theorem listeners_added_after_resolution_stay rs l1 ws l2 :
  rs ws = OPEN →
  (∀ w, w ∈ l1 → rs w ≠ OPEN) →
  executor rs (l1 ++ ws :: l2)
  = MkWait (Some (0%Z, true)) false
      (list_to_set (filter (λ w, rs w ≠ OPEN) l2)).
Proof.
  intros Hws Hl1. unfold executor. rewrite foldl_app.
  rewrite subscribe_all by done. simpl.
  unfold subscribe at 2. rewrite bool_decide_eq_true_2 by done.
  unfold onOpen. simpl.
  replace (some_open rs (l1 ++ ws :: l2)) with true.
  2:{ symmetry. apply some_open_true. exists ws. split; [set_solver|done]. }
  unfold cleanup. simpl. rewrite subscribe_after_resolution. f_equal.
  set_solver.
Qed.

Lemma listeners_added_after_resolution_stay_witness :
  executor (<[2 := OPEN]> connecting) ([1] ++ 2 :: [3; 4])
  = MkWait (Some (0%Z, true)) false
      (list_to_set (filter (λ w, (<[2 := OPEN]> connecting) w ≠ OPEN) [3; 4])).
Proof.
  apply (listeners_added_after_resolution_stay (<[2 := OPEN]> connecting) [1] 2 [3; 4]).
  - reflexivity.
  - intros w Hw. apply list_elem_of_singleton in Hw as ->. discriminate.
Defined.

(** * Further properties of the scan *)

Lemma logs_nil σ : logs [] σ = σ.
Proof. unfold logs. rewrite app_nil_r. by destruct σ. Qed.

Lemma rooms_joined_app t1 t2 : rooms_joined (t1 ++ t2) = rooms_joined t1 ++ rooms_joined t2.
Proof. apply omap_app. Qed.

Lemma rooms_left_app t1 t2 : rooms_left (t1 ++ t2) = rooms_left t1 ++ rooms_left t2.
Proof. apply omap_app. Qed.

Lemma calls_no_handler_app t1 t2 :
  calls_no_handler t1 → calls_no_handler t2 → calls_no_handler (t1 ++ t2).
Proof.
  intros H1 H2 fn rm strat Hin. apply elem_of_app in Hin as [Hin|Hin].
  - by apply (H1 fn rm strat).
  - by apply (H2 fn rm strat).
Qed.

Lemma rooms_joined_at_app keep t1 t2 :
  rooms_joined_at keep (t1 ++ t2) = rooms_joined_at keep t1 ++ rooms_joined_at keep t2.
Proof. apply omap_app. Qed.

Lemma rooms_joined_at_all keep tr :
  (∀ i, keep i = true) → rooms_joined_at keep tr = rooms_joined tr.
Proof.
  intros Hall. induction tr as [|o tr IH]; [done|].
  unfold rooms_joined_at, rooms_joined in *. cbn [omap list_omap].
  destruct o; rewrite ?Hall, IH; done.
Qed.

Lemma iteration_no_handler i a : calls_no_handler (iteration_trace i a).
Proof.
  intros fn rm strat. unfold iteration_trace.
  destruct (loads a) as [md|]; [|set_solver].
  destruct (joinRoom md) as [rm'|]; [|set_solver].
  destruct (raises md); [set_solver|].
  destruct (waitForRelayOpen _ _ _ _) as [[t []]|]; set_solver.
Qed.

(** What a scan does to the session, by the way it ends. *)
Lemma connect_loop_shape env rest : ∀ i σ,
  ∃ tr,
    calls_no_handler tr ∧ (ErrorLogged ∉ tr) ∧
    match (connect_loop env rest i σ).2 with
    | Some (Resolved rm strat) =>
        rooms_joined_at (probed env) tr = rooms_left tr ++ [rm] ∧
        ∃ n md, rest !! n = Some strat ∧ loads (env (i + n)) = Some md ∧
                joinRoom md = Some rm ∧
                (connect_loop env rest i σ).1
                = watchSockets (getRelaySockets md) (adopt rm md (logs tr σ))
    | Some (Rejected _) =>
        rooms_joined_at (probed env) tr = rooms_left tr ∧
        (connect_loop env rest i σ).1 = logs tr σ
    | None =>
        (∃ rm, rooms_joined_at (probed env) tr = rooms_left tr ++ [rm]) ∧
        (connect_loop env rest i σ).1 = logs tr σ
    end.
Proof.
  induction rest as [|s rest IH]; intros i σ.
  - exists []. simpl. rewrite logs_nil.
    split; [intros ???; set_solver|]. split; [set_solver|done].
  - assert (Hnext : ∀ tr0,
      calls_no_handler tr0 → ErrorLogged ∉ tr0 →
      rooms_joined_at (probed env) tr0 = rooms_left tr0 →
      ∃ tr,
        calls_no_handler tr ∧ (ErrorLogged ∉ tr) ∧
        match (connect_loop env rest (S i) (logs tr0 σ)).2 with
        | Some (Resolved rm strat) =>
            rooms_joined_at (probed env) tr = rooms_left tr ++ [rm] ∧
            ∃ n md, (s :: rest) !! n = Some strat ∧ loads (env (i + n)) = Some md ∧
                    joinRoom md = Some rm ∧
                    (connect_loop env rest (S i) (logs tr0 σ)).1
                    = watchSockets (getRelaySockets md) (adopt rm md (logs tr σ))
        | Some (Rejected _) =>
            rooms_joined_at (probed env) tr = rooms_left tr ∧
            (connect_loop env rest (S i) (logs tr0 σ)).1 = logs tr σ
        | None =>
            (∃ rm, rooms_joined_at (probed env) tr = rooms_left tr ++ [rm]) ∧
            (connect_loop env rest (S i) (logs tr0 σ)).1 = logs tr σ
        end).
    { intros tr0 Hh0 He0 Hb0.
      destruct (IH (S i) (logs tr0 σ)) as (tr & Hh & He & Hm).
      exists (tr0 ++ tr). split; [by apply calls_no_handler_app|].
      split; [set_solver|].
      rewrite rooms_joined_at_app, rooms_left_app, Hb0, <- logs_logs.
      destruct (connect_loop env rest (S i) (logs tr0 σ)).2 as [[rm strat|e]|].
      - destruct Hm as (Hb & n & md & Hn & Hl & Hj & Hs).
        split; [by rewrite Hb, app_assoc|].
        exists (S n), md. replace (i + S n) with (S i + n) by lia. done.
      - destruct Hm as [Hb Hs]. by rewrite Hb.
      - destruct Hm as [[rm Hb] Hs]. split; [|done].
        exists rm. by rewrite Hb, app_assoc. }
    simpl. destruct (loads (env i)) as [md|] eqn:Hl.
    2:{ rewrite log_logs. apply Hnext; [intros ???|..]; set_solver. }
    assert (Hp : probed env i = negb (raises md)) by (unfold probed; by rewrite Hl).
    destruct (joinRoom md) as [rm|] eqn:Hj.
    2:{ rewrite !log_logs, logs_logs. apply Hnext; [intros ???|..]; set_solver. }
    destruct (raises md) eqn:Hr.
    { rewrite !log_logs, logs_logs.
      apply Hnext; [intros ???; set_solver|set_solver|].
      unfold rooms_joined_at. simpl. by rewrite Hp. }
    destruct (waitForRelayOpen _ _ _ _) as [[t []]|] eqn:Hw; simpl.
    + exists [LoadCalled i; JoinReturned i rm].
      split; [intros ???; set_solver|]. split; [set_solver|].
      split; [unfold rooms_joined_at; simpl; by rewrite Hp|].
      exists 0, md. rewrite Nat.add_0_r.
      by rewrite !log_logs, logs_logs.
    + rewrite !log_logs, !logs_logs.
      apply Hnext; [intros ???; set_solver|set_solver|].
      unfold rooms_joined_at. simpl. by rewrite Hp.
    + exists [LoadCalled i; JoinReturned i rm].
      split; [intros ???; set_solver|]. split; [set_solver|].
      split; [|by rewrite !log_logs, logs_logs].
      exists rm. unfold rooms_joined_at. simpl. by rewrite Hp.
Qed.

(** X7.  Whatever the environment does, [connect] calls [leave()] on the
    rooms whose probe it has awaited and found unhealthy, once each, in the
    order of the joins, and on no other room: when it rejects, the rooms it
    has left are those it joined through modules whose [getRelaySockets]
    did not throw; when it resolves, those but the room it returns; while
    it is suspended in a probe, those but the room under probe.  A room
    joined through a module whose [getRelaySockets] throws at line 88 is
    not left.  When no module throws there, every joined room is accounted
    for in this way. *)
Theorem connect_leaves_the_rooms_it_probed reg env startIndex σ :
  ∃ tr,
    trace (connect reg env startIndex σ).1 = trace σ ++ tr ∧
    match (connect reg env startIndex σ).2 with
    | Some (Resolved rm _) => rooms_joined_at (probed env) tr = rooms_left tr ++ [rm]
    | Some (Rejected _) => rooms_joined_at (probed env) tr = rooms_left tr
    | None => ∃ rm, rooms_joined_at (probed env) tr = rooms_left tr ++ [rm]
    end ∧
    ((∀ i, probed env i = true) → rooms_joined_at (probed env) tr = rooms_joined tr).
Proof.
  unfold connect.
  destruct (connect_loop_shape env (drop startIndex reg) startIndex σ)
    as (tr & _ & _ & Hm).
  exists tr. split; [|split; [|apply rooms_joined_at_all]].
  - destruct (connect_loop env (drop startIndex reg) startIndex σ)
      as [σ' [[rm strat|e]|]]; simpl in *.
    + by destruct Hm as (Hb & n & md & _ & _ & _ & ->).
    + by destruct Hm as [Hb ->].
    + by destruct Hm as [Hb ->].
  - destruct (connect_loop env (drop startIndex reg) startIndex σ)
      as [σ' [[rm strat|e]|]]; simpl in *; by destruct Hm.
Qed.

(** The room joined through a module that throws at line 88 stays joined:
    room 5 of "nostr" is never left, and "torrent" takes over. *)
Example abandoned_room :
  (connect two getter_broken 0 fresh).2 = Some (Resolved 2 "torrent") ∧
  trace (connect two getter_broken 0 fresh).1
  = [LoadCalled 0; JoinReturned 0 5; LoadCalled 1; JoinReturned 1 2] ∧
  probed getter_broken 0 = false.
Proof. vm_compute. done. Qed.

(** X8.  A call of [connect] that rejects changes nothing of the session
    but the trace: [currentRoom], [currentModule] and the watched sockets
    are those of before, no handler is called and nothing is logged as an
    error by [connect] itself.  A call that resolves with the room of
    strategy [k] makes that room and the module loaded for [k] current and
    adds the sockets of that module to the watched ones, and nothing else. *)
Theorem connect_frame reg env startIndex σ :
  ∃ tr,
    calls_no_handler tr ∧ (ErrorLogged ∉ tr) ∧
    match (connect reg env startIndex σ).2 with
    | Some (Resolved rm strat) =>
        ∃ k md, startIndex ≤ k ∧ reg !! k = Some strat ∧
                loads (env k) = Some md ∧ joinRoom md = Some rm ∧
                (connect reg env startIndex σ).1
                = watchSockets (getRelaySockets md) (adopt rm md (logs tr σ))
    | _ => (connect reg env startIndex σ).1 = logs tr σ
    end.
Proof.
  unfold connect.
  destruct (connect_loop_shape env (drop startIndex reg) startIndex σ)
    as (tr & Hh & He & Hm).
  exists tr. split; [done|]. split; [done|].
  destruct (connect_loop env (drop startIndex reg) startIndex σ) as [σ' [[rm strat|e]|]];
    simpl in *.
  - destruct Hm as (_ & n & md & Hn & Hl & Hj & Hs).
    exists (startIndex + n), md. rewrite lookup_drop in Hn.
    split; [lia|]. done.
  - by destruct Hm.
  - by destruct Hm.
Qed.

(** A start index at or past the end of the registry, hence also any
    start index over an empty registry, makes [connect] reject at once:
    nothing is loaded and the session is untouched; over an empty registry
    [joinRoomWithFallback] throws without an observation. *)
Theorem connect_past_the_end :
  (∀ reg env startIndex σ,
     length reg ≤ startIndex →
     connect reg env startIndex σ = (σ, Some (Rejected all_failed))) ∧
  step [] (joinRoomWithFallback []) (ConnectSettles 0)
  = Some (MkMachine fresh (Some (Threw all_failed)) [(Construction, Finished)]).
Proof.
  split; [|done].
  intros reg env startIndex σ Hlen. unfold connect. by rewrite drop_ge.
Qed.

Lemma connect_past_the_end_witness :
  connect strategies scenario 4 fresh = (fresh, Some (Rejected all_failed)).
Proof. apply (proj1 connect_past_the_end). simpl. lia. Defined.

(** * Further properties of the session *)

Lemma iterate_logs reg i σ : ∃ tr, (iterate reg i σ).1 = logs tr σ.
Proof.
  unfold iterate. destruct (reg !! i).
  - by exists [LoadCalled i].
  - exists []. by rewrite logs_nil.
Qed.

Lemma resume_load_logs reg i strat res σ :
  ∃ tr, (resume_load reg i strat res σ).1 = logs tr σ.
Proof.
  unfold resume_load. destruct res as [md|]; [|apply iterate_logs].
  destruct (joinRoom md) as [rm|].
  - destruct (raises md); [|by exists [JoinReturned i rm]].
    destruct (iterate_logs reg (S i) (log (JoinReturned i rm) σ)) as [tr ->].
    exists ([JoinReturned i rm] ++ tr). by rewrite log_logs, logs_logs.
  - destruct (iterate_logs reg (S i) (log (JoinThrew i) σ)) as [tr ->].
    exists ([JoinThrew i] ++ tr). by rewrite log_logs, logs_logs.
Qed.

Lemma resume_reconnect_logs thrown r σ : ∃ tr, resume_reconnect thrown r σ = logs tr σ.
Proof.
  destruct r as [rm strat|e]; simpl.
  - rewrite dispatch_logs. destruct (throws thrown (reconnectHandlers σ)).
    + rewrite log_logs, logs_logs. by eexists.
    + by eexists.
  - by exists [ErrorLogged].
Qed.

Lemma iterate_point reg i σ rm strat :
  (iterate reg i σ).2 ≠ AwaitConnect (Resolved rm strat).
Proof. unfold iterate. by destruct (reg !! i). Qed.

Lemma resume_load_point reg i s res σ rm strat :
  (resume_load reg i s res σ).2 ≠ AwaitConnect (Resolved rm strat).
Proof.
  unfold resume_load. destruct res as [md|]; [|apply iterate_point].
  destruct (joinRoom md); [|apply iterate_point].
  destruct (raises md); [apply iterate_point|done].
Qed.

(** What a step does to the session: it logs, or it adopts a probed
    candidate, or it is one of the two methods of the facade. *)
Lemma step_session reg m l m' :
  step reg m l = Some m' →
  (∃ tr, session m' = logs tr (session m) ∧
         ∀ c who rm strat,
           calls m' !! c = Some (who, AwaitConnect (Resolved rm strat)) →
           calls m !! c = Some (who, AwaitConnect (Resolved rm strat))) ∨
  (∃ c who i strat md rm,
     calls m !! c = Some (who, AwaitProbe i strat md rm) ∧
     session m' = watchSockets (getRelaySockets md) (adopt rm md (session m))) ∨
  (∃ h, l = CallOnReconnect h ∧ session m' = onReconnect h (session m) ∧
        calls m' = calls m) ∨
  (l = CallLeave ∧ session m' = leave (session m) ∧ calls m' = calls m).
Proof.
  assert (Hins : ∀ c who p,
    (∀ rm strat, p ≠ AwaitConnect (Resolved rm strat)) →
    ∀ c' who' rm strat,
      <[c := (who, p)]> (calls m) !! c' = Some (who', AwaitConnect (Resolved rm strat)) →
      calls m !! c' = Some (who', AwaitConnect (Resolved rm strat))).
  { intros c who p Hp c' who' rm strat Hc'.
    apply list_lookup_insert_Some in Hc' as [(_ & [= _ ->] & _) | (_ & Hc')]; [|done].
    by destruct (Hp rm strat). }
  assert (Happ : ∀ p,
    (∀ rm strat, p ≠ AwaitConnect (Resolved rm strat)) →
    ∀ c' who' rm strat,
      (calls m ++ [(Reconnection, p)]) !! c' = Some (who', AwaitConnect (Resolved rm strat)) →
      calls m !! c' = Some (who', AwaitConnect (Resolved rm strat))).
  { intros p Hp c' who' rm strat Hc'.
    apply lookup_app_Some in Hc' as [Hc' | [_ Hc']]; [done|].
    apply list_lookup_singleton_Some in Hc' as [_ [= _ ->]].
    by destruct (Hp rm strat). }
  destruct l as [c res|c rs q|c|c|c k|ws|ws|h|]; simpl.
  - destruct (calls m !! c) as [[who []]|] eqn:Hc; try done.
    intros [= <-]. left. simpl.
    destruct (resume_load_logs reg i strat res (session m)) as [tr Htr].
    exists tr. split; [done|]. apply Hins. intros ??. apply resume_load_point.
  - destruct (calls m !! c) as [[who []]|] eqn:Hc; try done.
    destruct (waitForRelayOpen _ _ _ _) as [[t [|]]|]; [| |done]; intros [= <-].
    + right; left. by exists c, who, i, strat, md, rm.
    + left. exists [LeaveCalled rm]. split; [done|]. simpl. by apply Hins.
  - destruct (calls m !! c) as [[who []]|] eqn:Hc; try done.
    intros [= <-]. left. simpl.
    destruct (iterate_logs reg (S i) (session m)) as [tr Htr].
    exists tr. split; [done|]. apply Hins. intros ??. apply iterate_point.
  - destruct (calls m !! c) as [[[] []]|] eqn:Hc; try done; intros [= <-]; left; simpl.
    + exists []. rewrite logs_nil. split; [done|]. by apply Hins.
    + destruct (resume_reconnect_logs None r (session m)) as [tr Htr].
      exists tr. split; [done|]. by apply Hins.
  - destruct (calls m !! c) as [[[] [| | |[]|]]|] eqn:Hc; try done.
    case_bool_decide as Hk; [|done]. intros [= <-]. left.
    destruct (resume_reconnect_logs (Some k) (Resolved rm strat) (session m))
      as [tr Htr].
    exists tr. split; [|by apply Hins]. rewrite <- Htr. simpl.
    by rewrite bool_decide_eq_true_2.
  - case_bool_decide; intros [= <-].
    2:{ left. exists []. by rewrite logs_nil. }
    unfold handleDisconnect. destruct (active (session m)); simpl.
    2:{ left. exists []. by rewrite logs_nil. }
    pose proof (iterate_logs reg 0 (session m)) as [tr Htr].
    pose proof (iterate_point reg 0 (session m)) as Hp.
    destruct (iterate reg 0 (session m)) as [σ p]. simpl in *.
    left. exists tr. split; [done|]. by apply Happ.
  - case_bool_decide; intros [= <-].
    2:{ left. exists []. by rewrite logs_nil. }
    unfold handleDisconnect. destruct (active (session m)); simpl.
    2:{ left. exists []. by rewrite logs_nil. }
    pose proof (iterate_logs reg 0 (session m)) as [tr Htr].
    pose proof (iterate_point reg 0 (session m)) as Hp.
    destruct (iterate reg 0 (session m)) as [σ p]. simpl in *.
    left. exists tr. split; [done|]. by apply Happ.
  - destruct (built m) as [[]|]; try done. intros [= <-].
    right; right; left. by exists h.
  - destruct (built m) as [[]|]; try done. intros [= <-].
    by right; right; right.
Qed.

Lemma leave_current σ :
  currentRoom (leave σ) = currentRoom σ ∧ currentModule (leave σ) = currentModule σ ∧
  active (leave σ) = false.
Proof.
  unfold leave.
  by destruct (currentModule σ) as [md|], (currentRoom σ); [destruct (raises md)|..].
Qed.

(** [leave()] reaches line 138 when the current module does not throw at
    line 133. *)
Lemma leave_reaches_the_room σ rm :
  currentRoom σ = Some rm →
  (∀ md, currentModule σ = Some md → raises md = false) →
  trace (leave σ) = trace σ ++ [LeaveCalled rm].
Proof.
  intros Hrm Hmd. unfold leave. rewrite Hrm.
  destruct (currentModule σ) as [md|]; [|done].
  by rewrite (Hmd md eq_refl).
Qed.

(** ** Where rooms and modules come from *)

Lemma point_ok_mono reg tr tr' p : point_ok reg tr p → point_ok reg (tr ++ tr') p.
Proof.
  destruct p as [| | |[rm strat|]|]; simpl; try done.
  - intros (? & ? & ? & ?). repeat split; try done. apply elem_of_app. by left.
  - intros (i & ? & ?). exists i. split; [done|]. apply elem_of_app. by left.
Qed.

Lemma iterate_ok reg i σ : point_ok reg (trace (iterate reg i σ).1) (iterate reg i σ).2.
Proof. unfold iterate. by destruct (reg !! i) eqn:E. Qed.

Lemma resume_load_ok reg i strat res σ :
  reg !! i = Some strat →
  point_ok reg (trace (resume_load reg i strat res σ).1) (resume_load reg i strat res σ).2.
Proof.
  intros Hi. unfold resume_load. destruct res as [md|]; [|apply iterate_ok].
  destruct (joinRoom md) as [rm|] eqn:Hj; [|apply iterate_ok].
  destruct (raises md) eqn:Hr; [apply iterate_ok|]. simpl.
  repeat split; try done. set_solver.
Qed.

Lemma resume_probe_ok reg i strat md rm ok σ :
  point_ok reg (trace σ) (AwaitProbe i strat md rm) →
  point_ok reg (trace (resume_probe i strat md rm ok σ).1)
           (resume_probe i strat md rm ok σ).2.
Proof. intros (_ & _ & Hi & Hin). destruct ok; simpl; [by exists i|done]. Qed.

Lemma sound_intro reg m m' tr :
  sound reg m →
  trace (session m') = trace (session m) ++ tr →
  (∀ md, currentModule (session m') = Some md →
     currentModule (session m) = Some md ∨
     ∃ c who i strat rm, calls m !! c = Some (who, AwaitProbe i strat md rm)) →
  (∀ c who p, calls m' !! c = Some (who, p) →
     calls m !! c = Some (who, p) ∨ point_ok reg (trace (session m')) p) →
  (∀ fr, built m' = Some (Returned fr) →
     built m = Some (Returned fr) ∨
     ∃ c who, calls m !! c
              = Some (who, AwaitConnect (Resolved (room fr) (strategy fr)))) →
  sound reg m'.
Proof.
  intros (Hm & Hc & Hb) Htr Hm' Hc' Hb'. split; [|split].
  - intros md Hmd. destruct (Hm' md Hmd) as [H | (c & who & i & strat & rm & H)].
    + by apply Hm.
    + by destruct (Hc c who _ H).
  - intros c who p Hp. destruct (Hc' c who p Hp) as [H | H]; [|done].
    rewrite Htr. apply point_ok_mono. by eapply Hc.
  - intros fr Hfr. destruct (Hb' fr Hfr) as [H | (c & who & H)].
    + destruct (Hb fr H) as (i & ? & ?). exists i. split; [done|].
      rewrite Htr. apply elem_of_app. by left.
    + specialize (Hc c who _ H). simpl in Hc.
      destruct Hc as (i & ? & ?). exists i. split; [done|].
      rewrite Htr. apply elem_of_app. by left.
Qed.

Lemma sound_init reg : sound reg (joinRoomWithFallback reg).
Proof.
  unfold joinRoomWithFallback. pose proof (iterate_ok reg 0 fresh) as Hok.
  destruct (iterate reg 0 fresh) as [σ p] eqn:Hit.
  assert (currentModule σ = None) as Hmd.
  { unfold iterate in Hit. destruct (reg !! 0); by injection Hit as <- _. }
  split; [|split]; simpl.
  - intros md. by rewrite Hmd.
  - intros [|c] who q; simpl; [|done]. by intros [= _ <-].
  - done.
Qed.

Lemma sound_step reg m l m' : sound reg m → step reg m l = Some m' → sound reg m'.
Proof.
  intros Hs. pose proof Hs as (Hm & Hc & Hb).
  assert (Hsusp : ∀ c who (sp : Session * Point) tr,
    sp.1 = logs tr (session m) →
    point_ok reg (trace sp.1) sp.2 →
    sound reg (suspend m c who sp)).
  { intros c who sp tr Hsp Hok. apply (sound_intro reg m _ tr Hs); simpl.
    - by rewrite Hsp.
    - intros md. rewrite Hsp. by left.
    - intros c' who' q Hq. apply list_lookup_insert_Some in Hq
        as [(_ & [= _ <-] & _) | (_ & Hq)]; [by right|by left].
    - by left. }
  assert (Hlogs : ∀ tr cs,
    (∀ c who p, cs !! c = Some (who, p) →
       calls m !! c = Some (who, p) ∨ p = Finished) →
    sound reg (MkMachine (logs tr (session m)) (built m) cs)).
  { intros tr cs Hcs. apply (sound_intro reg m _ tr Hs); simpl.
    - done.
    - by left.
    - intros c who q Hq. destruct (Hcs c who q Hq) as [H | ->]; [by left|by right].
    - by left. }
  assert (Hfin : ∀ c (who : Caller) c' who' p,
    <[c := (who, Finished)]> (calls m) !! c' = Some (who', p) →
    calls m !! c' = Some (who', p) ∨ p = Finished).
  { intros c who c' who' q Hq. apply list_lookup_insert_Some in Hq
      as [(_ & [= _ <-] & _) | (_ & Hq)]; [by right|by left]. }
  assert (Hev : sound reg (handleDisconnect reg m)).
  { unfold handleDisconnect. destruct (active (session m)); simpl; [|done].
    pose proof (iterate_logs reg 0 (session m)) as [tr Htr].
    pose proof (iterate_ok reg 0 (session m)) as Hok.
    destruct (iterate reg 0 (session m)) as [σ p]. simpl in *.
    apply (sound_intro reg m _ tr Hs); simpl.
    - by rewrite Htr.
    - intros md. rewrite Htr. by left.
    - intros c who q Hq. apply lookup_app_Some in Hq as [Hq | [_ Hq]]; [by left|].
      apply list_lookup_singleton_Some in Hq as [_ [= _ <-]]. by right.
    - by left. }
  destruct l as [c res|c rs q|c|c|c k|ws|ws|h|]; simpl.
  - destruct (calls m !! c) as [[who []]|] eqn:Hcc; try done. intros [= <-].
    destruct (resume_load_logs reg i strat res (session m)) as [tr Htr].
    apply (Hsusp _ _ _ tr Htr). apply resume_load_ok. apply (Hc c who _ Hcc).
  - destruct (calls m !! c) as [[who []]|] eqn:Hcc; try done.
    destruct (waitForRelayOpen _ _ _ _) as [[t [|]]|]; [| |done]; intros [= <-].
    + apply (sound_intro reg m _ [] Hs); simpl.
      * by rewrite app_nil_r.
      * intros md' [= <-]. right. by exists c, who, i, strat, rm.
      * intros c' who' p Hp. apply list_lookup_insert_Some in Hp
          as [(_ & [= _ <-] & _) | (_ & Hp)]; [right|by left].
        destruct (Hc c who _ Hcc) as (_ & _ & Hi & Hin). by exists i.
      * by left.
    + by apply (Hsusp c who (log (LeaveCalled rm) (session m), AwaitLeave i)
                  [LeaveCalled rm]).
  - destruct (calls m !! c) as [[who []]|] eqn:Hcc; try done. intros [= <-].
    destruct (iterate_logs reg (S i) (session m)) as [tr Htr].
    apply (Hsusp _ _ _ tr Htr). apply iterate_ok.
  - destruct (calls m !! c) as [[[] []]|] eqn:Hcc; try done; intros [= <-].
    + apply (sound_intro reg m _ [] Hs); simpl.
      * by rewrite app_nil_r.
      * by left.
      * intros c' who' p Hp. destruct (Hfin _ _ _ _ _ Hp) as [H | ->]; [by left|by right].
      * intros fr Hfr. right. exists c, Construction.
        destruct r as [rm strat|e]; simpl in Hfr; [|done].
        by injection Hfr as <-.
    + destruct (resume_reconnect_logs None r (session m)) as [tr ->].
      apply Hlogs. apply Hfin.
  - destruct (calls m !! c) as [[[] [| | |[]|]]|] eqn:Hcc; try done.
    case_bool_decide as Hk; [|done]. intros [= <-].
    destruct (resume_reconnect_logs (Some k) (Resolved rm strat) (session m))
      as [tr Htr].
    simpl in Htr. rewrite bool_decide_eq_true_2 in Htr by done. rewrite Htr.
    apply Hlogs. apply Hfin.
  - case_bool_decide; by intros [= <-].
  - case_bool_decide; by intros [= <-].
  - destruct (built m) as [[]|] eqn:Hbm; try done. intros [= <-].
    apply (sound_intro reg m _ [] Hs); simpl.
    + by rewrite app_nil_r.
    + by left.
    + by left.
    + rewrite Hbm. by left.
  - destruct (built m) as [[]|] eqn:Hbm; try done. intros [= <-].
    destruct (leave_trace (session m)) as (tr & Htr & _).
    destruct (leave_current (session m)) as (_ & Hmd & _).
    apply (sound_intro reg m _ tr Hs); simpl.
    + done.
    + intros md. rewrite Hmd. by left.
    + by left.
    + rewrite Hbm. by left.
Qed.

Lemma sound_run reg : ∀ ls m m',
  sound reg m → run reg m ls = Some m' → sound reg m'.
Proof.
  induction ls as [|l ls IH]; intros m m' Hs; simpl.
  - by intros [= <-].
  - destruct (step reg m l) as [m1|] eqn:E; [|done].
    apply IH. by eapply sound_step.
Qed.

Lemma adopted_step reg m l m' :
  adopted m ∨ nothing_resolved m → step reg m l = Some m' →
  adopted m' ∨ nothing_resolved m'.
Proof.
  intros Hinv Hstep.
  destruct (step_session _ _ _ _ Hstep)
    as [(tr & Hs & Hcalls) | [(c & who & i & strat & md & rm & Hc & Hs)
       | [(h & -> & Hs & Hcalls) | (-> & Hs & Hcalls)]]].
  - destruct Hinv as [[Hr Hm] | [Hb Hc]].
    + left. unfold adopted. by rewrite Hs.
    + right. split.
      * intros fr Hfr.
        destruct (step_shape _ _ _ _ Hstep) as [[Hb' _] | (c & r & Hc' & Hb' & _)].
        { rewrite Hb' in Hfr. by apply (Hb fr). }
        rewrite Hb' in Hfr. destruct r as [rm strat|e]; [|done].
        by apply (Hc c Construction rm strat).
      * intros c who rm strat Hc'. by apply (Hc c who rm strat), Hcalls.
  - left. unfold adopted. rewrite Hs. simpl. split; by eexists.
  - destruct Hinv as [[Hr Hm] | [Hb Hc]].
    + left. unfold adopted. by rewrite Hs.
    + simpl in Hstep. destruct (built m) as [[fr|]|] eqn:Hbm; try done.
      by destruct (Hb fr).
  - destruct Hinv as [[Hr Hm] | [Hb Hc]].
    + left. unfold adopted. rewrite Hs.
      destruct (leave_current (session m)) as (-> & -> & _). done.
    + simpl in Hstep. destruct (built m) as [[fr|]|] eqn:Hbm; try done.
      by destruct (Hb fr).
Qed.

Lemma adopted_run reg : ∀ ls m m',
  adopted m ∨ nothing_resolved m → run reg m ls = Some m' →
  adopted m' ∨ nothing_resolved m'.
Proof.
  induction ls as [|l ls IH]; intros m m' Hinv; simpl.
  - by intros [= <-].
  - destruct (step reg m l) as [m1|] eqn:E; [|done].
    apply IH. by eapply adopted_step.
Qed.

Lemma nothing_resolved_init reg : nothing_resolved (joinRoomWithFallback reg).
Proof.
  unfold joinRoomWithFallback. pose proof (iterate_point reg 0 fresh) as Hp.
  destruct (iterate reg 0 fresh) as [σ p]. split; simpl; [done|].
  intros [|c] who rm strat; simpl; [|done]. intros [= _ ->]. by destruct (Hp rm strat).
Qed.

(** ** The facade *)

Lemma step_builds reg m l m' b :
  step reg m l = Some m' → built m = None → built m' = Some b →
  ∃ c r, l = ConnectSettles c ∧
         calls m !! c = Some (Construction, AwaitConnect r) ∧
         b = resume_construction r.
Proof.
  intros Hstep Hnone Hb.
  destruct l as [c res|c rs q|c|c|c k|ws|ws|h|]; simpl in Hstep.
  - destruct (calls m !! c) as [[who []]|]; try done.
    injection Hstep as <-. simpl in Hb. congruence.
  - destruct (calls m !! c) as [[who []]|]; try done.
    destruct (waitForRelayOpen _ _ _ _) as [[t ok]|]; [|done].
    injection Hstep as <-. simpl in Hb. congruence.
  - destruct (calls m !! c) as [[who []]|]; try done.
    injection Hstep as <-. simpl in Hb. congruence.
  - destruct (calls m !! c) as [[[] []]|] eqn:Hc; try done;
      injection Hstep as <-; simpl in Hb; [|congruence].
    exists c, r. split; [done|]. split; [done|congruence].
  - destruct (calls m !! c) as [[[] [| | |[]|]]|]; try done.
    case_bool_decide; [|done]. injection Hstep as <-. simpl in Hb. congruence.
  - case_bool_decide; injection Hstep as <-; [|congruence].
    unfold handleDisconnect in Hb. destruct (active (session m)); simpl in Hb;
      [|congruence].
    destruct (iterate reg 0 (session m)). simpl in Hb. congruence.
  - case_bool_decide; injection Hstep as <-; [|congruence].
    unfold handleDisconnect in Hb. destruct (active (session m)); simpl in Hb;
      [|congruence].
    destruct (iterate reg 0 (session m)). simpl in Hb. congruence.
  - by rewrite Hnone in Hstep.
  - by rewrite Hnone in Hstep.
Qed.

(** The facade is made when the construction's own [connect()] settles,
    from the room and the name it resolved with. *)
Lemma built_origin reg : ∀ ls m m' fr,
  well_formed m → built m = None →
  run reg m ls = Some m' → built m' = Some (Returned fr) →
  ∃ ls1 ls2 m0 c,
    ls = ls1 ++ ConnectSettles c :: ls2 ∧ run reg m ls1 = Some m0 ∧
    calls m0 !! c
    = Some (Construction, AwaitConnect (Resolved (room fr) (strategy fr))).
Proof.
  induction ls as [|l ls IH]; intros m m' fr Hwf Hnone; simpl.
  - intros [= <-] Hb. congruence.
  - destruct (step reg m l) as [m1|] eqn:E; [|done]. intros Hrun Hb.
    pose proof (well_formed_step _ _ _ _ Hwf E) as Hwf1.
    destruct (built m1) as [b|] eqn:Hb1.
    + destruct (step_builds _ _ _ _ _ E Hnone Hb1) as (c & r & -> & Hc & ->).
      exists [], ls, m, c. split; [done|]. split; [done|].
      rewrite (run_built _ _ _ _ _ Hwf1 Hb1 Hrun) in Hb.
      destruct r as [rm strat|e]; simpl in Hb; [|done]. by injection Hb as <-.
    + destruct (IH m1 m' fr Hwf1 Hb1 Hrun Hb) as (ls1 & ls2 & m0 & c & -> & Hrun1 & Hc).
      exists (l :: ls1), ls2, m0, c. split; [done|]. split; [|done].
      simpl. by rewrite E.
Qed.

(** C8.  Once the facade has been returned, no step changes its [room] and
    [strategy]; a reconnection whose probe succeeds makes its room and
    module the current ones and leaves the facade as it is; [leave()] calls
    [leave] on the current room, whatever room the facade holds.  What the
    facade holds is the session connected first: it was made when the
    construction's own [connect()] settled, from the room and the name that
    call resolved with, a room joined through the strategy of that name;
    and when nothing runs in between, that room is the one [connect()] has
    made current. *)
Theorem facade_keeps_first_session reg ls m fr :
  run reg (joinRoomWithFallback reg) ls = Some m →
  built m = Some (Returned fr) →
  (∀ ls' m', run reg m ls' = Some m' → built m' = Some (Returned fr)) ∧
  (∀ c i strat md rm rs q t,
     calls m !! c = Some (Reconnection, AwaitProbe i strat md rm) →
     waitForRelayOpen (getRelaySockets md) default_timeout rs q = Some (t, true) →
     ∃ m', step reg m (ProbeSettles c rs q) = Some m' ∧
           currentRoom (session m') = Some rm ∧
           currentModule (session m') = Some md ∧
           built m' = Some (Returned fr)) ∧
  (∀ rm, currentRoom (session m) = Some rm →
     ∃ m', step reg m CallLeave = Some m' ∧
           trace (session m') = trace (session m) ++ [LeaveCalled rm] ∧
           built m' = Some (Returned fr)) ∧
  (∃ ls1 ls2 m0,
     ls = ls1 ++ ConnectSettles 0 :: ls2 ∧
     run reg (joinRoomWithFallback reg) ls1 = Some m0 ∧
     calls m0 !! 0
     = Some (Construction, AwaitConnect (Resolved (room fr) (strategy fr))) ∧
     joined_by reg (trace (session m0)) (room fr) (strategy fr)) ∧
  (∀ env σ rm strat,
     connect reg env 0 fresh = (σ, Some (Resolved rm strat)) →
     run reg (joinRoomWithFallback reg) (script env 0 reg 0 ++ [ConnectSettles 0])
     = Some (MkMachine σ (Some (Returned (MkFallbackRoom rm strat)))
                       [(Construction, Finished)]) ∧
     currentRoom σ = Some rm).
Proof.
  intros Hrun Hb.
  assert (Hwf : well_formed m)
    by (eapply well_formed_run; [apply well_formed_init|exact Hrun]).
  pose proof (sound_run reg ls _ m (sound_init reg) Hrun) as (Hret & _ & _).
  split; [|split; [|split; [|split]]].
  - intros ls' m' Hrun'. by eapply run_built.
  - intros c i strat md rm rs q t Hc Hw. simpl. rewrite Hc, Hw.
    eexists. split; [done|]. done.
  - intros rm Hrm. simpl. rewrite Hb. eexists. split; [done|]. simpl.
    split; [|done]. by apply leave_reaches_the_room.
  - destruct (built_origin reg ls _ m fr (well_formed_init reg)
                (proj2 (fresh_session reg)) Hrun Hb)
      as (ls1 & ls2 & m0 & c & -> & Hrun1 & Hc).
    pose proof (well_formed_run reg ls1 _ m0 (well_formed_init reg) Hrun1) as [Hone _].
    pose proof (sound_run reg ls1 _ m0 (sound_init reg) Hrun1) as (_ & Hok & _).
    assert (c = 0) as -> by (by eapply Hone).
    exists ls1, ls2, m0. split; [done|]. split; [done|]. split; [done|].
    apply (Hok 0 Construction _ Hc).
  - intros env σ rm strat Hconn. unfold connect in Hconn. rewrite drop_0 in Hconn.
    split.
    + rewrite run_app.
      erewrite (script_runs reg env 0 Construction reg 0 (joinRoomWithFallback reg) fresh);
        [|done| | |exact Hconn].
      * simpl. unfold joinRoomWithFallback.
        by destruct (iterate reg 0 fresh) as [σ0 p].
      * unfold joinRoomWithFallback. by destruct (iterate reg 0 fresh).
      * unfold joinRoomWithFallback. by destruct (iterate reg 0 fresh).
    + destruct (connect_loop_shape env reg 0 fresh) as (tr & _ & _ & Hm).
      rewrite Hconn in Hm. simpl in Hm.
      by destruct Hm as (_ & n & md & _ & _ & _ & ->).
Qed.

Lemma facade_keeps_first_session_witness :
  built (after two (boot ++ swap ++ again ++
                    [ProbeSettles 2 (<[11 := OPEN]> connecting) []; ConnectSettles 2]))
  = Some (Returned (MkFallbackRoom 1 "nostr")) ∧
  (∃ m', step two (after two (boot ++ swap ++ again))
              (ProbeSettles 2 (<[11 := OPEN]> connecting) []) = Some m' ∧
         currentRoom (session m') = Some 4 ∧
         currentModule (session m') = Some nostr_again ∧
         built m' = Some (Returned (MkFallbackRoom 1 "nostr"))) ∧
  (∃ m', step two (after two (boot ++ swap ++ again)) CallLeave = Some m' ∧
         trace (session m')
         = trace (session (after two (boot ++ swap ++ again))) ++ [LeaveCalled 2] ∧
         built m' = Some (Returned (MkFallbackRoom 1 "nostr"))) ∧
  (∃ ls1 ls2 m0,
     boot ++ swap ++ again = ls1 ++ ConnectSettles 0 :: ls2 ∧
     run two (joinRoomWithFallback two) ls1 = Some m0 ∧
     calls m0 !! 0 = Some (Construction, AwaitConnect (Resolved 1 "nostr")) ∧
     joined_by two (trace (session m0)) 1 "nostr").
Proof.
  destruct (facade_keeps_first_session two (boot ++ swap ++ again)
              (after two (boot ++ swap ++ again)) (MkFallbackRoom 1 "nostr"))
    as (Hkeep & Hswap & Hleave & Hfirst & _).
  { vm_compute. reflexivity. }
  { reflexivity. }
  split; [|split; [|split]].
  - apply (Hkeep [ProbeSettles 2 (<[11 := OPEN]> connecting) []; ConnectSettles 2]).
    vm_compute. reflexivity.
  - apply (Hswap 2 0 "nostr" nostr_again 4 (<[11 := OPEN]> connecting) [] 0%Z).
    + reflexivity.
    + vm_compute. reflexivity.
  - apply (Hleave 2). reflexivity.
  - exact Hfirst.
Defined.

(** After the swap the facade still shows room 1 of "nostr", the current
    room is room 2 of "torrent", and it is room 2 that [leave()] leaves;
    a further reconnection waits at its probe with room 4. *)
Example facade_after_swap :
  built (after two (boot ++ swap ++ again)) = Some (Returned (MkFallbackRoom 1 "nostr")) ∧
  currentRoom (session (after two (boot ++ swap ++ again))) = Some 2 ∧
  currentModule (session (after two (boot ++ swap ++ again))) = Some torrent_module ∧
  calls (after two (boot ++ swap ++ again)) !! 2
  = Some (Reconnection, AwaitProbe 0 "nostr" nostr_again 4) ∧
  trace (session (after two (boot ++ swap ++ again ++ [CallLeave])))
  = trace (session (after two (boot ++ swap ++ again))) ++ [LeaveCalled 2].
Proof. vm_compute. done. Qed.

(** The construction, spelled out: [connect()] resolves with room 12 of
    "mqtt", the third strategy, makes it current, and the facade holds that
    room and that name. *)
Example facade_of_the_construction :
  run strategies (joinRoomWithFallback strategies)
      (script scenario 0 strategies 0 ++ [ConnectSettles 0])
  = Some (MkMachine (connect strategies scenario 0 fresh).1
            (Some (Returned (MkFallbackRoom 12 "mqtt"))) [(Construction, Finished)]) ∧
  currentRoom (connect strategies scenario 0 fresh).1 = Some 12.
Proof. vm_compute. done. Qed.

(** X9.  Once [joinRoomWithFallback] has returned the facade, a room and a
    module are current in every state the session can reach, so [leave()]
    always has a room to call [leave] on; and it does so on each call: a
    second [leave()] calls [leave] on the same room once more. *)
Theorem leave_always_leaves_the_current_room reg ls m fr :
  run reg (joinRoomWithFallback reg) ls = Some m →
  built m = Some (Returned fr) →
  ∃ rm md,
    currentRoom (session m) = Some rm ∧ currentModule (session m) = Some md ∧
    ∃ m1 m2,
      step reg m CallLeave = Some m1 ∧
      trace (session m1) = trace (session m) ++ [LeaveCalled rm] ∧
      step reg m1 CallLeave = Some m2 ∧
      trace (session m2) = trace (session m) ++ [LeaveCalled rm; LeaveCalled rm].
Proof.
  intros Hrun Hb.
  destruct (adopted_run reg ls _ m (or_intror (nothing_resolved_init reg)) Hrun)
    as [[[rm Hrm] [md Hmd]] | [Hno _]]; [|by destruct (Hno fr)].
  exists rm, md. split; [done|]. split; [done|].
  exists (MkMachine (leave (session m)) (built m) (calls m)),
         (MkMachine (leave (leave (session m))) (built m) (calls m)).
  pose proof (sound_run reg ls _ m (sound_init reg) Hrun) as (Hret & _ & _).
  destruct (leave_current (session m)) as (Hr & Hcm & _).
  assert (Hone : trace (leave (session m)) = trace (session m) ++ [LeaveCalled rm])
    by (by apply leave_reaches_the_room).
  split; [simpl; by rewrite Hb|]. split; [done|].
  split; [simpl; by rewrite Hb|]. simpl.
  rewrite (leave_reaches_the_room _ rm).
  - by rewrite Hone, <- app_assoc.
  - by rewrite Hr.
  - intros md'. rewrite Hcm. apply Hret.
Qed.

Lemma leave_always_leaves_the_current_room_witness :
  ∃ rm md,
    currentRoom (session (after two (boot ++ swap))) = Some rm ∧
    currentModule (session (after two (boot ++ swap))) = Some md ∧
    ∃ m1 m2,
      step two (after two (boot ++ swap)) CallLeave = Some m1 ∧
      trace (session m1) = trace (session (after two (boot ++ swap))) ++ [LeaveCalled rm] ∧
      step two m1 CallLeave = Some m2 ∧
      trace (session m2)
      = trace (session (after two (boot ++ swap))) ++ [LeaveCalled rm; LeaveCalled rm].
Proof.
  apply (leave_always_leaves_the_current_room two (boot ++ swap)
           (after two (boot ++ swap)) (MkFallbackRoom 1 "nostr")).
  - vm_compute. reflexivity.
  - reflexivity.
Defined.

(** X10.  A reconnection in which every strategy fails is not retried and
    changes nothing: the session keeps its room, module, listeners, handlers
    and [active] flag, the facade is as it was, no handler is called, one
    error is logged and the call is over. *)
Theorem failed_reconnection_changes_nothing reg env m ws :
  active (session m) = true →
  ws ∈ watched (session m) →
  (∀ j, j < length reg → fails (env j)) →
  ∃ tr,
    calls_no_handler tr ∧ (ErrorLogged ∉ tr) ∧
    run reg m (SocketCloses ws :: script env (length (calls m)) reg 0
               ++ [ConnectSettles (length (calls m))])
    = Some (MkMachine (logs (tr ++ [ErrorLogged]) (session m)) (built m)
                      (calls m ++ [(Reconnection, Finished)])).
Proof.
  intros Hact Hws Hall.
  destruct (connect reg env 0 (session m)) as [σ' r] eqn:Hrun.
  assert (∃ e, r = Some (Rejected e)) as [e ->].
  { destruct (proj2 (connect_loop_rejected env reg 0 (session m))) as [e He].
    - intros n Hn. by apply Hall.
    - unfold connect in Hrun. rewrite drop_0 in Hrun. rewrite Hrun in He. by exists e. }
  destruct (connect_loop_shape env (drop 0 reg) 0 (session m)) as (tr & Hh & He & Hm).
  change (connect_loop env (drop 0 reg) 0 (session m))
    with (connect reg env 0 (session m)) in Hm.
  rewrite Hrun in Hm. simpl in Hm. destruct Hm as [_ Hm]. subst σ'.
  exists tr. split; [done|]. split; [done|].
  rewrite (reconnection_runs_connect reg env m ws _ _ Hact Hws Hrun).
  simpl. by rewrite log_logs, logs_logs.
Qed.

Lemma failed_reconnection_changes_nothing_witness :
  ∃ tr,
    calls_no_handler tr ∧ (ErrorLogged ∉ tr) ∧
    run two (after two boot)
        (SocketCloses 10 :: script hopeless (length (calls (after two boot))) two 0
         ++ [ConnectSettles (length (calls (after two boot)))])
    = Some (MkMachine (logs (tr ++ [ErrorLogged]) (session (after two boot)))
                      (built (after two boot))
                      (calls (after two boot) ++ [(Reconnection, Finished)])).
Proof.
  apply (failed_reconnection_changes_nothing two hopeless (after two boot) 10).
  - reflexivity.
  - vm_compute. set_solver.
  - intros j _. apply hopeless_fails.
Defined.




(** * The callers *)

Lemma env_step reg m l m' :
  env_label l = true → well_formed m → step reg m l = Some m' →
  well_formed m' ∧ same_flags (session m) (session m') ∧
  (∀ b, built m = Some b → built m' = Some b).
Proof.
  intros Hl Hwf Hstep. split; [by eapply well_formed_step|]. split.
  - pose proof (step_flags _ _ _ _ Hstep) as Hf. by destruct l.
  - intros b Hb. by eapply step_built.
Qed.

Lemma handler_calls_nil m l :
  reconnectHandlers (session m) = [] → handler_calls m l = [].
Proof.
  intros Hh. unfold handler_calls.
  destruct l; try done; destruct (calls m !! c) as [[[] []]|]; try done;
    (destruct r; [|done]); by rewrite Hh.
Qed.

Lemma handler_calls_one m l :
  reconnectHandlers (session m) = [the_handler] →
  handler_calls m l = [] ∨
  ∃ c rm strat, (l = ConnectSettles c ∨ ∃ k, l = HandlerThrows c k) ∧
    calls m !! c = Some (Reconnection, AwaitConnect (Resolved rm strat)) ∧
    handler_calls m l = [rm].
Proof.
  intros Hh. unfold handler_calls.
  destruct l; try (by left);
    (destruct (calls m !! c) as [[[] []]|] eqn:Hc; try (by left));
    (destruct r as [rm strat|]; [|by left]);
    right; exists c, rm, strat; rewrite Hh.
  - split; [by left|done].
  - split; [right; by eexists|]. split; [done|]. simpl. by rewrite take_nil.
Qed.

Lemma handler_rooms_app t1 t2 : handler_rooms (t1 ++ t2) = handler_rooms t1 ++ handler_rooms t2.
Proof. apply omap_app. Qed.

Lemma handler_rooms_dispatch rm strat hs :
  handler_rooms (map (λ fn, HandlerCalled fn rm strat) hs)
  = omap (λ fn, if decide (fn = the_handler) then Some rm else None) hs.
Proof.
  induction hs as [|fn hs IH]; [done|].
  unfold handler_rooms in *. simpl in *.
  destruct (decide (fn = the_handler)); [f_equal|]; exact IH.
Qed.

Lemma iterate_quiet reg i σ :
  ∃ tr, (iterate reg i σ).1 = logs tr σ ∧ handler_rooms tr = [].
Proof.
  unfold iterate. destruct (reg !! i).
  - by exists [LoadCalled i].
  - exists []. by rewrite logs_nil.
Qed.

Lemma resume_load_quiet reg i strat res σ :
  ∃ tr, (resume_load reg i strat res σ).1 = logs tr σ ∧ handler_rooms tr = [].
Proof.
  unfold resume_load. destruct res as [md|]; [|apply iterate_quiet].
  destruct (joinRoom md) as [rm|].
  - destruct (raises md); [|by exists [JoinReturned i rm]].
    destruct (iterate_quiet reg (S i) (log (JoinReturned i rm) σ)) as (tr & -> & Hq).
    exists ([JoinReturned i rm] ++ tr). rewrite log_logs, logs_logs. split; [done|].
    by rewrite handler_rooms_app, Hq.
  - destruct (iterate_quiet reg (S i) (log (JoinThrew i) σ)) as (tr & -> & Hq).
    exists ([JoinThrew i] ++ tr). rewrite log_logs, logs_logs. split; [done|].
    by rewrite handler_rooms_app, Hq.
Qed.

(** The rooms the handler is called with, read off the trace, are those of
    [handler_calls]. *)
Lemma handler_calls_sound reg m l m' :
  step reg m l = Some m' →
  ∃ tr, trace (session m') = trace (session m) ++ tr ∧
        handler_rooms tr = handler_calls m l.
Proof.
  assert (Hsame : ∃ tr, trace (session m) = trace (session m) ++ tr ∧
                        handler_rooms tr = []).
  { exists []. by rewrite app_nil_r. }
  destruct l as [c res|c rs q|c|c|c k|ws|ws|h|]; simpl.
  - destruct (calls m !! c) as [[who []]|] eqn:Hc; try done.
    intros [= <-]. simpl.
    destruct (resume_load_quiet reg i strat res (session m)) as (tr & -> & Hq).
    by exists tr.
  - destruct (calls m !! c) as [[who []]|] eqn:Hc; try done.
    destruct (waitForRelayOpen _ _ _ _) as [[t [|]]|]; [| |done]; intros [= <-]; simpl.
    + done.
    + by exists [LeaveCalled rm].
  - destruct (calls m !! c) as [[who []]|] eqn:Hc; try done.
    intros [= <-]. simpl.
    destruct (iterate_quiet reg (S i) (session m)) as (tr & -> & Hq). by exists tr.
  - destruct (calls m !! c) as [[[] []]|] eqn:Hc; try done; intros [= <-]; simpl.
    + done.
    + destruct r as [rm strat|e]; simpl.
      * rewrite dispatch_logs. eexists. split; [done|]. apply handler_rooms_dispatch.
      * by exists [ErrorLogged].
  - destruct (calls m !! c) as [[[] [| | |[]|]]|] eqn:Hc; try done.
    case_bool_decide as Hk; [|done]. intros [= <-]. simpl.
    rewrite dispatch_logs. simpl. rewrite <- app_assoc. eexists. split; [done|].
    rewrite handler_rooms_app, handler_rooms_dispatch. simpl. by rewrite app_nil_r.
  - case_bool_decide; intros [= <-]; [|done].
    unfold handleDisconnect. destruct (active (session m)); simpl; [|done].
    destruct (iterate_quiet reg 0 (session m)) as (tr & Htr & Hq).
    destruct (iterate reg 0 (session m)) as [σ p]. simpl in *. subst σ. by exists tr.
  - case_bool_decide; intros [= <-]; [|done].
    unfold handleDisconnect. destruct (active (session m)); simpl; [|done].
    destruct (iterate_quiet reg 0 (session m)) as (tr & Htr & Hq).
    destruct (iterate reg 0 (session m)) as [σ p]. simpl in *. subst σ. by exists tr.
  - destruct (built m) as [[]|]; try done. by intros [= <-].
  - destruct (built m) as [[]|]; try done. intros [= <-]. simpl.
    destruct (leave_trace (session m)) as (tr & E & [-> | (rm & _ & ->)]);
      by eexists.
Qed.

Lemma set_rooms_app l1 l2 : set_rooms (l1 ++ l2) = set_rooms l1 ++ set_rooms l2.
Proof. apply omap_app. Qed.


Lemma times_left_app l1 l2 : times_left (l1 ++ l2) = times_left l1 + times_left l2.
Proof. unfold times_left. by rewrite filter_app, length_app. Qed.

Lemma times_left_map rooms : times_left (map SetRoom rooms) = 0.
Proof.
  induction rooms as [|rm rooms IH]; [done|]. unfold times_left in *.
  cbn [map]. by rewrite filter_cons_False.
Qed.

Lemma left_is_last (l pre post : list EffectObs) :
  Left ∉ l → l ++ [Left] = pre ++ Left :: post → post = [].
Proof.
  revert pre. induction l as [|o l IH]; intros pre Hno; simpl.
  - destruct pre as [|o' pre]; simpl; [by intros [= <-]|].
    intros [= <- Hnil]. by destruct pre.
  - destruct pre as [|o' pre]; simpl.
    + intros [= -> _]. set_solver.
    + intros [= _ Heq]. eapply IH; [set_solver|done].
Qed.

Lemma left_not_in_sets rooms : Left ∉ map SetRoom rooms.
Proof. intros Hin. apply list_elem_of_fmap in Hin as (rm & [=] & _). Qed.

Lemma leave_step reg m fr :
  built m = Some (Returned fr) →
  step reg m CallLeave = Some (MkMachine (leave (session m)) (built m) (calls m)).
Proof. intros Hb. simpl. by rewrite Hb. Qed.

Lemma onReconnect_step reg m fn fr :
  built m = Some (Returned fr) →
  step reg m (CallOnReconnect fn)
  = Some (MkMachine (onReconnect fn (session m)) (built m) (calls m)).
Proof. intros Hb. simpl. by rewrite Hb. Qed.


Lemma mount_inv reg : hook_inv (mount reg).
Proof.
  split; [apply well_formed_init|]. simpl.
  destruct (fresh_session reg) as [[_ ->] _]. done.
Qed.

Lemma hook_loop reg h l h' :
  useTrysteroRoom_step reg h (Loop l) = Some h' →
  env_label l = true ∧
  ∃ m', step reg (machine h) l = Some m' ∧
        h' = MkEffect m' (cancelled h) (manager h) (suspended h)
               (effectLog h ++ map SetRoom (handler_calls (machine h) l)).
Proof.
  intros Hstep.
  destruct l; cbv beta iota delta [useTrysteroRoom_step] in Hstep; try done;
    (split; [done|]);
    match type of Hstep with
    | context [step ?r ?m ?l] => destruct (step r m l) as [m'|] eqn:E; [|done]
    end; injection Hstep as <-; by exists m'.
Qed.

Lemma hook_inv_step reg h l h' :
  hook_inv h → useTrysteroRoom_step reg h l = Some h' → hook_inv h'.
Proof.
  intros [Hwf Hinv] Hstep. destruct l as [l| |].
  - destruct (hook_loop _ _ _ _ Hstep) as (Hl & m' & Hm & ->).
    destruct (env_step _ _ _ _ Hl Hwf Hm) as (Hwf' & [_ Hh] & Hb).
    split; [done|]. simpl.
    destruct (manager h) as [fr|].
    + destruct Hinv as (Hbuilt & Hsus & Hc). split; [by apply Hb|]. split; [done|].
      destruct (cancelled h).
      * destruct Hc as [Hnil Hlog]. rewrite Hh. split; [done|].
        rewrite (handler_calls_nil _ _ Hnil). simpl. by rewrite app_nil_r.
      * destruct Hc as [Hone [rooms Hlog]]. rewrite Hh. split; [done|].
        destruct (handler_calls_one _ l Hone) as [-> | (c & rm & strat & _ & _ & ->)].
        { exists rooms. simpl. by rewrite app_nil_r. }
        exists (rooms ++ [rm]). rewrite Hlog. simpl. by rewrite map_app.
    + destruct Hinv as [Hnil Hlog]. rewrite Hh. split; [done|].
      rewrite (handler_calls_nil _ _ Hnil). simpl. by rewrite app_nil_r.
  - cbv beta iota delta [useTrysteroRoom_step] in Hstep.
    destruct (suspended h) eqn:Hsus; [|done].
    destruct (manager h) as [fr'|] eqn:Hman; [by destruct Hinv as (_ & ? & _)|].
    destruct Hinv as [Hnil Hlog].
    destruct (built (machine h)) as [[fr|e]|] eqn:Hb; [| |done].
    + destruct (cancelled h) eqn:Hc.
      * rewrite (leave_step _ _ _ Hb) in Hstep. simpl in Hstep. injection Hstep as <-.
        split; [eapply (well_formed_step reg); [done|by eapply leave_step]|]. simpl.
        split; [done|]. split; [done|].
        destruct (leave_flags (session (machine h))) as [-> _]. split; [done|].
        left. by rewrite Hlog.
      * rewrite (onReconnect_step _ _ _ _ Hb) in Hstep. simpl in Hstep.
        injection Hstep as <-.
        split; [eapply (well_formed_step reg); [done|by eapply onReconnect_step]|].
        simpl. split; [done|]. split; [done|]. rewrite Hnil. split; [done|].
        exists []. by rewrite Hlog.
    + injection Hstep as <-. split; [done|]. simpl. split; [done|]. by rewrite Hlog.
  - cbv beta iota delta [useTrysteroRoom_step cleanup_effect] in Hstep.
    destruct (cancelled h) eqn:Hc; [done|].
    destruct (manager h) as [fr|] eqn:Hman.
    + destruct Hinv as (Hb & Hsus & Hone & rooms & Hlog).
      rewrite (leave_step _ _ _ Hb) in Hstep. simpl in Hstep. injection Hstep as <-.
      split; [eapply (well_formed_step reg); [done|by eapply leave_step]|]. simpl.
      split; [done|]. split; [done|].
      destruct (leave_flags (session (machine h))) as [-> _]. split; [done|].
      right. exists rooms. by rewrite Hlog.
    + injection Hstep as <-. split; [done|]. simpl. done.
Qed.

Lemma hook_inv_run reg : ∀ ls h h',
  hook_inv h → effect_run (useTrysteroRoom_step reg) h ls = Some h' → hook_inv h'.
Proof.
  induction ls as [|l ls IH]; intros h h' Hinv; simpl.
  - by intros [= <-].
  - destruct (useTrysteroRoom_step reg h l) as [h1|] eqn:E; [|done].
    apply IH. by eapply hook_inv_step.
Qed.

(** X12.  [useTrysteroRoom] tears its session down exactly once: when the
    cleanup has run and the construction has handed over a facade, in
    whichever order, [leave()] has been called once; before that, and when
    the construction failed, never; and the effect does nothing after it (no
    [setRoom], no [onReconnect], no second [leave()]). *)
Theorem hook_leaves_exactly_once reg ls h :
  effect_run (useTrysteroRoom_step reg) (mount reg) ls = Some h →
  times_left (effectLog h)
  = match manager h with
    | Some _ => if cancelled h then 1 else 0
    | None => 0
    end ∧
  ∀ pre post, effectLog h = pre ++ Left :: post → post = [].
Proof.
  intros Hrun.
  destruct (hook_inv_run reg ls _ _ (mount_inv reg) Hrun) as [_ Hinv].
  destruct (manager h) as [fr|].
  - destruct Hinv as (_ & _ & Hc). destruct (cancelled h).
    + destruct Hc as [_ [-> | [rooms ->]]].
      * split; [done|]. intros pre post Heq.
        apply (left_is_last [] pre post); [set_solver|done].
      * split.
        { change (SetRoom (room fr) :: Registered :: map SetRoom rooms ++ [Left])
            with ([SetRoom (room fr); Registered] ++ map SetRoom rooms ++ [Left]).
          rewrite !times_left_app, times_left_map. reflexivity. }
        intros pre post Heq.
        apply (left_is_last (SetRoom (room fr) :: Registered :: map SetRoom rooms) pre post);
          [|done].
        pose proof (left_not_in_sets rooms). set_solver.
    + destruct Hc as [_ [rooms ->]]. split.
      { change (SetRoom (room fr) :: Registered :: map SetRoom rooms)
          with ([SetRoom (room fr); Registered] ++ map SetRoom rooms).
        rewrite times_left_app, times_left_map. reflexivity. }
      intros pre post Heq. exfalso.
      assert (Left ∈ SetRoom (room fr) :: Registered :: map SetRoom rooms)
        by (rewrite Heq; set_solver).
      pose proof (left_not_in_sets rooms). set_solver.
  - destruct Hinv as [_ Hlog]. destruct (suspended h); rewrite Hlog.
    + split; [done|]. intros [|??] ? [=].
    + split; [done|]. intros [|? [|??]] ? [=].
Qed.

Lemma hook_leaves_exactly_once_witness :
  times_left (effectLog (effect_after (useTrysteroRoom_step two) two
                           [load0; Cleanup; probe0; built0; Settle]))
  = match manager (effect_after (useTrysteroRoom_step two) two
                     [load0; Cleanup; probe0; built0; Settle]) with
    | Some _ =>
        if cancelled (effect_after (useTrysteroRoom_step two) two
                        [load0; Cleanup; probe0; built0; Settle])
        then 1 else 0
    | None => 0
    end ∧
  ∀ pre post,
    effectLog (effect_after (useTrysteroRoom_step two) two
                 [load0; Cleanup; probe0; built0; Settle])
    = pre ++ Left :: post → post = [].
Proof.
  apply (hook_leaves_exactly_once two [load0; Cleanup; probe0; built0; Settle]).
  vm_compute. reflexivity.
Defined.

(** The two orders of cleanup and construction, spelled out. *)
Example hook_cleanup_orders :
  effectLog (effect_after (useTrysteroRoom_step two) two
               [load0; Cleanup; probe0; built0; Settle]) = [Left] ∧
  effectLog (effect_after (useTrysteroRoom_step two) two
               [load0; probe0; built0; Settle; Cleanup])
  = [SetRoom 1; Registered; Left].
Proof. vm_compute. done. Qed.

Lemma hook_cancelled_step reg h l h' :
  hook_inv h → cancelled h = true →
  useTrysteroRoom_step reg h l = Some h' →
  cancelled h' = true ∧ set_rooms (effectLog h') = set_rooms (effectLog h).
Proof.
  intros [_ Hinv] Hc Hstep.
  assert (Hnil : reconnectHandlers (session (machine h)) = []).
  { destruct (manager h); [|by destruct Hinv].
    destruct Hinv as (_ & _ & Hinv). rewrite Hc in Hinv. by destruct Hinv. }
  destruct l as [l| |].
  - destruct (hook_loop _ _ _ _ Hstep) as (_ & m' & _ & ->). simpl.
    split; [done|]. rewrite (handler_calls_nil _ _ Hnil). simpl. by rewrite app_nil_r.
  - cbv beta iota delta [useTrysteroRoom_step] in Hstep.
    destruct (suspended h); [|done].
    destruct (built (machine h)) as [[fr|e]|] eqn:Hb; [| |done].
    + rewrite Hc in Hstep. rewrite (leave_step _ _ _ Hb) in Hstep. simpl in Hstep.
      injection Hstep as <-. simpl. split; [done|].
      rewrite set_rooms_app. simpl. by rewrite app_nil_r.
    + injection Hstep as <-. simpl. split; [done|].
      rewrite set_rooms_app. simpl. by rewrite app_nil_r.
  - cbv beta iota delta [useTrysteroRoom_step cleanup_effect] in Hstep.
    by rewrite Hc in Hstep.
Qed.

(** X13.  Once the cleanup of [useTrysteroRoom] has run, [setRoom] is never
    called again, whatever the session still does: not by the construction
    when it completes afterwards, and not by a reconnection that was in
    flight. *)
Theorem hook_is_quiet_after_cleanup reg ls1 ls2 h h' :
  effect_run (useTrysteroRoom_step reg) (mount reg) ls1 = Some h →
  cancelled h = true →
  effect_run (useTrysteroRoom_step reg) h ls2 = Some h' →
  set_rooms (effectLog h') = set_rooms (effectLog h).
Proof.
  intros Hrun Hc.
  pose proof (hook_inv_run reg ls1 _ _ (mount_inv reg) Hrun) as Hinv.
  clear Hrun. revert h Hc Hinv.
  induction ls2 as [|l ls2 IH]; intros h Hc Hinv; simpl.
  - by intros [= <-].
  - destruct (useTrysteroRoom_step reg h l) as [h1|] eqn:E; [|done].
    intros Hrun2.
    destruct (hook_cancelled_step _ _ _ _ Hinv Hc E) as [Hc1 Hs1].
    rewrite <- Hs1. apply IH; [done| |done]. by eapply hook_inv_step.
Qed.

Lemma hook_is_quiet_after_cleanup_witness :
  set_rooms (effectLog (effect_after (useTrysteroRoom_step two) two
                          ([load0; probe0; built0; Settle; Loop (SocketCloses 10); Cleanup]
                           ++ [Loop (LoadSettles 1 (Some nostr_again));
                               Loop (ProbeSettles 1 (<[11 := OPEN]> connecting) []);
                               Loop (ConnectSettles 1)])))
  = set_rooms (effectLog (effect_after (useTrysteroRoom_step two) two
                            [load0; probe0; built0; Settle; Loop (SocketCloses 10); Cleanup])).
Proof.
  apply (hook_is_quiet_after_cleanup two
           [load0; probe0; built0; Settle; Loop (SocketCloses 10); Cleanup]
           [Loop (LoadSettles 1 (Some nostr_again));
            Loop (ProbeSettles 1 (<[11 := OPEN]> connecting) []);
            Loop (ConnectSettles 1)]).
  - vm_compute. reflexivity.
  - reflexivity.
  - vm_compute. reflexivity.
Defined.



Lemma effect_run_app stp h ls1 ls2 :
  effect_run stp h (ls1 ++ ls2) = effect_run stp h ls1 ≫= λ h', effect_run stp h' ls2.
Proof.
  revert h. induction ls1 as [|l ls1 IH]; intros h; simpl; [done|].
  destruct (stp h l); [apply IH|done].
Qed.

Lemma App_loop reg h l h' :
  App_step reg h (Loop l) = Some h' →
  env_label l = true ∧
  ∃ m', step reg (machine h) l = Some m' ∧
        h' = MkEffect m' (cancelled h) (manager h) (suspended h)
               (effectLog h ++ map Bound (handler_calls (machine h) l)).
Proof.
  intros Hstep.
  destruct l; cbv beta iota delta [App_step] in Hstep; try done;
    (split; [done|]);
    match type of Hstep with
    | context [step ?r ?m ?l] => destruct (step r m l) as [m'|] eqn:E; [|done]
    end; injection Hstep as <-; by exists m'.
Qed.

Lemma env_flags reg m l m' :
  env_label l = true → step reg m l = Some m' → same_flags (session m) (session m').
Proof. intros Hl Hstep. pose proof (step_flags _ _ _ _ Hstep) as Hf. by destruct l. Qed.

Lemma left_not_in_bounds rooms : Left ∉ map Bound rooms.
Proof. intros Hin. apply list_elem_of_fmap in Hin as (rm & [=] & _). Qed.

(** While the callback of [then] has not run, the effect of [App] has done
    nothing, and a cleanup finds no manager to call [leave] on. *)
Lemma App_pending reg : ∀ ls h h',
  manager h = None → suspended h = true → effectLog h = [] →
  reconnectHandlers (session (machine h)) = [] →
  active (session (machine h)) = true →
  Settle ∉ ls →
  effect_run (App_step reg) h ls = Some h' →
  manager h' = None ∧ suspended h' = true ∧ effectLog h' = [] ∧
  reconnectHandlers (session (machine h')) = [] ∧
  active (session (machine h')) = true.
Proof.
  induction ls as [|l ls IH]; intros h h' Hman Hsus Hlog Hnil Hact Hno; simpl.
  - by intros [= <-].
  - destruct (App_step reg h l) as [h1|] eqn:E; [|done].
    apply not_elem_of_cons in Hno as [Hl Hno].
    destruct l as [l| |]; [| done |].
    + destruct (App_loop _ _ _ _ E) as (Hlab & m' & Hm & ->).
      destruct (env_flags _ _ _ _ Hlab Hm) as [Ha Hh].
      apply IH; simpl; try done.
      * by rewrite (handler_calls_nil _ _ Hnil), Hlog.
      * by rewrite Hh.
      * by rewrite Ha.
    + cbv beta iota delta [App_step cleanup_effect] in E.
      rewrite Hman in E. destruct (cancelled h); [done|].
      injection E as <-. by apply IH.
Qed.

Lemma App_early_step reg h l h' :
  unmounted_early h → App_step reg h l = Some h' →
  unmounted_early h' ∧ (suspended h = false ∨ l = Settle → suspended h' = false).
Proof.
  intros (Hc & Hleft & Hact & Hs) Hstep. destruct l as [l| |].
  - destruct (App_loop _ _ _ _ Hstep) as (Hl & m' & Hm & ->).
    destruct (env_flags _ _ _ _ Hl Hm) as [Ha Hh]. unfold unmounted_early. simpl.
    split; [|by intros [?|?]].
    split; [done|]. split.
    { pose proof (left_not_in_bounds (handler_calls (machine h) l)). set_solver. }
    split; [by rewrite Ha|]. rewrite Hh. done.
  - cbv beta iota delta [App_step] in Hstep.
    destruct (suspended h) eqn:Hsus; [|done]. destruct Hs as [Hman Hnil].
    destruct (built (machine h)) as [[fr|e]|] eqn:Hb; try done.
    rewrite (onReconnect_step _ _ _ _ Hb) in Hstep. simpl in Hstep.
    injection Hstep as <-. unfold unmounted_early. simpl. split; [|done].
    split; [done|]. split; [set_solver|]. split; [done|].
    rewrite Hnil. split; [by eexists|done].
  - cbv beta iota delta [App_step cleanup_effect] in Hstep. by rewrite Hc in Hstep.
Qed.

Lemma App_early_run reg : ∀ ls h h',
  unmounted_early h → effect_run (App_step reg) h ls = Some h' →
  unmounted_early h' ∧ (suspended h = false ∨ Settle ∈ ls → suspended h' = false).
Proof.
  induction ls as [|l ls IH]; intros h h' Hinv; simpl.
  - intros [= <-]. split; [done|]. intros [?|?]; [done|set_solver].
  - destruct (App_step reg h l) as [h1|] eqn:E; [|done]. intros Hrun.
    destruct (App_early_step _ _ _ _ Hinv E) as [Hinv1 Hs1].
    destruct (IH _ _ Hinv1 Hrun) as [Hinv' Hs']. split; [done|].
    intros [Hs|Hin]; apply Hs'.
    + left. apply Hs1. by left.
    + apply elem_of_cons in Hin as [<-|Hin]; [|by right].
      left. apply Hs1. by right.
Qed.

(** X15.  The effect of [App] tears its session down only if the promise
    of [joinRoomWithFallback] has been fulfilled before the cleanup runs.
    When the cleanup comes first, [leave()] is never called: the session
    stays active, and once the callback of [then] has run it holds the
    facade with its reconnect handler registered. *)
Theorem App_cleanup_before_resolution_never_leaves reg ls1 ls2 h :
  effect_run (App_step reg) (mount reg) (ls1 ++ Cleanup :: ls2) = Some h →
  Settle ∉ ls1 →
  (Left ∉ effectLog h) ∧
  active (session (machine h)) = true ∧
  (Settle ∈ ls2 →
   is_Some (manager h) ∧ reconnectHandlers (session (machine h)) = [the_handler]).
Proof.
  intros Hrun Hno. rewrite effect_run_app in Hrun.
  destruct (effect_run (App_step reg) (mount reg) ls1) as [h1|] eqn:E1; [|done].
  simpl in Hrun.
  destruct (fresh_session reg) as [[Hact0 Hnil0] _]. simpl in Hact0, Hnil0.
  destruct (App_pending reg ls1 (mount reg) h1) as (Hman & Hsus & Hlog & Hnil & Hact);
    try done.
  destruct (cleanup_effect reg h1) as [h2|] eqn:E2; [|done].
  assert (Hinv : unmounted_early h2).
  { unfold cleanup_effect in E2. destruct (cancelled h1); [done|].
    rewrite Hman in E2. injection E2 as <-. unfold unmounted_early. simpl.
    rewrite Hlog, Hsus. split; [done|]. split; [set_solver|]. done. }
  destruct (App_early_run reg ls2 h2 h Hinv Hrun) as [(Hc & Hleft & Hact' & Hs) Hsus'].
  split; [done|]. split; [done|].
  intros Hin. rewrite (Hsus' (or_intror Hin)) in Hs. done.
Qed.

Lemma App_cleanup_before_resolution_never_leaves_witness :
  (Left ∉ effectLog (effect_after (App_step two) two
                       ([load0] ++ Cleanup :: [probe0; built0; Settle]))) ∧
  active (session (machine (effect_after (App_step two) two
                              ([load0] ++ Cleanup :: [probe0; built0; Settle])))) = true ∧
  (Settle ∈ [probe0; built0; Settle] →
   is_Some (manager (effect_after (App_step two) two
                       ([load0] ++ Cleanup :: [probe0; built0; Settle]))) ∧
   reconnectHandlers (session (machine (effect_after (App_step two) two
                                          ([load0] ++ Cleanup :: [probe0; built0; Settle]))))
   = [the_handler]).
Proof.
  apply (App_cleanup_before_resolution_never_leaves two [load0] [probe0; built0; Settle]).
  - vm_compute. reflexivity.
  - intros Hin. apply list_elem_of_singleton in Hin. discriminate.
Defined.

(** The same unmount in both callers: the hook leaves, [App] does not. *)
Example early_unmount_compared :
  effectLog (effect_after (useTrysteroRoom_step two) two
               [load0; Cleanup; probe0; built0; Settle]) = [Left] ∧
  effectLog (effect_after (App_step two) two
               [load0; Cleanup; probe0; built0; Settle])
  = [SetRoom 1; Bound 1; Registered].
Proof. vm_compute. done. Qed.

(** * Presence *)

Lemma peerJoined_elem q p prev : q ∈ peerJoined p prev ↔ q = p ∨ q ∈ prev.
Proof. unfold peerJoined. case_bool_decide; set_solver. Qed.

Lemma peerLeft_elem q p prev : q ∈ peerLeft p prev ↔ q ≠ p ∧ q ∈ prev.
Proof. unfold peerLeft. by rewrite list_elem_of_filter. Qed.

Lemma presence_NoDup prev e : NoDup prev → NoDup (presence prev e).
Proof.
  intros Hnd. destruct e as [p|p]; simpl.
  - unfold peerJoined. case_bool_decide; [done|].
    apply NoDup_app. split; [done|]. split; [set_solver|]. apply NoDup_singleton.
  - by apply NoDup_filter.
Qed.

(** X16.  The peer list of the chat: after any sequence of joins and
    leaves, a peer is listed exactly when the last event about it is a
    join, or when there is none and it was listed at the start; and a list
    without repetitions stays without repetitions, so that the list counts
    each peer once. *)
Theorem presence_is_last_event init evs :
  (NoDup init → NoDup (foldl presence init evs)) ∧
  ∀ p, p ∈ foldl presence init evs ↔
       match last_seen p evs with
       | Some joined => joined = true
       | None => p ∈ init
       end.
Proof.
  induction evs as [|e evs IH] using rev_ind; [done|].
  destruct IH as [IHnd IHin]. unfold last_seen in *. rewrite !foldl_app. simpl.
  split; [intros Hnd; by apply presence_NoDup, IHnd|].
  intros p. rewrite foldl_app. destruct e as [q|q]; simpl.
  - rewrite peerJoined_elem, IHin.
    destruct (decide (q = p)) as [->|Hne].
    + rewrite bool_decide_eq_true_2 by done. naive_solver.
    + rewrite bool_decide_eq_false_2 by done. naive_solver.
  - rewrite peerLeft_elem, IHin.
    destruct (decide (q = p)) as [->|Hne].
    + rewrite bool_decide_eq_true_2 by done. naive_solver.
    + rewrite bool_decide_eq_false_2 by done. naive_solver.
Qed.

Lemma presence_is_last_event_witness :
  NoDup (foldl presence ["a"; "b"] [Joins "c"; Leaves "a"; Joins "c"; Joins "a"; Leaves "b"]) ∧
  ("b" ∈ foldl presence ["a"; "b"] [Joins "c"; Leaves "a"; Joins "c"; Joins "a"; Leaves "b"] ↔
   match last_seen "b" [Joins "c"; Leaves "a"; Joins "c"; Joins "a"; Leaves "b"] with
   | Some joined => joined = true
   | None => "b" ∈ ["a"; "b"]
   end).
Proof.
  destruct (presence_is_last_event ["a"; "b"]
              [Joins "c"; Leaves "a"; Joins "c"; Joins "a"; Leaves "b"]) as [Hnd Hin].
  split; [|apply Hin].
  apply Hnd. repeat constructor; set_solver.
Defined.

Example presence_run :
  foldl presence ["a"; "b"] [Joins "c"; Leaves "a"; Joins "c"; Joins "a"; Leaves "b"]
  = ["c"; "a"].
Proof. vm_compute. reflexivity. Qed.

(** * The session, continued *)

Lemma idle_step_leaves reg m l m' :
  active (session m) = false → idle m → step reg m l = Some m' →
  active (session m') = false ∧ idle m' ∧ calls m' = calls m ∧
  ∃ tr, trace (session m') = trace (session m) ++ tr ∧ Forall is_leave tr.
Proof.
  intros Hact Hidle.
  assert (Hno : ∀ c who p, p ≠ Finished → calls m !! c ≠ Some (who, p)).
  { intros c who p Hp Hc. by apply Hp, (Hidle c who). }
  assert (Hsame : ∃ tr, trace (session m) = trace (session m) ++ tr ∧ Forall is_leave tr).
  { exists []. by rewrite app_nil_r. }
  destruct l as [c res|c rs q|c|c|c k|ws|ws|h|]; simpl.
  - destruct (calls m !! c) as [[who []]|] eqn:Hc; try done.
    by destruct (Hno c who (AwaitLoad i strat)).
  - destruct (calls m !! c) as [[who []]|] eqn:Hc; try done.
    by destruct (Hno c who (AwaitProbe i strat md rm)).
  - destruct (calls m !! c) as [[who []]|] eqn:Hc; try done.
    by destruct (Hno c who (AwaitLeave i)).
  - destruct (calls m !! c) as [[[] []]|] eqn:Hc; try done.
    + by destruct (Hno c Construction (AwaitConnect r)).
    + by destruct (Hno c Reconnection (AwaitConnect r)).
  - destruct (calls m !! c) as [[[] [| | |[]|]]|] eqn:Hc; try done.
    by destruct (Hno c Reconnection (AwaitConnect (Resolved rm strat))).
  - unfold handleDisconnect. rewrite Hact. simpl.
    case_bool_decide; by intros [= <-].
  - unfold handleDisconnect. rewrite Hact. simpl.
    case_bool_decide; by intros [= <-].
  - destruct (built m) as [[]|]; try done. by intros [= <-].
  - destruct (built m) as [[]|]; try done. intros [= <-]. simpl.
    destruct (leave_flags (session m)) as [_ ->].
    split; [done|]. split; [done|]. split; [done|].
    destruct (leave_trace (session m)) as (tr & E & Htr).
    exists tr. split; [done|].
    destruct Htr as [-> | (rm & _ & ->)]; [done|].
    apply Forall_singleton. by exists rm.
Qed.

(** X17.  Teardown is final when nothing is in flight: from a state in
    which [leave()] has been called and no call is suspended, whatever
    sockets close or fail and whatever the owner still calls, no call of
    [connect] is started, no strategy is loaded and no handler is called;
    the only observations are those of further calls of [leave()]. *)
Theorem teardown_is_final_when_idle reg ls m m' :
  active (session m) = false →
  idle m →
  run reg m ls = Some m' →
  calls m' = calls m ∧
  ∃ tr, trace (session m') = trace (session m) ++ tr ∧ Forall is_leave tr.
Proof.
  revert m. induction ls as [|l ls IH]; intros m Hact Hidle; simpl.
  - intros [= <-]. split; [done|]. exists []. by rewrite app_nil_r.
  - destruct (step reg m l) as [m1|] eqn:E; [|done]. intros Hrun.
    destruct (idle_step_leaves _ _ _ _ Hact Hidle E)
      as (Hact1 & Hidle1 & Hc1 & tr1 & E1 & H1).
    destruct (IH _ Hact1 Hidle1 Hrun) as (Hc2 & tr2 & E2 & H2).
    split; [by rewrite Hc2|].
    exists (tr1 ++ tr2). rewrite E2, E1, app_assoc. split; [done|].
    by apply Forall_app.
Qed.

Lemma teardown_is_final_when_idle_witness :
  calls (after two (boot ++ [CallOnReconnect 7; CallLeave]
                    ++ [SocketErrors 10; SocketCloses 10; CallOnReconnect 9; CallLeave]))
  = calls (after two (boot ++ [CallOnReconnect 7; CallLeave])) ∧
  ∃ tr,
    trace (session (after two (boot ++ [CallOnReconnect 7; CallLeave]
                               ++ [SocketErrors 10; SocketCloses 10; CallOnReconnect 9;
                                   CallLeave])))
    = trace (session (after two (boot ++ [CallOnReconnect 7; CallLeave]))) ++ tr ∧
    Forall is_leave tr.
Proof.
  apply (teardown_is_final_when_idle two
           [SocketErrors 10; SocketCloses 10; CallOnReconnect 9; CallLeave]
           (after two (boot ++ [CallOnReconnect 7; CallLeave]))).
  - reflexivity.
  - intros [|[|c]] who p; vm_compute; [by intros [= _ <-]|done|done].
  - vm_compute. reflexivity.
Defined.

Lemma connect_flags reg env i σ : same_flags σ (connect reg env i σ).1.
Proof.
  unfold connect.
  destruct (connect_loop_shape env (drop i reg) i σ) as (tr & _ & _ & Hm).
  destruct (connect_loop env (drop i reg) i σ) as [σ' [[rm strat|e]|]]; simpl in *.
  - by destruct Hm as (_ & n & md & _ & _ & _ & ->).
  - by destruct Hm as [_ ->].
  - by destruct Hm as [_ ->].
Qed.

(** X18.  A reconnection is [connect(0)] followed by lines 115-118: when
    nothing else runs in between, a close or error event on a watched
    socket of an active session ends in the session that [connect(0)]
    makes of the current one, followed by the error logged when it
    rejected, by the calls of all the handlers registered at the event when
    it resolved and they return, and, when it resolved and the call of the
    handler at position [k] throws, by the calls of the handlers up to that
    one and the error logged.  The call is then over and the facade
    untouched. *)
Theorem reconnection_is_connect_then_dispatch reg env m ws l σ' r :
  l = SocketCloses ws ∨ l = SocketErrors ws →
  active (session m) = true →
  ws ∈ watched (session m) →
  connect reg env 0 (session m) = (σ', Some r) →
  run reg m (l :: script env (length (calls m)) reg 0
             ++ [ConnectSettles (length (calls m))])
  = Some (MkMachine
            (logs match r with
                  | Resolved rm strat =>
                      map (λ fn, HandlerCalled fn rm strat) (reconnectHandlers (session m))
                  | Rejected _ => [ErrorLogged]
                  end σ')
            (built m) (calls m ++ [(Reconnection, Finished)])) ∧
  ∀ k rm strat,
    r = Resolved rm strat →
    k < length (reconnectHandlers (session m)) →
    run reg m (l :: script env (length (calls m)) reg 0
               ++ [HandlerThrows (length (calls m)) k])
    = Some (MkMachine
              (logs (map (λ fn, HandlerCalled fn rm strat)
                         (take (S k) (reconnectHandlers (session m)))
                     ++ [ErrorLogged]) σ')
              (built m) (calls m ++ [(Reconnection, Finished)])).
Proof.
  intros Hl Hact Hws Hrun.
  pose proof (connect_flags reg env 0 (session m)) as [_ Hh].
  rewrite Hrun in Hh. simpl in Hh.
  pose proof (reconnection_scans reg env m ws l σ' r Hl Hact Hws Hrun) as Hscan.
  split.
  - rewrite app_comm_cons, run_app, Hscan.
    cbn [mbind option_bind run step calls session built].
    rewrite list_lookup_middle by done.
    rewrite insert_app_r_alt by lia. rewrite Nat.sub_diag.
    destruct r as [rm strat|e]; simpl; [|done].
    by rewrite dispatch_logs, Hh.
  - intros k rm strat -> Hk.
    rewrite app_comm_cons, run_app, Hscan.
    cbn [mbind option_bind run step calls session built].
    rewrite list_lookup_middle by done.
    rewrite bool_decide_eq_true_2 by (by rewrite Hh).
    rewrite insert_app_r_alt by lia. rewrite Nat.sub_diag.
    unfold resume_reconnect, throws.
    rewrite bool_decide_eq_true_2 by (by rewrite Hh).
    by rewrite dispatch_logs, log_logs, logs_logs, Hh.
Qed.

Lemma reconnection_is_connect_then_dispatch_witness :
  run two (after two (boot ++ [CallOnReconnect 7; CallOnReconnect 8]))
      (SocketErrors 10 :: script relay_down 1 two 0 ++ [ConnectSettles 1])
  = Some (MkMachine
            (logs [HandlerCalled 7 2 "torrent"; HandlerCalled 8 2 "torrent"]
               (connect two relay_down 0
                  (session (after two (boot ++ [CallOnReconnect 7; CallOnReconnect 8])))).1)
            (Some (Returned (MkFallbackRoom 1 "nostr")))
            [(Construction, Finished); (Reconnection, Finished)]) ∧
  run two (after two (boot ++ [CallOnReconnect 7; CallOnReconnect 8]))
      (SocketErrors 10 :: script relay_down 1 two 0 ++ [HandlerThrows 1 0])
  = Some (MkMachine
            (logs [HandlerCalled 7 2 "torrent"; ErrorLogged]
               (connect two relay_down 0
                  (session (after two (boot ++ [CallOnReconnect 7; CallOnReconnect 8])))).1)
            (Some (Returned (MkFallbackRoom 1 "nostr")))
            [(Construction, Finished); (Reconnection, Finished)]).
Proof.
  destruct (reconnection_is_connect_then_dispatch two relay_down
              (after two (boot ++ [CallOnReconnect 7; CallOnReconnect 8]))
              10 (SocketErrors 10)
              (connect two relay_down 0
                 (session (after two (boot ++ [CallOnReconnect 7; CallOnReconnect 8])))).1
              (Resolved 2 "torrent")) as [Hall Hthrow].
  - by right.
  - reflexivity.
  - vm_compute. set_solver.
  - vm_compute. reflexivity.
  - split; [exact Hall|].
    apply (Hthrow 0 2 "torrent" eq_refl). vm_compute. lia.
Defined.

(** The two runs of the witness, spelled out: handler 8 is not called when
    handler 7 throws. *)
Example reconnection_trace :
  trace (session (after two (boot ++ [CallOnReconnect 7; CallOnReconnect 8]
                             ++ SocketErrors 10 :: script relay_down 1 two 0
                             ++ [ConnectSettles 1])))
  = [LoadCalled 0; JoinReturned 0 1;
     LoadCalled 0; JoinReturned 0 3; LeaveCalled 3; LoadCalled 1; JoinReturned 1 2;
     HandlerCalled 7 2 "torrent"; HandlerCalled 8 2 "torrent"] ∧
  trace (session (after two (boot ++ [CallOnReconnect 7; CallOnReconnect 8]
                             ++ SocketErrors 10 :: script relay_down 1 two 0
                             ++ [HandlerThrows 1 0])))
  = [LoadCalled 0; JoinReturned 0 1;
     LoadCalled 0; JoinReturned 0 3; LeaveCalled 3; LoadCalled 1; JoinReturned 1 2;
     HandlerCalled 7 2 "torrent"; ErrorLogged].
Proof. vm_compute. done. Qed.
